(** * The RPC layer of the parameter server: request queues and broadcast

    A shallow embedding of [src/core/rpc.cc]: the tagged envelope, the
    synchronous and the asynchronous request queue, the send records of
    the network thread, the response pool and the request processor.

    Vectors are lists read with stdpp's lookup; an index outside the
    vector (undefined behaviour in C++) is the failure [OutOfRange].  A
    failed glog CHECK is a failure naming the check.  The mutexes only
    matter as elements of the parallel vector [key_locks_]: every
    critical section of the source is one step of the model. *)

From stdpp Require Import gmap strings list fin_maps.
From Stdlib Require Import ZArith Lia.

Local Open Scope Z_scope.

(** ** Message kinds and envelopes *)

(** Modelled from the spec: the enumeration of message kinds is declared in
    [proto/common.pb.h], which is not among the sources; the spec lists
    PUT_REQUEST, GET_REQUEST, PUT_RESPONSE, GET_RESPONSE, SHARD_ASSIGNMENT,
    REGISTER_WORKER, WORKER_SHUTDOWN and a reply tag for broadcasts.  Only
    the distinctness of the kinds is used. *)
Inductive MessageKind :=
  | MTYPE_PUT_REQUEST
  | MTYPE_GET_REQUEST
  | MTYPE_PUT_RESPONSE
  | MTYPE_GET_RESPONSE
  | MTYPE_SHARD_ASSIGNMENT
  | MTYPE_REGISTER_WORKER
  | MTYPE_WORKER_SHUTDOWN
  | MTYPE_REPLY.

#[global] Instance MessageKind_eq_dec : EqDecision MessageKind.
Proof. solve_decision. Defined.

(** [struct TaggedMessage]. *)
Record TaggedMessage := mkTaggedMessage { tag : MessageKind; data : string }.

#[global] Instance TaggedMessage_eq_dec : EqDecision TaggedMessage.
Proof. solve_decision. Defined.

(** [typedef deque<TaggedMessage*> Queue]: [push_back] is [++ [m]],
    [front]/[pop_front] take the head. *)
Abbreviation Queue := (list TaggedMessage).

(** [boost::recursive_mutex], kept as an element of [key_locks_]. *)
Inductive recursive_mutex := Mutex.

(** ** Failures and the result of a call *)

Inductive failure :=
  | CHECK_LT_failed (idx : nat)      (* CHECK_LT(queue.size(), num_mem_servers_) *)
  | CHECK_EQ_failed (t : MessageKind)  (* CHECK_EQ(tag, MTYPE_PUT_REQUEST) *)
  | OutOfRange                        (* vector index past the end *)
  | BadFunctionCall.                  (* call of an unset handler *)

Inductive outcome (A : Type) :=
  | Ok (a : A)
  | Abort (e : failure).
Arguments Ok {A} a.
Arguments Abort {A} e.

#[global] Instance outcome_ret : MRet outcome := fun A a => Ok a.
#[global] Instance outcome_bind : MBind outcome := fun A B f m =>
  match m with
  | Ok a => f a
  | Abort e => Abort e
  end.

(** [v[i]] on a vector. *)
Definition at_ {A} (v : list A) (i : nat) : outcome A :=
  match v !! i with
  | Some x => Ok x
  | None => Abort OutOfRange
  end.

(** [CHECK_EQ(tag, MTYPE_PUT_REQUEST)]. *)
Definition CHECK_EQ_put (tg : MessageKind) : outcome unit :=
  if decide (tg = MTYPE_PUT_REQUEST) then Ok () else Abort (CHECK_EQ_failed tg).

Lemma bind_Ok {A B} (m : outcome A) (f : A -> outcome B) (b : B) :
  m ≫= f = Ok b -> exists a, m = Ok a /\ f a = Ok b.
Proof. destruct m as [a|e]; simpl; [eauto | discriminate]. Qed.

Lemma at_Ok {A} (v : list A) (i : nat) (x : A) :
  at_ v i = Ok x <-> v !! i = Some x.
Proof. unfold at_. destruct (v !! i); split; congruence. Qed.

Ltac inv_bind H :=
  let a := fresh "bnd" in
  let Ha := fresh "Hbnd" in
  apply bind_Ok in H; destruct H as (a & Ha & H).

(** ** Key extraction *)

Section Schema.

(** The generated protobuf classes [HashGet] (GET_REQUEST payloads) and
    [TableData] (PUT_REQUEST payloads): only parsing and the [key]
    accessor are used.  [ParseFromArray] yields the message object as it
    is left by the parser and the boolean it returns. *)
Variables HashGet TableData : Type.
Variable HashGet_ParseFromArray : string -> HashGet * bool.
Variable HashGet_key : HashGet -> string.
Variable TableData_ParseFromArray : string -> TableData * bool.
Variable TableData_key : TableData -> string.

(** [RequestQueue::ExtractKey]: [*key] is the caller's fresh, empty string
    and stays so for the other tags. *)
Definition ExtractKey (t : MessageKind) (d : string) : string :=
  match t with
  | MTYPE_GET_REQUEST => HashGet_key (HashGet_ParseFromArray d).1
  | MTYPE_PUT_REQUEST => TableData_key (TableData_ParseFromArray d).1
  | _ => ""%string
  end.

Definition key_of (m : TaggedMessage) : string := ExtractKey (tag m) (data m).

End Schema.

(** ** The synchronous request queue *)

Module SyncRequestQueue.

Section Queue.

Variables HashGet TableData : Type.
Variable HashGet_ParseFromArray : string -> HashGet * bool.
Variable HashGet_key : HashGet -> string.
Variable TableData_ParseFromArray : string -> TableData * bool.
Variable TableData_key : TableData -> string.

Local Abbreviation ExtractKey :=
  (ExtractKey HashGet TableData HashGet_ParseFromArray HashGet_key
     TableData_ParseFromArray TableData_key).
Local Abbreviation key_of :=
  (key_of HashGet TableData HashGet_ParseFromArray HashGet_key
     TableData_ParseFromArray TableData_key).

(** [class SyncRequestQueue]: the key map, the parallel vectors of queues
    and locks, and the cursor. *)
Record t := mk {
  key_map_ : gmap string nat;
  request_queues_ : list Queue;
  key_locks_ : list recursive_mutex;
  key_index_ : nat
}.

(** Modelled from the spec: the constructor is in [core/rpc.h], which is
    not among the sources.  A queue as constructed has no key and no slot,
    and its cursor is on slot 0, as the first scenario of the spec has it. *)
Definition init : t :=
  {| key_map_ := ∅; request_queues_ := []; key_locks_ := []; key_index_ := 0 |}.

(** [SyncRequestQueue::Enqueue]. *)
Definition Enqueue (tg : MessageKind) (d : string) (q : t) : outcome t :=
  let key := ExtractKey tg d in
  let q1 :=
    match key_map_ q !! key with
    | None =>
        let queues := request_queues_ q ++ [[]] in
        {| key_map_ := <[key := (length queues - 1)%nat]> (key_map_ q);
           request_queues_ := queues;
           key_locks_ := key_locks_ q ++ [Mutex];
           key_index_ := key_index_ q |}
    | Some _ => q
    end in
  let idx := default 0%nat (key_map_ q1 !! key) in
  key_queue ← at_ (request_queues_ q1) idx;
  _ ← at_ (key_locks_ q1) idx;
  Ok {| key_map_ := key_map_ q1;
        request_queues_ := <[idx := key_queue ++ [mkTaggedMessage tg d]]> (request_queues_ q1);
        key_locks_ := key_locks_ q1;
        key_index_ := key_index_ q1 |}.

(** One iteration of the outer loop of [SyncRequestQueue::NextRequest]:
    the slot under the cursor is examined, its head is taken when there
    is one, and the cursor moves on.  With no slot at all the iteration
    only sleeps. *)
Definition visit (q : t) : outcome (option TaggedMessage * t) :=
  match key_locks_ q, request_queues_ q with
  | [], [] => Ok (None, q)
  | _, _ =>
      key_queue ← at_ (request_queues_ q) (key_index_ q);
      _ ← at_ (key_locks_ q) (key_index_ q);
      let '(message, queues) :=
        match key_queue with
        | [] => (None, request_queues_ q)
        | q_msg :: rest => (Some q_msg, <[key_index_ q := rest]> (request_queues_ q))
        end in
      Ok (message,
          {| key_map_ := key_map_ q;
             request_queues_ := queues;
             key_locks_ := key_locks_ q;
             key_index_ := ((key_index_ q + 1) `mod` length queues)%nat |})
  end.

(** [SyncRequestQueue::NextRequest]: iterations until one succeeds.  The
    source loops without bound; [fuel] bounds the iterations, and [None]
    is a call still spinning when the fuel is spent. *)
Fixpoint NextRequest (fuel : nat) (q : t) : outcome (option TaggedMessage * t) :=
  match fuel with
  | O => Ok (None, q)
  | S fuel' =>
      r ← visit q;
      match r.1 with
      | Some message => Ok (Some message, r.2)
      | None => NextRequest fuel' r.2
      end
  end.

(** The producer (the network loop) and the consumer (the process loop)
    interleave at the granularity of the slot locks: a schedule is a list
    of enqueues and of loop iterations of [NextRequest]. *)
Inductive event :=
  | EvEnqueue (tg : MessageKind) (d : string)
  | EvVisit.

(** Runs a schedule; yields the envelopes dequeued, in order. *)
Fixpoint run (evs : list event) (q : t) : outcome (list TaggedMessage * t) :=
  match evs with
  | [] => Ok ([], q)
  | EvEnqueue tg d :: evs' =>
      q1 ← Enqueue tg d q;
      r ← run evs' q1;
      Ok (r.1, r.2)
  | EvVisit :: evs' =>
      v ← visit q;
      r ← run evs' v.2;
      Ok (option_list v.1 ++ r.1, r.2)
  end.

(** The envelopes a schedule enqueues, in order. *)
Definition enqueued (evs : list event) : list TaggedMessage :=
  omap (fun e => match e with
                 | EvEnqueue tg d => Some (mkTaggedMessage tg d)
                 | EvVisit => None
                 end) evs.

(** The FIFO of a key: the queue of its slot, empty for a key not seen. *)
Definition queue_of (q : t) (k : string) : Queue :=
  match key_map_ q !! k with
  | Some i => default [] (request_queues_ q !! i)
  | None => []
  end.

(** The envelopes of [l] that carry key [k]. *)
Definition with_key (k : string) (l : list TaggedMessage) : list TaggedMessage :=
  filter (fun m => key_of m = k) l.

(** What holds of every state the queue reaches. *)
Record wf (q : t) : Prop := {
  wf_locks : length (key_locks_ q) = length (request_queues_ q);
  wf_slot : forall k i, key_map_ q !! k = Some i -> (i < length (request_queues_ q))%nat;
  wf_inj : forall k1 k2 i, key_map_ q !! k1 = Some i -> key_map_ q !! k2 = Some i -> k1 = k2;
  wf_keys : forall i kq m, request_queues_ q !! i = Some kq -> m ∈ kq ->
                           key_map_ q !! key_of m = Some i;
  wf_cursor : (key_index_ q < length (request_queues_ q))%nat \/
              (request_queues_ q = [] /\ key_index_ q = 0%nat)
}.

(** The number of envelopes waiting, over all slots. *)
Definition pending (q : t) : nat := sum_list (length <$> request_queues_ q).

(** The process loop calls [NextRequest] again and again; here [calls]
    times, each call with fuel for one pass over the slots. *)
Fixpoint NextRequests (calls : nat) (q : t) : outcome (list TaggedMessage * t) :=
  match calls with
  | O => Ok ([], q)
  | S calls' =>
      r ← NextRequest (length (request_queues_ q)) q;
      rs ← NextRequests calls' r.2;
      Ok (option_list r.1 ++ rs.1, rs.2)
  end.

(** Going forward from the cursor [c], slot [i] comes before slot [j]. *)
Definition ahead (c i j : nat) : Prop :=
  (c <= i < j)%nat \/ (i < j < c)%nat \/ (j < c <= i)%nat.

(** *** The invariant *)

Lemma with_key_one (k : string) (m : TaggedMessage) :
  with_key k [m] = if decide (key_of m = k) then [m] else [].
Proof. unfold with_key. rewrite filter_cons, filter_nil. reflexivity. Qed.

Lemma wf_init : wf init.
Proof.
  split; simpl; try done.
  all: try (intros; simplify_map_eq; done).
  by right.
Qed.

(** The two paths of [Enqueue]: a key seen for the first time gets the
    next slot; a known key appends to its slot. *)
Lemma Enqueue_first_sight (tg : MessageKind) (d : string) (q : t) :
  key_map_ q !! ExtractKey tg d = None ->
  length (key_locks_ q) = length (request_queues_ q) ->
  Enqueue tg d q =
  Ok {| key_map_ := <[ExtractKey tg d := length (request_queues_ q)]> (key_map_ q);
        request_queues_ := request_queues_ q ++ [[mkTaggedMessage tg d]];
        key_locks_ := key_locks_ q ++ [Mutex];
        key_index_ := key_index_ q |}.
Proof.
  intros Hkey Hl. unfold Enqueue. rewrite Hkey. simpl.
  rewrite lookup_insert_eq. simpl. rewrite length_app. simpl.
  replace (length (request_queues_ q) + 1 - 1)%nat with (length (request_queues_ q)) by lia.
  unfold at_.
  rewrite (list_lookup_middle (request_queues_ q) [] [] _ eq_refl).
  rewrite (list_lookup_middle (key_locks_ q) [] Mutex _ (eq_sym Hl)). simpl.
  rewrite insert_app_r_alt by lia. by rewrite Nat.sub_diag.
Qed.

Lemma Enqueue_seen (tg : MessageKind) (d : string) (q : t)
    (i : nat) (kq : Queue) (lk : recursive_mutex) :
  key_map_ q !! ExtractKey tg d = Some i ->
  request_queues_ q !! i = Some kq ->
  key_locks_ q !! i = Some lk ->
  Enqueue tg d q =
  Ok {| key_map_ := key_map_ q;
        request_queues_ := <[i := kq ++ [mkTaggedMessage tg d]]> (request_queues_ q);
        key_locks_ := key_locks_ q;
        key_index_ := key_index_ q |}.
Proof.
  intros Hkey Hkq Hlk. unfold Enqueue, at_. rewrite Hkey. simpl.
  rewrite Hkey. simpl. rewrite Hkq, Hlk. done.
Qed.

(** An enqueue on a well-formed queue succeeds, appends the envelope to
    the FIFO of its key and touches nothing else. *)
Lemma Enqueue_wf (tg : MessageKind) (d : string) (q : t) :
  wf q ->
  exists q', Enqueue tg d q = Ok q' /\ wf q' /\
             key_index_ q' = key_index_ q /\
             (forall k i, key_map_ q !! k = Some i -> key_map_ q' !! k = Some i) /\
             (forall k, queue_of q' k = queue_of q k ++ with_key k [mkTaggedMessage tg d]).
Proof.
  intros [Hl Hs Hi Hk Hc]. unfold Enqueue.
  destruct (key_map_ q !! ExtractKey tg d) as [i|] eqn:Hkey; simpl.
  - rewrite Hkey. simpl.
    pose proof (Hs _ _ Hkey) as Hlt.
    destruct (lookup_lt_is_Some_2 (request_queues_ q) i Hlt) as [kq Hkq].
    destruct (lookup_lt_is_Some_2 (key_locks_ q) i) as [lk Hlk]; [lia|].
    unfold at_. rewrite Hkq, Hlk. simpl.
    eexists; split; [reflexivity|]. simpl.
    split; [split; simpl|].
    + by rewrite length_insert.
    + intros k i0 H. rewrite length_insert. eauto.
    + done.
    + intros i0 kq0 m H Hm. destruct (decide (i0 = i)) as [->|Hne].
      * rewrite list_lookup_insert_eq in H by done. simplify_eq.
        apply elem_of_app in Hm as [Hm|Hm]; [eauto|].
        apply list_elem_of_singleton in Hm. subst m. done.
      * rewrite list_lookup_insert_ne in H by done. eauto.
    + rewrite length_insert. left.
      destruct Hc as [Hc|[Hc _]]; [done|]. rewrite Hc in Hlt. simpl in Hlt. lia.
    + split; [done|]. split; [done|].
      intros k. unfold queue_of; simpl. rewrite with_key_one.
      destruct (key_map_ q !! k) as [j|] eqn:Hj.
      * destruct (decide (j = i)) as [->|Hne].
        -- rewrite list_lookup_insert_eq by done. rewrite Hkq. simpl.
           rewrite (Hi _ _ _ Hj Hkey). unfold key_of; simpl.
           by rewrite decide_True.
        -- rewrite list_lookup_insert_ne by done.
           rewrite decide_False; [by rewrite app_nil_r|].
           unfold key_of; simpl. intros <-. congruence.
      * rewrite decide_False; [done|].
        unfold key_of; simpl. intros <-. congruence.
  - rewrite lookup_insert_eq. simpl. rewrite length_app. simpl.
    replace (length (request_queues_ q) + 1 - 1)%nat with (length (request_queues_ q)) by lia.
    unfold at_.
    rewrite (list_lookup_middle (request_queues_ q) [] [] _ eq_refl).
    rewrite (list_lookup_middle (key_locks_ q) [] Mutex _ (eq_sym Hl)). simpl.
    eexists; split; [reflexivity|]. simpl.
    assert (Hins : <[length (request_queues_ q) := [mkTaggedMessage tg d]]> (request_queues_ q ++ [[]])
                   = request_queues_ q ++ [[mkTaggedMessage tg d]]).
    { rewrite insert_app_r_alt by lia. by rewrite Nat.sub_diag. }
    rewrite Hins. clear Hins.
    split; [split; simpl|].
    + rewrite !length_app. simpl. lia.
    + intros k i H. rewrite length_app. simpl.
      destruct (decide (k = ExtractKey tg d)) as [->|Hne].
      * rewrite lookup_insert_eq in H. simplify_eq. lia.
      * rewrite lookup_insert_ne in H by done. apply Hs in H. lia.
    + intros k1 k2 i H1 H2.
      destruct (decide (k1 = ExtractKey tg d)) as [->|Hne1];
        destruct (decide (k2 = ExtractKey tg d)) as [->|Hne2]; [done|..].
      * rewrite lookup_insert_eq in H1. rewrite lookup_insert_ne in H2 by done.
        simplify_eq. apply Hs in H2. lia.
      * rewrite lookup_insert_eq in H2. rewrite lookup_insert_ne in H1 by done.
        simplify_eq. apply Hs in H1. lia.
      * rewrite lookup_insert_ne in H1, H2 by done. eauto.
    + intros i kq m H Hm.
      destruct (decide (i < length (request_queues_ q))%nat) as [Hlt|Hge].
      * rewrite lookup_app_l in H by done.
        pose proof (Hk _ _ _ H Hm) as Hkm.
        rewrite lookup_insert_ne; [done|]. congruence.
      * rewrite lookup_app_r in H by lia.
        destruct (i - length (request_queues_ q))%nat as [|n] eqn:Hd; simpl in H; [|done].
        simplify_eq. apply list_elem_of_singleton in Hm. subst m.
        unfold key_of; simpl. rewrite lookup_insert_eq. f_equal. lia.
    + rewrite length_app. simpl. left.
      destruct Hc as [Hc|[_ Hc]]; lia.
    + split; [done|]. split.
      * intros k i H. rewrite lookup_insert_ne; [done|]. congruence.
      * intros k. unfold queue_of; simpl. rewrite with_key_one.
        destruct (decide (k = ExtractKey tg d)) as [->|Hne].
        -- rewrite lookup_insert_eq, Hkey.
           rewrite (list_lookup_middle (request_queues_ q) [] _ _ eq_refl). simpl.
           unfold key_of; simpl. by rewrite decide_True.
        -- rewrite lookup_insert_ne by done.
           rewrite decide_False by (unfold key_of; simpl; congruence).
           rewrite app_nil_r.
           destruct (key_map_ q !! k) as [j|] eqn:Hj; [|done].
           rewrite lookup_app_l; [done|]. eauto.
Qed.

Lemma visit_slot (q : t) (kq : Queue) (lk : recursive_mutex) :
  request_queues_ q !! key_index_ q = Some kq ->
  key_locks_ q !! key_index_ q = Some lk ->
  visit q =
  Ok match kq with
     | [] => (None,
              {| key_map_ := key_map_ q;
                 request_queues_ := request_queues_ q;
                 key_locks_ := key_locks_ q;
                 key_index_ := ((key_index_ q + 1) `mod` length (request_queues_ q))%nat |})
     | q_msg :: rest =>
             (Some q_msg,
              {| key_map_ := key_map_ q;
                 request_queues_ := <[key_index_ q := rest]> (request_queues_ q);
                 key_locks_ := key_locks_ q;
                 key_index_ := ((key_index_ q + 1) `mod` length (request_queues_ q))%nat |})
     end.
Proof.
  intros Hkq Hlk. unfold visit, at_. rewrite Hkq, Hlk. simpl.
  destruct (key_locks_ q); [done|].
  destruct kq; simpl; [done|]. by rewrite length_insert.
Qed.

(** A loop iteration on a well-formed queue succeeds; it takes at most the
    head of the FIFO under the cursor, and takes it when there is one. *)
Lemma visit_wf (q : t) :
  wf q ->
  exists r q', visit q = Ok (r, q') /\ wf q' /\
    key_map_ q' = key_map_ q /\
    key_index_ q' = match request_queues_ q with
                    | [] => key_index_ q
                    | _ => ((key_index_ q + 1) `mod` length (request_queues_ q))%nat
                    end /\
    (forall k, queue_of q k = with_key k (option_list r) ++ queue_of q' k) /\
    (forall m, r = Some m -> key_map_ q !! key_of m = Some (key_index_ q)) /\
    (forall k, key_map_ q !! k = Some (key_index_ q) -> queue_of q k <> [] -> is_Some r).
Proof.
  intros Hwf. pose proof Hwf as [Hl Hs Hi Hk Hc].
  destruct (decide (request_queues_ q = [])) as [Hq|Hq].
  { exists None, q. rewrite Hq in *.
    split. { unfold visit. rewrite Hq. destruct (key_locks_ q); done. }
    split; [exact Hwf|].
    repeat split; try done.
    intros k Hk0. apply Hs in Hk0. simpl in Hk0. lia. }
  destruct Hc as [Hc|[Hc _]]; [|congruence].
  destruct (lookup_lt_is_Some_2 (request_queues_ q) _ Hc) as [kq Hkq].
  destruct (lookup_lt_is_Some_2 (key_locks_ q) (key_index_ q)) as [lk Hlk]; [lia|].
  rewrite (visit_slot q kq lk Hkq Hlk).
  assert (Hmod : ((key_index_ q + 1) `mod` length (request_queues_ q) < length (request_queues_ q))%nat).
  { apply Nat.mod_upper_bound. lia. }
  destruct (request_queues_ q) as [|q0 qs] eqn:Hqq; [done|]. rewrite <- Hqq in *.
  destruct kq as [|m rest]; eexists _, _; (split; [reflexivity|]); simpl.
  - split; [split; simpl; eauto|].
    repeat split; try done.
    intros k Hk0. unfold queue_of. rewrite Hk0, Hkq. done.
  - split; [split; simpl; rewrite ?length_insert; eauto|].
    + intros i kq' m' H Hm'. destruct (decide (i = key_index_ q)) as [->|Hne].
      * rewrite list_lookup_insert_eq in H by done. simplify_eq.
        apply (Hk _ _ _ Hkq). by right.
      * rewrite list_lookup_insert_ne in H by done. eauto.
    + assert (Hm : key_map_ q !! key_of m = Some (key_index_ q)).
      { apply (Hk _ _ _ Hkq). by left. }
      repeat split; try done.
      * intros k. unfold queue_of; simpl. rewrite with_key_one.
        destruct (key_map_ q !! k) as [j|] eqn:Hj.
        -- destruct (decide (j = key_index_ q)) as [->|Hne].
           ++ rewrite list_lookup_insert_eq by done. rewrite Hkq. simpl.
              rewrite decide_True; [done|]. eauto.
           ++ rewrite list_lookup_insert_ne by done.
              rewrite decide_False; [done|]. congruence.
        -- rewrite decide_False; [done|]. congruence.
      * intros m' [= <-]. done.
Qed.

(** *** Schedules *)

(** Every schedule runs to completion, and the FIFO of a key accounts for
    what was enqueued and dequeued under that key. *)
Lemma run_wf (evs : list event) :
  forall q, wf q ->
  exists outs q', run evs q = Ok (outs, q') /\ wf q' /\
    (forall k i, key_map_ q !! k = Some i -> key_map_ q' !! k = Some i) /\
    (forall k, with_key k outs ++ queue_of q' k = queue_of q k ++ with_key k (enqueued evs)).
Proof.
  induction evs as [|[tg d|] evs IH]; intros q Hwf; simpl.
  - exists [], q. do 3 (split; [done|]).
    intros k. unfold with_key, enqueued. simpl. by rewrite filter_nil, app_nil_r.
  - destruct (Enqueue_wf tg d q Hwf) as (q1 & -> & Hwf1 & _ & Hmap & Hq1). simpl.
    destruct (IH q1 Hwf1) as (outs & q' & -> & Hwf' & Hmap' & Hq'). simpl.
    exists outs, q'. do 2 (split; [done|]). split; [eauto|].
    intros k. rewrite Hq', Hq1. unfold with_key, enqueued. simpl.
    by rewrite <- app_assoc, <- filter_app.
  - destruct (visit_wf q Hwf) as (r & q1 & -> & Hwf1 & Hmap & _ & Hq1 & _). simpl.
    destruct (IH q1 Hwf1) as (outs & q' & -> & Hwf' & Hmap' & Hq'). simpl.
    exists (option_list r ++ outs), q'. do 2 (split; [done|]). split.
    + intros k i H. apply Hmap'. by rewrite Hmap.
    + intros k. unfold with_key in *. rewrite filter_app, <- app_assoc.
      rewrite Hq', app_assoc, <- Hq1. done.
Qed.



(** *** Round robin *)

Lemma ahead_next (c i j n : nat) :
  (c < n)%nat -> (i < n)%nat -> (j < n)%nat -> c <> i ->
  ahead c i j -> ahead ((c + 1) `mod` n) i j.
Proof.
  intros Hc Hi Hj Hne H. unfold ahead in *.
  destruct (decide (c + 1 = n)%nat) as [E|E].
  - rewrite E, Nat.Div0.mod_same. lia.
  - rewrite Nat.mod_small by lia. lia.
Qed.

Lemma ahead_after (c i n : nat) :
  (c < n)%nat -> (i < n)%nat -> c <> i -> ahead ((c + 1) `mod` n) i c.
Proof.
  intros Hc Hi Hne. unfold ahead.
  destruct (decide (c + 1 = n)%nat) as [E|E].
  - rewrite E, Nat.Div0.mod_same. lia.
  - rewrite Nat.mod_small by lia. lia.
Qed.

Lemma ahead_irrefl (c i : nat) : ~ ahead c i c.
Proof. unfold ahead. lia. Qed.

(** While no envelope of key [j] is dequeued, a waiting slot [ij] that is
    ahead of slot [ik] stays ahead of it, and stays waiting. *)
Lemma ahead_preserved (mid : list event) :
  forall q1 outs q2 j k ij ik,
  wf q1 ->
  key_map_ q1 !! j = Some ij -> key_map_ q1 !! k = Some ik ->
  ahead (key_index_ q1) ij ik -> queue_of q1 j <> [] ->
  run mid q1 = Ok (outs, q2) ->
  (forall m, m ∈ outs -> key_of m <> j) ->
  wf q2 /\ key_map_ q2 !! j = Some ij /\ key_map_ q2 !! k = Some ik /\
  ahead (key_index_ q2) ij ik /\ queue_of q2 j <> [].
Proof.
  induction mid as [|[tg d|] mid IH]; intros q1 outs q2 j k ij ik Hwf Hj Hk Ha Hne Hrun Hno;
    simpl in Hrun.
  - simplify_eq. done.
  - destruct (Enqueue_wf tg d q1 Hwf) as (q1' & Heq & Hwf' & Hc & Hmap & Hq).
    rewrite Heq in Hrun. simpl in Hrun. inv_bind Hrun. destruct bnd as [o q]. simplify_eq.
    simpl in *. eapply (IH q1'); eauto.
    + by rewrite Hc.
    + rewrite Hq. intros E. apply app_eq_nil in E as [E _]. done.
  - destruct (visit_wf q1 Hwf) as (r & q1' & Heq & Hwf' & Hmap & Hc & Hq & Hfront & Hsome).
    rewrite Heq in Hrun. simpl in Hrun. inv_bind Hrun. destruct bnd as [o q]. simplify_eq.
    simpl in *.
    pose proof (wf_slot _ Hwf _ _ Hj) as Hij.
    pose proof (wf_slot _ Hwf _ _ Hk) as Hik.
    assert (Hr : with_key j (option_list r) = []).
    { destruct r as [m|]; simpl; [|done]. rewrite with_key_one.
      rewrite decide_False; [done|]. apply Hno. apply elem_of_app. left. by left. }
    destruct (decide (key_index_ q1 = ij)) as [E|E].
    { subst ij. destruct (Hsome _ Hj Hne) as [m ->].
      pose proof (Hfront m eq_refl) as Hm.
      exfalso. apply (Hno m); [by left|]. exact (wf_inj _ Hwf _ _ _ Hm Hj). }
    eapply (IH q1'); eauto.
    + by rewrite Hmap.
    + by rewrite Hmap.
    + rewrite Hc. destruct (request_queues_ q1) as [|q0 qs] eqn:Hqs; [simpl in Hij; lia|].
      rewrite <- Hqs in *. apply ahead_next; try done.
      destruct (wf_cursor _ Hwf) as [?|[? _]]; [done|congruence].
    + specialize (Hq j). rewrite Hr in Hq. simpl in Hq. by rewrite <- Hq.
    + intros m Hm. apply Hno. apply elem_of_app. by right.
Qed.

(** *** Progress *)

(** A call whose fuel exceeds the distance from the cursor to a waiting
    slot returns an envelope. *)
Lemma NextRequest_reaches (d : nat) :
  forall fuel q i kq m,
  wf q -> (d < fuel)%nat ->
  ((key_index_ q + d) `mod` length (request_queues_ q))%nat = i ->
  request_queues_ q !! i = Some (m :: kq) ->
  exists m' q', NextRequest fuel q = Ok (Some m', q').
Proof.
  induction d as [|d IH]; intros fuel q i kq m Hwf Hfuel Hi Hq;
    (destruct fuel as [|fuel]; [lia|]); simpl.
  - pose proof (lookup_lt_Some _ _ _ Hq) as Hlt.
    destruct (wf_cursor _ Hwf) as [Hc|[Hc _]]; [|rewrite Hc in Hlt; simpl in Hlt; lia].
    rewrite Nat.add_0_r, Nat.mod_small in Hi by done. subst i.
    destruct (lookup_lt_is_Some_2 (key_locks_ q) (key_index_ q)) as [lk Hlk].
    { rewrite (wf_locks _ Hwf). done. }
    rewrite (visit_slot q _ lk Hq Hlk). simpl. eauto.
  - pose proof (lookup_lt_Some _ _ _ Hq) as Hlt.
    destruct (wf_cursor _ Hwf) as [Hc|[Hc _]]; [|rewrite Hc in Hlt; simpl in Hlt; lia].
    destruct (lookup_lt_is_Some_2 (request_queues_ q) _ Hc) as [cq Hcq].
    destruct (lookup_lt_is_Some_2 (key_locks_ q) (key_index_ q)) as [lk Hlk].
    { rewrite (wf_locks _ Hwf). done. }
    destruct (visit_wf q Hwf) as (r & q1 & Hv & Hwf1 & _).
    rewrite (visit_slot q cq lk Hcq Hlk) in Hv |- *. simpl.
    destruct cq as [|m0 rest]; simpl; [|eauto].
    simplify_eq. eapply (IH fuel _ _ kq m); [done|lia|reflexivity|]. simpl.
    rewrite Nat.Div0.add_mod_idemp_l.
    replace (key_index_ q + 1 + d)%nat with (key_index_ q + S d)%nat by lia. done.
Qed.

(** One pass over the slots is enough: a call with as much fuel as there
    are slots returns an envelope as soon as any key has one waiting. *)
Lemma NextRequest_progress (q : t) (k : string) :
  wf q -> queue_of q k <> [] ->
  exists m q', NextRequest (length (request_queues_ q)) q = Ok (Some m, q').
Proof.
  intros Hwf Hk. unfold queue_of in Hk.
  destruct (key_map_ q !! k) as [i|] eqn:Hi; [|done].
  destruct (request_queues_ q !! i) as [[|m kq]|] eqn:Hq; simpl in Hk; try done.
  pose proof (lookup_lt_Some _ _ _ Hq) as Hlt.
  set (n := length (request_queues_ q)) in *.
  destruct (wf_cursor _ Hwf) as [Hc|[Hc _]]; [|subst n; rewrite Hc in Hlt; simpl in Hlt; lia].
  fold n in Hc.
  apply (NextRequest_reaches ((i + n - key_index_ q) `mod` n) n q i kq m); try done.
  - apply Nat.mod_upper_bound. lia.
  - fold n. rewrite Nat.Div0.add_mod_idemp_r.
    replace (key_index_ q + (i + n - key_index_ q))%nat with (i + 1 * n)%nat by lia.
    rewrite Nat.Div0.mod_add. by apply Nat.mod_small.
Qed.

(** *** Draining the queue *)

Lemma sum_lengths_insert {A} (l : list (list A)) (i : nat) (x y : list A) :
  l !! i = Some x ->
  (sum_list (length <$> <[i := y]> l) + length x =
   sum_list (length <$> l) + length y)%nat.
Proof.
  revert i. induction l as [|z l IH]; intros [|i] Hi; simpl in Hi; try done.
  - simplify_eq. simpl. lia.
  - specialize (IH i Hi). simpl. change (list_fmap (list A) nat length) with (fmap (M:=list) (@length A)).
    lia.
Qed.

Lemma visit_pending (q q' : t) (r : option TaggedMessage) :
  wf q -> visit q = Ok (r, q') ->
  pending q = (length (option_list r) + pending q')%nat.
Proof.
  intros Hwf Hv. destruct (decide (request_queues_ q = [])) as [Hq|Hq].
  { pose proof (wf_locks _ Hwf) as Hl. rewrite Hq in Hl.
    unfold visit in Hv. rewrite Hq in Hv.
    destruct (key_locks_ q); [|done]. by simplify_eq. }
  destruct (wf_cursor _ Hwf) as [Hc|[Hc _]]; [|done].
  destruct (lookup_lt_is_Some_2 (request_queues_ q) _ Hc) as [kq Hkq].
  destruct (lookup_lt_is_Some_2 (key_locks_ q) (key_index_ q)) as [lk Hlk].
  { by rewrite (wf_locks _ Hwf). }
  rewrite (visit_slot q kq lk Hkq Hlk) in Hv.
  destruct kq as [|m rest]; simplify_eq; unfold pending; simpl; [done|].
  pose proof (sum_lengths_insert (request_queues_ q) (key_index_ q) (m :: rest) rest Hkq) as Hs.
  simpl in Hs. lia.
Qed.

(** A call keeps the queue well formed and returns at most the head of
    one FIFO. *)
Lemma NextRequest_wf (fuel : nat) :
  forall q r q', wf q -> NextRequest fuel q = Ok (r, q') ->
  wf q' /\ pending q = (length (option_list r) + pending q')%nat /\
  forall k, queue_of q k = with_key k (option_list r) ++ queue_of q' k.
Proof.
  induction fuel as [|fuel IH]; intros q r q' Hwf Hn; simpl in Hn.
  - by simplify_eq.
  - inv_bind Hn.
    destruct (visit_wf q Hwf) as (r0 & q0 & Hv & Hwf1 & _ & _ & Hq & _).
    rewrite Hv in Hbnd. injection Hbnd as <-. simpl in Hn.
    pose proof (visit_pending _ _ _ Hwf Hv) as Hp.
    destruct r0 as [m|]; simpl in Hn.
    + by simplify_eq.
    + destruct (IH _ _ _ Hwf1 Hn) as (Hwf' & Hp' & Hq').
      split; [done|]. split; [simpl in Hp; lia|].
      intros k. rewrite (Hq k). simpl. by rewrite <- Hq'.
Qed.

Lemma sum_lengths_pos {A} (l : list (list A)) :
  (0 < sum_list (length <$> l))%nat -> exists i m kq, l !! i = Some (m :: kq).
Proof.
  induction l as [|x l IH]; simpl; intros Hp; [lia|].
  destruct x as [|m kq].
  - destruct IH as (i & m & kq & Hi); [exact Hp|]. by exists (S i), m, kq.
  - by exists 0%nat, m, kq.
Qed.

Lemma sum_lengths_zero {A} (l : list (list A)) (i : nat) (x : list A) :
  sum_list (length <$> l) = 0%nat -> l !! i = Some x -> x = [].
Proof.
  revert i. induction l as [|z l IH]; simpl; intros [|i] Hp Hi; simpl in *; try done.
  - simplify_eq. destruct x; [done|simpl in Hp; lia].
  - apply Nat.eq_add_0 in Hp as [_ Hp]. by apply (IH i).
Qed.

Lemma pending_waiting (q : t) :
  wf q -> (0 < pending q)%nat -> exists k, queue_of q k <> [].
Proof.
  intros Hwf Hp. destruct (sum_lengths_pos _ Hp) as (i & m & kq & Hi).
  exists (key_of m). unfold queue_of.
  rewrite (wf_keys _ Hwf i _ m Hi) by (by left). by rewrite Hi.
Qed.

Lemma pending_none (q : t) (k : string) : pending q = 0%nat -> queue_of q k = [].
Proof.
  intros Hp. unfold queue_of. destruct (key_map_ q !! k) as [i|]; [|done].
  destruct (request_queues_ q !! i) as [kq|] eqn:Hi; [|done]. simpl.
  exact (sum_lengths_zero _ _ _ Hp Hi).
Qed.

(** As many calls as envelopes are waiting return them all: for every key,
    in the order of its FIFO. *)
Lemma NextRequests_drain (n : nat) :
  forall q, wf q -> pending q = n ->
  exists outs q',
    NextRequests n q = Ok (outs, q') /\ wf q' /\ pending q' = 0%nat /\
    length outs = n /\ forall k, with_key k outs = queue_of q k.
Proof.
  induction n as [|n IH]; intros q Hwf Hp; simpl.
  - exists [], q. do 3 (split; [done|]). split; [done|].
    intros k. by rewrite pending_none.
  - destruct (pending_waiting q Hwf ltac:(lia)) as [k0 Hk0].
    destruct (NextRequest_progress q k0 Hwf Hk0) as (m & q1 & Hn). rewrite Hn. simpl.
    destruct (NextRequest_wf _ _ _ _ Hwf Hn) as (Hwf1 & Hp1 & Hq1). simpl in Hp1.
    destruct (IH q1 Hwf1 ltac:(lia)) as (outs & q' & -> & Hwf' & Hp' & Hlen & Hq').
    simpl. exists (m :: outs), q'. do 3 (split; [done|]). split; [simpl; lia|].
    intros k. rewrite (Hq1 k). simpl. rewrite <- Hq'.
    change (m :: outs) with ([m] ++ outs). unfold with_key. by rewrite filter_app.
Qed.

(** *** The scenario of two keys *)

Lemma round_robin_two_keys (a1 a2 b1 : string) (f1 f2 f3 : nat) :
  ExtractKey MTYPE_PUT_REQUEST a1 = "a"%string ->
  ExtractKey MTYPE_PUT_REQUEST a2 = "a"%string ->
  ExtractKey MTYPE_PUT_REQUEST b1 = "b"%string ->
  exists q3 q4 q5 q6,
    (q1 ← Enqueue MTYPE_PUT_REQUEST a1 init;
     q2 ← Enqueue MTYPE_PUT_REQUEST a2 q1;
     Enqueue MTYPE_PUT_REQUEST b1 q2) = Ok q3 /\
    NextRequest (S f1) q3 = Ok (Some (mkTaggedMessage MTYPE_PUT_REQUEST a1), q4) /\
    NextRequest (S f2) q4 = Ok (Some (mkTaggedMessage MTYPE_PUT_REQUEST b1), q5) /\
    NextRequest (S f3) q5 = Ok (Some (mkTaggedMessage MTYPE_PUT_REQUEST a2), q6).
Proof.
  intros Ha1 Ha2 Hb1.
  rewrite (Enqueue_first_sight _ a1 init) by (rewrite ?Ha1; done).
  rewrite Ha1. simpl.
  rewrite (Enqueue_seen _ a2 _ 0%nat [mkTaggedMessage MTYPE_PUT_REQUEST a1] Mutex)
    by (rewrite ?Ha2; done).
  simpl.
  rewrite Enqueue_first_sight; [|rewrite Hb1; reflexivity|done].
  rewrite Hb1. simpl.
  do 4 eexists. split; [vm_compute; reflexivity|].
  do 2 (split; [vm_compute; reflexivity|]).
  vm_compute; reflexivity.
Qed.

(** *** Fairness between two dequeues of a key *)

Lemma round_robin_between (mid : list event) (q0 q1 q2 q3 : t)
    (outs : list TaggedMessage) (m1 m2 : TaggedMessage) (j : string) :
  wf q0 ->
  visit q0 = Ok (Some m1, q1) ->
  run mid q1 = Ok (outs, q2) ->
  visit q2 = Ok (Some m2, q3) ->
  key_of m2 = key_of m1 ->
  j <> key_of m1 ->
  queue_of q0 j <> [] ->
  exists m, m ∈ outs /\ key_of m = j.
Proof.
  intros Hwf Hv1 Hrun Hv2 Hsame Hj Hwait.
  destruct (Forall_Exists_dec (fun m => key_of m <> j) (fun m => key_of m = j)) with (l := outs)
    as [Hall|Hex].
  { intros m. destruct (decide (key_of m = j)); [by right|by left]. }
  2: { apply Exists_exists in Hex. done. }
  exfalso. rewrite Forall_forall in Hall.
  destruct (visit_wf q0 Hwf) as (r & q1' & Heq & Hwf1 & Hmap & Hc & Hq & Hfront & _).
  rewrite Hv1 in Heq. simplify_eq.
  pose proof (Hfront m1 eq_refl) as Hk.
  assert (exists ij, key_map_ q0 !! j = Some ij) as [ij Hij].
  { unfold queue_of in Hwait. destruct (key_map_ q0 !! j); [eauto|done]. }
  assert (Hne : key_index_ q0 <> ij).
  { intros <-. apply Hj. exact (wf_inj _ Hwf _ _ _ Hij Hk). }
  pose proof (wf_slot _ Hwf _ _ Hij) as Hlt.
  destruct (wf_cursor _ Hwf) as [Hcur|[Hcur _]]; [|rewrite Hcur in Hlt; simpl in Hlt; lia].
  destruct (request_queues_ q0) as [|x xs] eqn:Hqs; [simpl in Hlt; lia|].
  rewrite <- Hqs in *.
  destruct (ahead_preserved mid q1' outs q2 j (key_of m1) ij (key_index_ q0))
    as (Hwf2 & Hij2 & Hk2 & Ha & _); try done.
  - by rewrite Hmap.
  - by rewrite Hmap.
  - rewrite Hc. by apply ahead_after.
  - specialize (Hq j). simpl in Hq. rewrite with_key_one in Hq.
    rewrite decide_False in Hq by done. simpl in Hq. by rewrite <- Hq.
  - destruct (visit_wf q2 Hwf2) as (r & q3' & Heq & _ & _ & _ & _ & Hfront2 & _).
    rewrite Hv2 in Heq. simplify_eq.
    pose proof (Hfront2 m2 eq_refl) as Hk3. rewrite Hsame, Hk2 in Hk3.
    injection Hk3 as Hk3. rewrite <- Hk3 in Ha. by apply ahead_irrefl in Ha.
Qed.

(** C4. Sync round-robin.  After a PUT for key "a", a second PUT for key
    "a" and a PUT for key "b" are enqueued, three calls of [NextRequest]
    return the first "a", then "b", then the second "a".  In general, take
    any schedule of enqueues and loop iterations: between two dequeues of
    a key (successive or not), there is a dequeue for every other key
    whose FIFO holds an envelope when the first of the two is taken. *)
Theorem sync_round_robin :
  (forall (a1 a2 b1 : string) (f1 f2 f3 : nat),
     ExtractKey MTYPE_PUT_REQUEST a1 = "a"%string ->
     ExtractKey MTYPE_PUT_REQUEST a2 = "a"%string ->
     ExtractKey MTYPE_PUT_REQUEST b1 = "b"%string ->
     exists q3 q4 q5 q6,
       (q1 ← Enqueue MTYPE_PUT_REQUEST a1 init;
        q2 ← Enqueue MTYPE_PUT_REQUEST a2 q1;
        Enqueue MTYPE_PUT_REQUEST b1 q2) = Ok q3 /\
       NextRequest (S f1) q3 = Ok (Some (mkTaggedMessage MTYPE_PUT_REQUEST a1), q4) /\
       NextRequest (S f2) q4 = Ok (Some (mkTaggedMessage MTYPE_PUT_REQUEST b1), q5) /\
       NextRequest (S f3) q5 = Ok (Some (mkTaggedMessage MTYPE_PUT_REQUEST a2), q6)) /\
  (forall (pre mid : list event) (q0 q1 q2 q3 : t)
          (outs0 outs : list TaggedMessage) (m1 m2 : TaggedMessage) (j : string),
     run pre init = Ok (outs0, q0) ->
     visit q0 = Ok (Some m1, q1) ->
     run mid q1 = Ok (outs, q2) ->
     visit q2 = Ok (Some m2, q3) ->
     key_of m2 = key_of m1 ->
     j <> key_of m1 ->
     queue_of q0 j <> [] ->
     exists m, m ∈ outs /\ key_of m = j).
Proof.
  split.
  - apply round_robin_two_keys.
  - intros pre mid q0 q1 q2 q3 outs0 outs m1 m2 j Hpre.
    destruct (run_wf pre init wf_init) as (o & q & Heq & Hwf & _).
    rewrite Hpre in Heq. simplify_eq. by apply round_robin_between.
Qed.

(** C5. Sync FIFO per key.  Every schedule of enqueues and loop iterations
    runs to completion, and for every key the envelopes dequeued under
    that key, followed by those still waiting in its FIFO, are exactly the
    envelopes enqueued under it, in the order of their enqueues: what
    [NextRequest] returns for a key is a prefix of what was enqueued.  As
    many further calls of [NextRequest] as envelopes are waiting return
    the rest, so that all the envelopes of the key come out, in the order
    they were enqueued. *)
Theorem sync_fifo_per_key (evs : list event) (k : string) :
  exists outs q',
    run evs init = Ok (outs, q') /\
    with_key k outs ++ queue_of q' k = with_key k (enqueued evs) /\
    with_key k outs `prefix_of` with_key k (enqueued evs) /\
    exists rest q'',
      NextRequests (pending q') q' = Ok (rest, q'') /\
      with_key k (outs ++ rest) = with_key k (enqueued evs).
Proof.
  destruct (run_wf evs init wf_init) as (outs & q' & Hrun & Hwf & _ & Hq).
  exists outs, q'. split; [done|].
  specialize (Hq k). unfold queue_of at 2 in Hq. simpl in Hq.
  split; [done|]. split; [by exists (queue_of q' k)|].
  destruct (NextRequests_drain (pending q') q' Hwf eq_refl)
    as (rest & q'' & Hn & _ & _ & _ & Hrest).
  exists rest, q''. split; [done|].
  unfold with_key in *. by rewrite filter_app, Hrest.
Qed.

(** *** Slots and keys *)

Lemma visit_shape (q q' : t) (r : option TaggedMessage) :
  wf q -> visit q = Ok (r, q') ->
  key_map_ q' = key_map_ q /\ key_locks_ q' = key_locks_ q /\
  length (request_queues_ q') = length (request_queues_ q).
Proof.
  intros Hwf Hv. destruct (decide (request_queues_ q = [])) as [Hq|Hq].
  { pose proof (wf_locks _ Hwf) as Hl. rewrite Hq in Hl.
    unfold visit in Hv. rewrite Hq in Hv.
    destruct (key_locks_ q) eqn:El; [|done]. by simplify_eq. }
  destruct (wf_cursor _ Hwf) as [Hc|[Hc _]]; [|done].
  destruct (lookup_lt_is_Some_2 (request_queues_ q) _ Hc) as [kq Hkq].
  destruct (lookup_lt_is_Some_2 (key_locks_ q) (key_index_ q)) as [lk Hlk].
  { by rewrite (wf_locks _ Hwf). }
  rewrite (visit_slot q kq lk Hkq Hlk) in Hv.
  destruct kq as [|m rest]; simplify_eq; simpl; [done|].
  by rewrite length_insert.
Qed.

Lemma Enqueue_shape (tg : MessageKind) (d : string) (q q' : t) :
  wf q -> Enqueue tg d q = Ok q' ->
  match key_map_ q !! ExtractKey tg d with
  | Some _ =>
      key_map_ q' = key_map_ q /\
      length (request_queues_ q') = length (request_queues_ q)
  | None =>
      key_map_ q' = <[ExtractKey tg d := length (request_queues_ q)]> (key_map_ q) /\
      length (request_queues_ q') = S (length (request_queues_ q))
  end.
Proof.
  intros Hwf He. destruct (key_map_ q !! ExtractKey tg d) as [i|] eqn:Hkey.
  - pose proof (wf_slot _ Hwf _ _ Hkey) as Hlt.
    destruct (lookup_lt_is_Some_2 (request_queues_ q) i Hlt) as [kq Hkq].
    destruct (lookup_lt_is_Some_2 (key_locks_ q) i) as [lk Hlk].
    { by rewrite (wf_locks _ Hwf). }
    rewrite (Enqueue_seen tg d q i kq lk Hkey Hkq Hlk) in He.
    simplify_eq. simpl. by rewrite length_insert.
  - rewrite (Enqueue_first_sight tg d q Hkey (wf_locks _ Hwf)) in He.
    simplify_eq. simpl. rewrite length_app. simpl. split; [done|lia].
Qed.

(** Along a schedule the key map only grows, by the keys of the envelopes
    enqueued, and there is one slot per key. *)
Lemma run_slots (evs : list event) :
  forall q o q', wf q ->
  size (key_map_ q) = length (request_queues_ q) ->
  run evs q = Ok (o, q') ->
  dom (key_map_ q') = dom (key_map_ q) ∪ list_to_set (key_of <$> enqueued evs) /\
  size (key_map_ q') = length (request_queues_ q').
Proof.
  induction evs as [|[tg d|] evs IH]; intros q o q' Hwf Hsize Hrun; simpl in Hrun.
  - simplify_eq. split; [|done]. unfold enqueued. simpl. set_solver.
  - inv_bind Hrun. inv_bind Hrun. destruct bnd0 as [o1 q1]. simpl in Hrun.
    injection Hrun as -> ->.
    destruct (Enqueue_wf tg d q Hwf) as (q1 & Heq & Hwf1 & _).
    rewrite Hbnd in Heq. injection Heq as <-.
    pose proof (Enqueue_shape tg d q bnd Hwf Hbnd) as Hs.
    assert (Hdom : dom (key_map_ bnd) = dom (key_map_ q) ∪ {[ExtractKey tg d]} /\
                   size (key_map_ bnd) = length (request_queues_ bnd)).
    { destruct (key_map_ q !! ExtractKey tg d) as [i|] eqn:Hkey.
      - destruct Hs as [-> ->]. split; [|done].
        assert (ExtractKey tg d ∈ dom (key_map_ q)) by (apply elem_of_dom; eauto).
        set_solver.
      - destruct Hs as [-> ->]. rewrite dom_insert_L.
        rewrite map_size_insert_None by done. split; [set_solver|lia]. }
    destruct Hdom as [Hdom Hsize1].
    destruct (IH bnd o q' Hwf1 Hsize1 Hbnd0) as [Hd Hs'].
    split; [|done]. rewrite Hd, Hdom. unfold enqueued, key_of. simpl. set_solver.
  - inv_bind Hrun. destruct bnd as [r q1]. inv_bind Hrun. destruct bnd as [o1 q2].
    simpl in *. injection Hrun as <- ->.
    destruct (visit_wf q Hwf) as (r0 & q0 & Heq & Hwf1 & _).
    rewrite Hbnd in Heq. injection Heq as <- <-.
    destruct (visit_shape q q1 r Hwf Hbnd) as (Hmap & _ & Hlen).
    destruct (IH q1 o1 q' Hwf1 ltac:(by rewrite Hmap, Hlen) Hbnd0) as [Hd Hs'].
    split; [|done]. by rewrite Hd, Hmap.
Qed.

(** X1.  Slot stability.  Once the queue has given a key its slot, no
    schedule of enqueues and loop iterations changes it. *)
Theorem sync_slot_stable (pre evs : list event) (o o' : list TaggedMessage)
    (q q' : t) (k : string) (i : nat) :
  run pre init = Ok (o, q) ->
  key_map_ q !! k = Some i ->
  run evs q = Ok (o', q') ->
  key_map_ q' !! k = Some i /\ (i < length (request_queues_ q'))%nat.
Proof.
  intros Hpre Hk Hrun.
  destruct (run_wf pre init wf_init) as (o1 & q1 & Heq & Hwf & _).
  rewrite Hpre in Heq. injection Heq as <- <-.
  destruct (run_wf evs q Hwf) as (o2 & q2 & Heq & Hwf' & Hmap & _).
  rewrite Hrun in Heq. injection Heq as <- <-.
  split; [by apply Hmap|]. eapply wf_slot; eauto.
Qed.

(** X2.  One slot per key.  After any schedule the keys that have a slot
    are exactly the keys of the envelopes enqueued so far, and there are
    as many slots (queues, and locks) as such keys. *)
Theorem sync_slots_are_keys (evs : list event) (o : list TaggedMessage) (q : t) :
  run evs init = Ok (o, q) ->
  dom (key_map_ q) = list_to_set (key_of <$> enqueued evs) /\
  length (request_queues_ q) = size (dom (key_map_ q)) /\
  length (key_locks_ q) = size (dom (key_map_ q)).
Proof.
  intros Hrun.
  destruct (run_slots evs init o q wf_init eq_refl Hrun) as [Hd Hs].
  destruct (run_wf evs init wf_init) as (o1 & q1 & Heq & Hwf & _).
  rewrite Hrun in Heq. injection Heq as <- <-.
  split; [rewrite Hd; simpl; set_solver|].
  rewrite size_dom. split; [done|]. by rewrite (wf_locks _ Hwf).
Qed.

(** *** Which envelope a call returns *)

Lemma NextRequest_first (d : nat) :
  forall fuel q m rest,
  wf q -> (d < fuel)%nat ->
  (forall j, (j < d)%nat ->
     request_queues_ q !! ((key_index_ q + j) `mod` length (request_queues_ q))%nat = Some []) ->
  request_queues_ q !! ((key_index_ q + d) `mod` length (request_queues_ q))%nat
    = Some (m :: rest) ->
  NextRequest fuel q =
  Ok (Some m,
      {| key_map_ := key_map_ q;
         request_queues_ :=
           <[((key_index_ q + d) `mod` length (request_queues_ q))%nat := rest]>
             (request_queues_ q);
         key_locks_ := key_locks_ q;
         key_index_ := ((key_index_ q + d + 1) `mod` length (request_queues_ q))%nat |}).
Proof.
  induction d as [|d IH]; intros fuel q m rest Hwf Hfuel Hempty Hq;
    (destruct fuel as [|fuel]; [lia|]); simpl.
  - pose proof (lookup_lt_Some _ _ _ Hq) as Hlt.
    destruct (wf_cursor _ Hwf) as [Hc|[Hc _]]; [|rewrite Hc in Hlt; simpl in Hlt; lia].
    rewrite Nat.add_0_r in *. rewrite Nat.mod_small in Hq |- * by done.
    destruct (lookup_lt_is_Some_2 (key_locks_ q) (key_index_ q)) as [lk Hlk].
    { by rewrite (wf_locks _ Hwf). }
    rewrite (visit_slot q _ lk Hq Hlk). done.
  - pose proof (lookup_lt_Some _ _ _ Hq) as Hlt.
    destruct (wf_cursor _ Hwf) as [Hc|[Hc _]]; [|rewrite Hc in Hlt; simpl in Hlt; lia].
    destruct (lookup_lt_is_Some_2 (key_locks_ q) (key_index_ q)) as [lk Hlk].
    { by rewrite (wf_locks _ Hwf). }
    pose proof (Hempty 0%nat ltac:(lia)) as H0.
    rewrite Nat.add_0_r, Nat.mod_small in H0 by done.
    destruct (visit_wf q Hwf) as (r & q1 & Hv & Hwf1 & _).
    rewrite (visit_slot q [] lk H0 Hlk) in Hv |- *. injection Hv as <- <-. simpl.
    rewrite (IH fuel _ m rest Hwf1 ltac:(lia)); simpl.
    + rewrite !Nat.Div0.add_mod_idemp_l.
      replace (key_index_ q + 1 + d)%nat with (key_index_ q + S d)%nat by lia.
      rewrite <- (Nat.add_assoc _ d 1), Nat.Div0.add_mod_idemp_l.
      replace (key_index_ q + 1 + (d + 1))%nat with (key_index_ q + S d + 1)%nat by lia.
      done.
    + intros j Hj. rewrite Nat.Div0.add_mod_idemp_l.
      replace (key_index_ q + 1 + j)%nat with (key_index_ q + S j)%nat by lia.
      apply Hempty. lia.
    + rewrite Nat.Div0.add_mod_idemp_l.
      by replace (key_index_ q + 1 + d)%nat with (key_index_ q + S d)%nat by lia.
Qed.

(** X3.  The scan of [NextRequest].  In a state the queue reaches, let the
    slot [d] places after the cursor (cyclically) be the first one with an
    envelope waiting.  A call with more fuel than [d] returns the head of
    that slot, removes it from that FIFO only, and leaves the cursor on
    the slot after it. *)
Theorem sync_next_is_first_waiting (pre : list event) (o : list TaggedMessage) (q : t)
    (fuel d : nat) (m : TaggedMessage) (rest : Queue) :
  run pre init = Ok (o, q) ->
  (d < fuel)%nat ->
  (forall j, (j < d)%nat ->
     request_queues_ q !! ((key_index_ q + j) `mod` length (request_queues_ q))%nat = Some []) ->
  request_queues_ q !! ((key_index_ q + d) `mod` length (request_queues_ q))%nat
    = Some (m :: rest) ->
  NextRequest fuel q =
  Ok (Some m,
      {| key_map_ := key_map_ q;
         request_queues_ :=
           <[((key_index_ q + d) `mod` length (request_queues_ q))%nat := rest]>
             (request_queues_ q);
         key_locks_ := key_locks_ q;
         key_index_ := ((key_index_ q + d + 1) `mod` length (request_queues_ q))%nat |}).
Proof.
  intros Hpre. destruct (run_wf pre init wf_init) as (o1 & q1 & Heq & Hwf & _).
  rewrite Hpre in Heq. injection Heq as <- <-. by apply NextRequest_first.
Qed.


Lemma NextRequest_spin (fuel : nat) :
  forall q, wf q ->
  (forall i kq, request_queues_ q !! i = Some kq -> kq = []) ->
  NextRequest fuel q =
  Ok (None,
      {| key_map_ := key_map_ q;
         request_queues_ := request_queues_ q;
         key_locks_ := key_locks_ q;
         key_index_ := match request_queues_ q with
                       | [] => key_index_ q
                       | _ => ((key_index_ q + fuel) `mod` length (request_queues_ q))%nat
                       end |}).
Proof.
  induction fuel as [|fuel IH]; intros q Hwf Hall; simpl.
  - destruct (wf_cursor _ Hwf) as [Hc|[Hc _]].
    + rewrite Nat.add_0_r, Nat.mod_small by done.
      destruct q as [km qs ls c]; simpl in *. by destruct qs.
    + rewrite Hc. destruct q as [km qs ls c]; simpl in *. by subst.
  - destruct (decide (request_queues_ q = [])) as [Hq|Hq].
    { pose proof (wf_locks _ Hwf) as Hl. rewrite Hq in Hl.
      unfold visit. rewrite Hq. destruct (key_locks_ q) eqn:El; [|done]. simpl.
      rewrite (IH q Hwf Hall). by rewrite Hq, El. }
    destruct (wf_cursor _ Hwf) as [Hc|[Hc _]]; [|done].
    destruct (lookup_lt_is_Some_2 (request_queues_ q) _ Hc) as [kq Hkq].
    destruct (lookup_lt_is_Some_2 (key_locks_ q) (key_index_ q)) as [lk Hlk].
    { by rewrite (wf_locks _ Hwf). }
    pose proof (Hall _ _ Hkq) as ->.
    destruct (visit_wf q Hwf) as (r & q1 & Hv & Hwf1 & _).
    rewrite (visit_slot q [] lk Hkq Hlk) in Hv |- *. injection Hv as <- <-. simpl.
    rewrite (IH _ Hwf1 Hall). simpl.
    destruct (request_queues_ q) as [|x xs] eqn:E; [done|]. rewrite <- E.
    rewrite Nat.Div0.add_mod_idemp_l.
    by replace (key_index_ q + 1 + fuel)%nat with (key_index_ q + S fuel)%nat by lia.
Qed.

(** X4.  Nothing to return.  In a state the queue reaches with every FIFO
    empty, a call of [NextRequest] finds nothing however long it scans:
    it only moves the cursor, and after one full pass over the slots the
    queue is exactly as it was, so the loop of the source turns until an
    enqueue arrives. *)
Theorem sync_next_spins_when_empty (pre : list event) (o : list TaggedMessage) (q : t)
    (fuel : nat) :
  run pre init = Ok (o, q) ->
  (forall i kq, request_queues_ q !! i = Some kq -> kq = []) ->
  (exists q', NextRequest fuel q = Ok (None, q') /\
              key_map_ q' = key_map_ q /\ request_queues_ q' = request_queues_ q /\
              key_locks_ q' = key_locks_ q) /\
  NextRequest (length (request_queues_ q)) q = Ok (None, q).
Proof.
  intros Hpre Hall. destruct (run_wf pre init wf_init) as (o1 & q1 & Heq & Hwf & _).
  rewrite Hpre in Heq. injection Heq as <- <-.
  split; [rewrite (NextRequest_spin fuel q Hwf Hall); eauto|].
  rewrite (NextRequest_spin _ q Hwf Hall). do 2 f_equal.
  destruct (wf_cursor _ Hwf) as [Hc|[Hc _]].
  - replace (key_index_ q + length (request_queues_ q))%nat
      with (key_index_ q + 1 * length (request_queues_ q))%nat by lia.
    rewrite Nat.Div0.mod_add, Nat.mod_small by done.
    destruct q as [km qs ls c]; simpl in *. by destruct qs.
  - rewrite Hc. destruct q as [km qs ls c]; simpl in *. by subst.
Qed.

End Queue.

End SyncRequestQueue.

(** ** The asynchronous request queue *)

Module AsyncRequestQueue.

Section Queue.

Variables HashGet TableData : Type.
Variable HashGet_ParseFromArray : string -> HashGet * bool.
Variable HashGet_key : HashGet -> string.
Variable TableData_ParseFromArray : string -> TableData * bool.
Variable TableData_key : TableData -> string.

Local Abbreviation ExtractKey :=
  (ExtractKey HashGet TableData HashGet_ParseFromArray HashGet_key
     TableData_ParseFromArray TableData_key).

(** [class AsyncRequestQueue]: per slot a PUT lane, a GET lane, a lock, the
    count of envelopes taken from the current lane, the current lane (non
    zero: the PUT lane) and the first-update flag. *)
Record t := mk {
  num_mem_servers_ : Z;
  key_map_ : gmap string nat;
  put_queues_ : list Queue;
  get_queues_ : list Queue;
  key_locks_ : list recursive_mutex;
  access_counters_ : list Z;
  is_in_put_queue_ : list Z;
  is_first_update_ : list bool;
  key_index_ : nat
}.

(** Modelled from the spec: the constructor is in [core/rpc.h], which is
    not among the sources.  A queue as constructed for [N] memory servers
    has no key and no slot, and its cursor is on slot 0. *)
Definition init (N : Z) : t :=
  {| num_mem_servers_ := N; key_map_ := ∅;
     put_queues_ := []; get_queues_ := []; key_locks_ := [];
     access_counters_ := []; is_in_put_queue_ := []; is_first_update_ := [];
     key_index_ := 0 |}.

(** [CHECK_LT(queue.size(), num_mem_servers_) << "failed at key index "].
    The comparison is the mathematical one, which is what the source
    computes for a positive [num_mem_servers_]. *)
Definition CHECK_LT_size (kq : Queue) (N : Z) (idx : nat) : outcome unit :=
  if Z.of_nat (length kq) <? N then Ok () else Abort (CHECK_LT_failed idx).

(** [AsyncRequestQueue::Enqueue]. *)
Definition Enqueue (tg : MessageKind) (d : string) (q : t) : outcome t :=
  let key := ExtractKey tg d in
  let q1 :=
    match key_map_ q !! key with
    | None =>
        let puts := put_queues_ q ++ [[]] in
        {| num_mem_servers_ := num_mem_servers_ q;
           key_map_ := <[key := (length puts - 1)%nat]> (key_map_ q);
           put_queues_ := puts;
           get_queues_ := get_queues_ q ++ [[]];
           key_locks_ := key_locks_ q ++ [Mutex];
           access_counters_ := access_counters_ q ++ [0];
           is_in_put_queue_ := is_in_put_queue_ q ++ [1];
           is_first_update_ := is_first_update_ q ++ [true];
           key_index_ := key_index_ q |}
    | Some _ => q
    end in
  let idx := default 0%nat (key_map_ q1 !! key) in
  _ ← at_ (key_locks_ q1) idx;
  _ ← (if decide (tg = MTYPE_PUT_REQUEST) then
         kq ← at_ (put_queues_ q1) idx; CHECK_LT_size kq (num_mem_servers_ q1) idx
       else if decide (tg = MTYPE_GET_REQUEST) then
         kq ← at_ (get_queues_ q1) idx; CHECK_LT_size kq (num_mem_servers_ q1) idx
       else Ok ());
  if decide (tg = MTYPE_GET_REQUEST) then
    kq ← at_ (get_queues_ q1) idx;
    Ok {| num_mem_servers_ := num_mem_servers_ q1;
          key_map_ := key_map_ q1;
          put_queues_ := put_queues_ q1;
          get_queues_ := <[idx := kq ++ [mkTaggedMessage tg d]]> (get_queues_ q1);
          key_locks_ := key_locks_ q1;
          access_counters_ := access_counters_ q1;
          is_in_put_queue_ := is_in_put_queue_ q1;
          is_first_update_ := is_first_update_ q1;
          key_index_ := key_index_ q1 |}
  else
    _ ← CHECK_EQ_put tg;
    kq ← at_ (put_queues_ q1) idx;
    Ok {| num_mem_servers_ := num_mem_servers_ q1;
          key_map_ := key_map_ q1;
          put_queues_ := <[idx := kq ++ [mkTaggedMessage tg d]]> (put_queues_ q1);
          get_queues_ := get_queues_ q1;
          key_locks_ := key_locks_ q1;
          access_counters_ := access_counters_ q1;
          is_in_put_queue_ := is_in_put_queue_ q1;
          is_first_update_ := is_first_update_ q1;
          key_index_ := key_index_ q1 |}.

(** One iteration of the outer loop of [AsyncRequestQueue::NextRequest].
    [counter] and [is_put] are references into the vectors: their final
    values are written back. *)
Definition visit (q : t) : outcome (option TaggedMessage * t) :=
  match key_locks_ q, put_queues_ q with
  | [], [] => Ok (None, q)
  | _, _ =>
      let i := key_index_ q in
      _ ← at_ (key_locks_ q) i;
      counter ← at_ (access_counters_ q) i;
      is_put ← at_ (is_in_put_queue_ q) i;
      '(message, q') ← (if decide (is_put <> 0) then
             kq ← at_ (put_queues_ q) i;
             match kq with
             | [] => Ok (None, q)
             | q_msg :: rest =>
                 let counter := counter + 1 in
                 first ← at_ (is_first_update_ q) i;
                 let '(is_put, counter, firsts) :=
                   if (first : bool) then (0, 0, <[i := false]> (is_first_update_ q))
                   else (is_put, counter, is_first_update_ q) in
                 let '(is_put, counter) :=
                   if decide (counter = num_mem_servers_ q) then (0, 0)
                   else (is_put, counter) in
                 Ok (Some q_msg,
                     {| num_mem_servers_ := num_mem_servers_ q;
                        key_map_ := key_map_ q;
                        put_queues_ := <[i := rest]> (put_queues_ q);
                        get_queues_ := get_queues_ q;
                        key_locks_ := key_locks_ q;
                        access_counters_ := <[i := counter]> (access_counters_ q);
                        is_in_put_queue_ := <[i := is_put]> (is_in_put_queue_ q);
                        is_first_update_ := firsts;
                        key_index_ := i |})
             end
           else
             kq ← at_ (get_queues_ q) i;
             match kq with
             | [] => Ok (None, q)
             | q_msg :: rest =>
                 let counter := counter + 1 in
                 let '(is_put, counter) :=
                   if decide (counter = num_mem_servers_ q) then (1, 0)
                   else (is_put, counter) in
                 Ok (Some q_msg,
                     {| num_mem_servers_ := num_mem_servers_ q;
                        key_map_ := key_map_ q;
                        put_queues_ := put_queues_ q;
                        get_queues_ := <[i := rest]> (get_queues_ q);
                        key_locks_ := key_locks_ q;
                        access_counters_ := <[i := counter]> (access_counters_ q);
                        is_in_put_queue_ := <[i := is_put]> (is_in_put_queue_ q);
                        is_first_update_ := is_first_update_ q;
                        key_index_ := i |})
             end);
      Ok (message,
          {| num_mem_servers_ := num_mem_servers_ q';
             key_map_ := key_map_ q';
             put_queues_ := put_queues_ q';
             get_queues_ := get_queues_ q';
             key_locks_ := key_locks_ q';
             access_counters_ := access_counters_ q';
             is_in_put_queue_ := is_in_put_queue_ q';
             is_first_update_ := is_first_update_ q';
             key_index_ := ((i + 1) `mod` length (get_queues_ q'))%nat |})
  end.

(** [AsyncRequestQueue::NextRequest]: iterations until one succeeds, at
    most [fuel] of them. *)
Fixpoint NextRequest (fuel : nat) (q : t) : outcome (option TaggedMessage * t) :=
  match fuel with
  | O => Ok (None, q)
  | S fuel' =>
      r ← visit q;
      match r.1 with
      | Some message => Ok (Some message, r.2)
      | None => NextRequest fuel' r.2
      end
  end.

(** A schedule of the network loop's enqueues and of the process loop's
    iterations. *)
Inductive event :=
  | EvEnqueue (tg : MessageKind) (d : string)
  | EvVisit.

(** Runs a schedule; yields the dequeues in order, each with the slot it
    was taken from (the cursor at that iteration). *)
Fixpoint run (evs : list event) (q : t) : outcome (list (nat * TaggedMessage) * t) :=
  match evs with
  | [] => Ok ([], q)
  | EvEnqueue tg d :: evs' =>
      q1 ← Enqueue tg d q;
      r ← run evs' q1;
      Ok (r.1, r.2)
  | EvVisit :: evs' =>
      v ← visit q;
      r ← run evs' v.2;
      Ok (option_list (pair (key_index_ q) <$> v.1) ++ r.1, r.2)
  end.

(** The tags of the envelopes dequeued at slot [i], in order. *)
Definition tags_at (i : nat) (log : list (nat * TaggedMessage)) : list MessageKind :=
  (fun e => tag e.2) <$> filter (fun e => e.1 = i) log.

(** The steady-state order of a slot: [rounds] times [n] GETs then [n] PUTs. *)
Definition lane_pattern (n rounds : nat) : list MessageKind :=
  mjoin (replicate rounds (replicate n MTYPE_GET_REQUEST ++ replicate n MTYPE_PUT_REQUEST)).

(** *** Slots

    The state of one key, read across the parallel vectors.  The two
    functions [drain] and [append] say what an iteration and an enqueue do
    to the slot they touch; [visit_drain] and the [Enqueue_] lemmas below
    derive them from the code. *)

Record slot := mkSlot {
  s_put : Queue;
  s_get : Queue;
  s_counter : Z;
  s_is_put : Z;
  s_first : bool
}.

(** The slot at index [i], when every vector reaches that far. *)
Definition slot_at (q : t) (i : nat) : option slot :=
  match put_queues_ q !! i, get_queues_ q !! i, access_counters_ q !! i,
        is_in_put_queue_ q !! i, is_first_update_ q !! i with
  | Some p, Some g, Some c, Some ip, Some f => Some (mkSlot p g c ip f)
  | _, _, _, _, _ => None
  end.

(** Slot [i] overwritten with [s]. *)
Definition set_slot (i : nat) (s : slot) (q : t) : t :=
  {| num_mem_servers_ := num_mem_servers_ q;
     key_map_ := key_map_ q;
     put_queues_ := <[i := s_put s]> (put_queues_ q);
     get_queues_ := <[i := s_get s]> (get_queues_ q);
     key_locks_ := key_locks_ q;
     access_counters_ := <[i := s_counter s]> (access_counters_ q);
     is_in_put_queue_ := <[i := s_is_put s]> (is_in_put_queue_ q);
     is_first_update_ := <[i := s_first s]> (is_first_update_ q);
     key_index_ := key_index_ q |}.

(** The cursor moved to [c]. *)
Definition set_cursor (c : nat) (q : t) : t :=
  {| num_mem_servers_ := num_mem_servers_ q;
     key_map_ := key_map_ q;
     put_queues_ := put_queues_ q;
     get_queues_ := get_queues_ q;
     key_locks_ := key_locks_ q;
     access_counters_ := access_counters_ q;
     is_in_put_queue_ := is_in_put_queue_ q;
     is_first_update_ := is_first_update_ q;
     key_index_ := c |}.

(** A slot for a key seen for the first time. *)
Definition fresh_slot : slot := mkSlot [] [] 0 1 true.

(** What [Enqueue] pushes on the vectors for a key it has not seen. *)
Definition push_slot (key : string) (q : t) : t :=
  {| num_mem_servers_ := num_mem_servers_ q;
     key_map_ := <[key := length (put_queues_ q)]> (key_map_ q);
     put_queues_ := put_queues_ q ++ [[]];
     get_queues_ := get_queues_ q ++ [[]];
     key_locks_ := key_locks_ q ++ [Mutex];
     access_counters_ := access_counters_ q ++ [0];
     is_in_put_queue_ := is_in_put_queue_ q ++ [1];
     is_first_update_ := is_first_update_ q ++ [true];
     key_index_ := key_index_ q |}.

(** What an iteration does to the slot under the cursor. *)
Definition drain (N : Z) (s : slot) : option TaggedMessage * slot :=
  if decide (s_is_put s <> 0) then
    match s_put s with
    | [] => (None, s)
    | m :: rest =>
        if s_first s then (Some m, mkSlot rest (s_get s) 0 0 false)
        else if decide (s_counter s + 1 = N)
             then (Some m, mkSlot rest (s_get s) 0 0 (s_first s))
             else (Some m, mkSlot rest (s_get s) (s_counter s + 1) (s_is_put s) (s_first s))
    end
  else
    match s_get s with
    | [] => (None, s)
    | m :: rest =>
        if decide (s_counter s + 1 = N)
        then (Some m, mkSlot (s_put s) rest 0 1 (s_first s))
        else (Some m, mkSlot (s_put s) rest (s_counter s + 1) (s_is_put s) (s_first s))
    end.

(** What an enqueue does to the slot of its key. *)
Definition append (m : TaggedMessage) (s : slot) : slot :=
  if decide (tag m = MTYPE_GET_REQUEST)
  then mkSlot (s_put s) (s_get s ++ [m]) (s_counter s) (s_is_put s) (s_first s)
  else mkSlot (s_put s ++ [m]) (s_get s) (s_counter s) (s_is_put s) (s_first s).

(** The parallel vectors have one length. *)
Record lens (q : t) : Prop := {
  lens_get : length (get_queues_ q) = length (put_queues_ q);
  lens_locks : length (key_locks_ q) = length (put_queues_ q);
  lens_counters : length (access_counters_ q) = length (put_queues_ q);
  lens_is_put : length (is_in_put_queue_ q) = length (put_queues_ q);
  lens_first : length (is_first_update_ q) = length (put_queues_ q)
}.

(** What [Enqueue] does once the slot [idx] of the key is known to hold [s]. *)
Definition enqueue_slot (tg : MessageKind) (d : string) (idx : nat) (s : slot) (q : t)
  : outcome t :=
  match tg with
  | MTYPE_PUT_REQUEST =>
      if Z.of_nat (length (s_put s)) <? num_mem_servers_ q
      then Ok (set_slot idx (append (mkTaggedMessage tg d) s) q)
      else Abort (CHECK_LT_failed idx)
  | MTYPE_GET_REQUEST =>
      if Z.of_nat (length (s_get s)) <? num_mem_servers_ q
      then Ok (set_slot idx (append (mkTaggedMessage tg d) s) q)
      else Abort (CHECK_LT_failed idx)
  | _ => Abort (CHECK_EQ_failed tg)
  end.

(** The tag of the [j]-th dequeue after the first one of a slot, for [n]
    memory servers. *)
Definition expected (n j : nat) : MessageKind :=
  if decide (j `mod` (n + n) < n)%nat then MTYPE_GET_REQUEST else MTYPE_PUT_REQUEST.

(** A slot agrees with the tags [h] dequeued from it so far. *)
Definition slot_inv (N : Z) (s : slot) (h : list MessageKind) : Prop :=
  Forall (fun m => tag m = MTYPE_PUT_REQUEST) (s_put s) /\
  Forall (fun m => tag m = MTYPE_GET_REQUEST) (s_get s) /\
  match h with
  | [] => s_first s = true /\ s_is_put s = 1 /\ s_counter s = 0
  | t0 :: h' =>
      t0 = MTYPE_PUT_REQUEST /\ s_first s = false /\
      (forall j tg, h' !! j = Some tg -> tg = expected (Z.to_nat N) j) /\
      let p := (length h' `mod` (Z.to_nat N + Z.to_nat N))%nat in
      if decide (p < Z.to_nat N)%nat
      then s_is_put s = 0 /\ s_counter s = Z.of_nat p
      else s_is_put s = 1 /\ s_counter s = Z.of_nat (p - Z.to_nat N)
  end.

(** The invariant of the queue: [H i] is the list of tags dequeued so far
    at slot [i]. *)
Record Inv (q : t) (H : nat -> list MessageKind) : Prop := {
  inv_lens : lens q;
  inv_cursor : (key_index_ q < length (put_queues_ q))%nat \/
               (put_queues_ q = [] /\ key_index_ q = 0%nat);
  inv_keys : forall k i, key_map_ q !! k = Some i -> (i < length (put_queues_ q))%nat;
  inv_inj : forall k1 k2 i, key_map_ q !! k1 = Some i -> key_map_ q !! k2 = Some i -> k1 = k2;
  inv_slots : forall i s, slot_at q i = Some s -> slot_inv (num_mem_servers_ q) s (H i);
  inv_none : forall i, (length (put_queues_ q) <= i)%nat -> H i = []
}.

(** The lane an envelope of tag [tg] goes to. *)
Definition lane_of (tg : MessageKind) (s : slot) : Queue :=
  if decide (tg = MTYPE_GET_REQUEST) then s_get s else s_put s.

(** The GET envelopes for key [k] that a schedule enqueues, in order. *)
Definition enqueued_gets (k : string) (evs : list event) : list TaggedMessage :=
  omap (fun e => match e with
                 | EvEnqueue MTYPE_GET_REQUEST d =>
                     if decide (ExtractKey MTYPE_GET_REQUEST d = k)
                     then Some (mkTaggedMessage MTYPE_GET_REQUEST d) else None
                 | _ => None
                 end) evs.

(** The envelopes of tag [tg] for key [k] that a schedule enqueues, in order. *)
Definition enqueued_for (tg : MessageKind) (k : string) (evs : list event)
  : list TaggedMessage :=
  omap (fun e => match e with
                 | EvEnqueue tg' d =>
                     if decide (tg' = tg /\ ExtractKey tg' d = k)
                     then Some (mkTaggedMessage tg' d) else None
                 | EvVisit => None
                 end) evs.

(** The keys of the envelopes a schedule enqueues. *)
Definition enqueued_keys (evs : list event) : list string :=
  omap (fun e => match e with
                 | EvEnqueue tg d => Some (ExtractKey tg d)
                 | EvVisit => None
                 end) evs.

(** The envelopes of tag [tg] dequeued at slot [i], in order. *)
Definition taken (tg : MessageKind) (i : nat) (log : list (nat * TaggedMessage))
  : list TaggedMessage :=
  filter (fun m => tag m = tg) ((filter (fun e => e.1 = i) log).*2).

(** The lane of tag [tg] at index [i]; empty where the vectors do not reach. *)
Definition lane_at (tg : MessageKind) (q : t) (i : nat) : Queue :=
  from_option (lane_of tg) [] (slot_at q i).

(** The lane an iteration reads at a slot: the PUT lane while
    [is_in_put_queue_] is non zero, the GET lane otherwise. *)
Definition current_lane (s : slot) : Queue :=
  if decide (s_is_put s <> 0) then s_put s else s_get s.

(** No lane holds more envelopes than there are memory servers. *)
Definition bounded (q : t) : Prop :=
  forall i s, slot_at q i = Some s ->
    Z.of_nat (length (s_put s)) <= num_mem_servers_ q /\
    Z.of_nat (length (s_get s)) <= num_mem_servers_ q.

(** *** Facts about slots *)

Lemma slot_at_Some (q : t) (i : nat) (s : slot) :
  slot_at q i = Some s <->
  put_queues_ q !! i = Some (s_put s) /\ get_queues_ q !! i = Some (s_get s) /\
  access_counters_ q !! i = Some (s_counter s) /\
  is_in_put_queue_ q !! i = Some (s_is_put s) /\
  is_first_update_ q !! i = Some (s_first s).
Proof.
  unfold slot_at. split.
  - destruct (put_queues_ q !! i), (get_queues_ q !! i), (access_counters_ q !! i),
      (is_in_put_queue_ q !! i), (is_first_update_ q !! i); intros [= <-]; done.
  - intros (-> & -> & -> & -> & ->). by destruct s.
Qed.

Lemma slot_at_lt (q : t) (i : nat) :
  lens q -> (i < length (put_queues_ q))%nat -> is_Some (slot_at q i).
Proof.
  intros [H1 H2 H3 H4 H5] Hi. unfold slot_at.
  destruct (lookup_lt_is_Some_2 (put_queues_ q) i) as [? ->]; [lia|].
  destruct (lookup_lt_is_Some_2 (get_queues_ q) i) as [? ->]; [lia|].
  destruct (lookup_lt_is_Some_2 (access_counters_ q) i) as [? ->]; [lia|].
  destruct (lookup_lt_is_Some_2 (is_in_put_queue_ q) i) as [? ->]; [lia|].
  destruct (lookup_lt_is_Some_2 (is_first_update_ q) i) as [? ->]; [lia|].
  eauto.
Qed.

Lemma slot_at_ge (q : t) (i : nat) :
  (length (put_queues_ q) <= i)%nat -> slot_at q i = None.
Proof. intros Hi. unfold slot_at. by rewrite (lookup_ge_None_2 (put_queues_ q) i). Qed.

Lemma slot_at_bound (q : t) (i : nat) (s : slot) :
  slot_at q i = Some s -> (i < length (put_queues_ q))%nat.
Proof. intros H. apply slot_at_Some in H as [H _]. by apply lookup_lt_Some in H. Qed.

Lemma slot_at_set_slot (q : t) (i j : nat) (s : slot) :
  lens q -> (i < length (put_queues_ q))%nat ->
  slot_at (set_slot i s q) j = if decide (i = j) then Some s else slot_at q j.
Proof.
  intros [H1 H2 H3 H4 H5] Hi. unfold slot_at, set_slot; simpl.
  destruct (decide (i = j)) as [<-|Hne].
  - rewrite !list_lookup_insert_eq by lia. by destruct s.
  - by rewrite !list_lookup_insert_ne.
Qed.

Lemma lens_set_slot (q : t) (i : nat) (s : slot) : lens q -> lens (set_slot i s q).
Proof. intros [H1 H2 H3 H4 H5]. split; simpl; rewrite ?length_insert; done. Qed.

Lemma slot_at_push_slot (q : t) (key : string) (j : nat) :
  lens q ->
  slot_at (push_slot key q) j =
  if decide (j = length (put_queues_ q)) then Some fresh_slot else slot_at q j.
Proof.
  intros [H1 H2 H3 H4 H5]. unfold slot_at, push_slot; simpl.
  destruct (decide (j = length (put_queues_ q))) as [->|Hne].
  - rewrite (list_lookup_middle (put_queues_ q) [] _ _ eq_refl).
    rewrite (list_lookup_middle (get_queues_ q) [] _ _ (eq_sym H1)).
    rewrite (list_lookup_middle (access_counters_ q) [] _ _ (eq_sym H3)).
    rewrite (list_lookup_middle (is_in_put_queue_ q) [] _ _ (eq_sym H4)).
    rewrite (list_lookup_middle (is_first_update_ q) [] _ _ (eq_sym H5)). done.
  - destruct (decide (j < length (put_queues_ q))%nat).
    + rewrite !lookup_app_l by lia. done.
    + rewrite (lookup_ge_None_2 (put_queues_ q ++ [[]]) j) by (rewrite length_app; simpl; lia).
      rewrite (lookup_ge_None_2 (put_queues_ q) j) by lia. done.
Qed.

Lemma lens_push_slot (q : t) (key : string) : lens q -> lens (push_slot key q).
Proof. intros [H1 H2 H3 H4 H5]. split; simpl; rewrite !length_app; simpl; lia. Qed.

(** *** The code in terms of slots *)

Ltac same_state :=
  unfold set_cursor, set_slot; simpl; rewrite ?length_insert;
  repeat f_equal; try done; try (symmetry; by apply list_insert_id).

Lemma visit_drain (q : t) (s : slot) (lk : recursive_mutex) :
  slot_at q (key_index_ q) = Some s ->
  key_locks_ q !! key_index_ q = Some lk ->
  visit q =
  Ok ((drain (num_mem_servers_ q) s).1,
      set_cursor ((key_index_ q + 1) `mod` length (get_queues_ q))
        (set_slot (key_index_ q) (drain (num_mem_servers_ q) s).2 q)).
Proof.
  intros Hs Hlk. apply slot_at_Some in Hs as (Hp & Hg & Hc & Hip & Hf).
  destruct s as [p g c ip f]; simpl in *.
  unfold visit, at_. rewrite Hlk, Hc, Hip. simpl.
  assert (Hmatch : forall A (x y : A),
            match key_locks_ q, put_queues_ q with [], [] => x | _, _ => y end = y).
  { intros A x y. destruct (key_locks_ q); [by rewrite lookup_nil in Hlk|done]. }
  rewrite Hmatch. clear Hmatch.
  unfold drain; simpl.
  destruct (decide (ip <> 0)) as [Hput|Hget]; simpl.
  - rewrite Hp. simpl. destruct p as [|m rest]; simpl.
    + same_state.
    + rewrite Hf. simpl. destruct f; simpl.
      * destruct (decide (0 = num_mem_servers_ q)); simpl; same_state.
      * destruct (decide (c + 1 = num_mem_servers_ q)); simpl; same_state.
  - rewrite Hg. simpl. destruct g as [|m rest]; simpl.
    + same_state.
    + destruct (decide (c + 1 = num_mem_servers_ q)); simpl; same_state.
Qed.

Lemma visit_no_slot (q : t) :
  put_queues_ q = [] -> key_locks_ q = [] -> visit q = Ok (None, q).
Proof. intros H1 H2. unfold visit. by rewrite H1, H2. Qed.

Lemma Enqueue_known (tg : MessageKind) (d : string) (q : t)
    (idx : nat) (s : slot) (lk : recursive_mutex) :
  key_map_ q !! ExtractKey tg d = Some idx ->
  slot_at q idx = Some s ->
  key_locks_ q !! idx = Some lk ->
  Enqueue tg d q = enqueue_slot tg d idx s q.
Proof.
  intros Hkey Hs Hlk. apply slot_at_Some in Hs as (Hp & Hg & Hc & Hip & Hf).
  destruct s as [p g c ip f]; simpl in *.
  unfold Enqueue, enqueue_slot, at_, CHECK_LT_size, CHECK_EQ_put. rewrite Hkey. simpl.
  rewrite Hkey. simpl. rewrite Hlk. simpl.
  destruct tg; simpl; rewrite ?Hp, ?Hg; simpl; try done.
  - destruct (Z.of_nat (length p) <? num_mem_servers_ q); simpl; [|done].
    unfold append; simpl. same_state.
  - destruct (Z.of_nat (length g) <? num_mem_servers_ q); simpl; [|done].
    unfold append; simpl. same_state.
Qed.

Lemma Enqueue_fresh (tg : MessageKind) (d : string) (q : t) :
  key_map_ q !! ExtractKey tg d = None ->
  lens q ->
  Enqueue tg d q =
  enqueue_slot tg d (length (put_queues_ q)) fresh_slot (push_slot (ExtractKey tg d) q).
Proof.
  intros Hkey Hl.
  rewrite <- (Enqueue_known tg d (push_slot (ExtractKey tg d) q) _ fresh_slot Mutex).
  - unfold Enqueue at 2. simpl. rewrite lookup_insert_eq.
    unfold Enqueue. rewrite Hkey. rewrite length_app. simpl.
    replace (length (put_queues_ q) + 1 - 1)%nat with (length (put_queues_ q)) by lia.
    reflexivity.
  - simpl. by rewrite lookup_insert_eq.
  - rewrite slot_at_push_slot by done. by rewrite decide_True.
  - simpl. apply list_lookup_middle. symmetry. apply Hl.
Qed.

(** *** The order of dequeues at a slot *)

Lemma mod_succ (a m : nat) :
  (0 < m)%nat ->
  ((a + 1) `mod` m)%nat = if decide (a `mod` m + 1 = m)%nat then 0%nat else (a `mod` m + 1)%nat.
Proof.
  intros Hm. rewrite <- Nat.Div0.add_mod_idemp_l.
  pose proof (Nat.mod_upper_bound a m) as Hlt.
  destruct (decide (a `mod` m + 1 = m)%nat) as [E|E].
  - rewrite E. apply Nat.Div0.mod_same.
  - apply Nat.mod_small. lia.
Qed.

Lemma slot_inv_fresh (N : Z) : slot_inv N fresh_slot [].
Proof. repeat split; simpl; constructor. Qed.

Lemma slot_inv_append (N : Z) (s : slot) (h : list MessageKind) (m : TaggedMessage) :
  tag m = MTYPE_PUT_REQUEST \/ tag m = MTYPE_GET_REQUEST ->
  slot_inv N s h -> slot_inv N (append m s) h.
Proof.
  intros Htag (Hp & Hg & Hh). unfold append.
  destruct (decide (tag m = MTYPE_GET_REQUEST)) as [E|E]; (split; [|split]); simpl; try done.
  - apply Forall_app. split; [done|]. by constructor.
  - apply Forall_app. split; [done|]. constructor; [|done]. by destruct Htag.
Qed.

Lemma expected_snoc (n : nat) (h : list MessageKind) (tg : MessageKind) :
  (forall j t0, h !! j = Some t0 -> t0 = expected n j) ->
  tg = expected n (length h) ->
  forall j t0, (h ++ [tg]) !! j = Some t0 -> t0 = expected n j.
Proof.
  intros Hh Htg j t0 Hj.
  apply lookup_snoc_Some in Hj as [[_ Hj]|[-> <-]]; eauto.
Qed.

Lemma drain_inv (N : Z) (s : slot) (h : list MessageKind) :
  0 < N ->
  slot_inv N s h ->
  slot_inv N (drain N s).2 (h ++ option_list (tag <$> (drain N s).1)).
Proof.
  intros HN (Hp & Hg & Hh). unfold drain.
  assert (Hn : (0 < Z.to_nat N)%nat) by lia.
  destruct (decide (s_is_put s <> 0)) as [Hput|Hget].
  - destruct (s_put s) as [|m rest] eqn:Eput.
    { simpl. rewrite app_nil_r. unfold slot_inv. by rewrite Eput. }
    apply Forall_cons in Hp as [Hm Hrest].
    destruct (s_first s) eqn:Efirst; simpl.
    + destruct h as [|t0 h']; [|destruct Hh as (_ & ? & _); congruence].
      simpl. rewrite Hm. split; [done|]. split; [done|]. simpl.
      split; [done|]. split; [done|]. split; [by intros j tg; rewrite lookup_nil|].
      rewrite Nat.Div0.mod_0_l. by rewrite decide_True.
    + destruct h as [|t0 h']; [destruct Hh as (? & _); congruence|].
      destruct Hh as (-> & _ & Hpat & Hlane). simpl in Hlane.
      pose proof (Nat.mod_upper_bound (length h') (Z.to_nat N + Z.to_nat N) ltac:(lia)) as Hub.
      destruct (decide (length h' `mod` (Z.to_nat N + Z.to_nat N) < Z.to_nat N)%nat) as [Hlt|Hge];
        [destruct Hlane as [? _]; congruence|].
      destruct Hlane as [Hip Hc].
      assert (Hexp : tag m = expected (Z.to_nat N) (length h')).
      { unfold expected. by rewrite decide_False. }
      destruct (decide (s_counter s + 1 = N)) as [E|E]; simpl;
        (split; [done|]); (split; [done|]); simpl;
        (split; [done|]); (split; [done|]);
        (split; [by apply expected_snoc|]);
        rewrite length_app; simpl; rewrite mod_succ by lia;
        repeat case_decide; try lia; (split; [done|lia]).
  - apply dec_stable in Hget.
    destruct h as [|t0 h']; [destruct Hh as (_ & ? & _); congruence|].
    destruct Hh as (-> & Hfirst & Hpat & Hlane). simpl in Hlane.
    pose proof (Nat.mod_upper_bound (length h') (Z.to_nat N + Z.to_nat N) ltac:(lia)) as Hub.
    destruct (decide (length h' `mod` (Z.to_nat N + Z.to_nat N) < Z.to_nat N)%nat) as [Hlt|Hge];
      [|destruct Hlane as [? _]; congruence].
    destruct Hlane as [Hip Hc].
    destruct (s_get s) as [|m rest] eqn:Eget.
    { simpl. rewrite app_nil_r. unfold slot_inv. rewrite Eget. simpl.
      rewrite decide_True by done. done. }
    apply Forall_cons in Hg as [Hm Hrest].
    assert (Hexp : tag m = expected (Z.to_nat N) (length h')).
    { unfold expected. by rewrite decide_True. }
    destruct (decide (s_counter s + 1 = N)) as [E|E]; simpl;
      (split; [done|]); (split; [done|]); simpl;
      (split; [done|]); (split; [done|]);
      (split; [by apply expected_snoc|]);
      rewrite length_app; simpl; rewrite mod_succ by lia;
      repeat case_decide; try lia; (split; [done|lia]).
Qed.

(** *** The invariant of the queue *)

Lemma Inv_init (N : Z) : Inv (init N) (fun _ => []).
Proof.
  split; simpl; try done. by right.
Qed.

Lemma Inv_set_slot (q : t) (H H' : nat -> list MessageKind) (i : nat) (s s' : slot) :
  Inv q H ->
  slot_at q i = Some s ->
  slot_inv (num_mem_servers_ q) s' (H' i) ->
  (forall j, j <> i -> H' j = H j) ->
  Inv (set_slot i s' q) H'.
Proof.
  intros [Hl Hc Hk Hi Hs Hn] Hsi Hinv Hsame.
  pose proof (slot_at_bound _ _ _ Hsi) as Hlt.
  split; simpl; rewrite ?length_insert; try done.
  - by apply lens_set_slot.
  - destruct Hc as [Hc|[Hc _]]; [by left|]. rewrite Hc in Hlt. simpl in Hlt. lia.
  - intros j sj. rewrite slot_at_set_slot by done.
    destruct (decide (i = j)) as [<-|Hne].
    + by intros [= <-].
    + intros Hj. rewrite Hsame by done. eauto.
  - intros j Hj. rewrite Hsame by lia. eauto.
Qed.

Lemma Inv_push_slot (q : t) (H : nat -> list MessageKind) (key : string) :
  Inv q H ->
  key_map_ q !! key = None ->
  Inv (push_slot key q) H.
Proof.
  intros [Hl Hc Hk Hi Hs Hn] Hkey.
  split; simpl; rewrite ?length_app; simpl.
  - by apply lens_push_slot.
  - left. destruct Hc as [Hc|[_ Hc]]; lia.
  - intros k i Hki. destruct (decide (k = key)) as [->|Hne].
    + rewrite lookup_insert_eq in Hki. simplify_eq. lia.
    + rewrite lookup_insert_ne in Hki by done. apply Hk in Hki. lia.
  - intros k1 k2 i H1 H2.
    destruct (decide (k1 = key)) as [->|Hne1]; destruct (decide (k2 = key)) as [->|Hne2];
      [done|..].
    + rewrite lookup_insert_eq in H1. rewrite lookup_insert_ne in H2 by done.
      simplify_eq. apply Hk in H2. lia.
    + rewrite lookup_insert_eq in H2. rewrite lookup_insert_ne in H1 by done.
      simplify_eq. apply Hk in H1. lia.
    + rewrite lookup_insert_ne in H1, H2 by done. eauto.
  - intros i s. rewrite slot_at_push_slot by done.
    destruct (decide (i = length (put_queues_ q))) as [->|Hne].
    + intros [= <-]. rewrite Hn by lia. apply slot_inv_fresh.
    + eauto.
  - intros i Hle. apply Hn. lia.
Qed.

Lemma Inv_set_cursor (q : t) (H : nat -> list MessageKind) (c : nat) :
  Inv q H ->
  (c < length (put_queues_ q))%nat ->
  Inv (set_cursor c q) H.
Proof.
  intros [Hl Hc Hk Hi Hs Hn] Hlt. split; simpl; try done.
  - destruct Hl. split; done.
  - by left.
Qed.

Lemma tags_at_app (i : nat) (l1 l2 : list (nat * TaggedMessage)) :
  tags_at i (l1 ++ l2) = tags_at i l1 ++ tags_at i l2.
Proof. unfold tags_at. by rewrite filter_app, fmap_app. Qed.

Lemma tags_at_one (i c : nat) (m : TaggedMessage) :
  tags_at i [(c, m)] = if decide (c = i) then [tag m] else [].
Proof.
  unfold tags_at. rewrite filter_cons, filter_nil. simpl.
  by destruct (decide (c = i)).
Qed.

(** An enqueue that passes its checks keeps the invariant; it moves
    neither the cursor nor any history. *)
Lemma Enqueue_Inv (tg : MessageKind) (d : string) (q q' : t) (H : nat -> list MessageKind) :
  Inv q H ->
  Enqueue tg d q = Ok q' ->
  Inv q' H /\ num_mem_servers_ q' = num_mem_servers_ q /\ key_index_ q' = key_index_ q.
Proof.
  intros HI Henq.
  assert (Hstep : forall q0 idx s,
            Inv q0 H -> slot_at q0 idx = Some s ->
            enqueue_slot tg d idx s q0 = Ok q' ->
            Inv q' H /\ num_mem_servers_ q' = num_mem_servers_ q0 /\
            key_index_ q' = key_index_ q0).
  { intros q0 idx s HI0 Hs Hq'. unfold enqueue_slot in Hq'.
    destruct tg; try done; case_match; simplify_eq; (split; [|done]);
      (eapply Inv_set_slot; [done|done| |done]);
      apply slot_inv_append; simpl; eauto using inv_slots. }
  destruct (key_map_ q !! ExtractKey tg d) as [idx|] eqn:Hkey.
  - pose proof (inv_keys _ _ HI _ _ Hkey) as Hlt.
    destruct (slot_at_lt q idx (inv_lens _ _ HI) Hlt) as [s Hs].
    destruct (lookup_lt_is_Some_2 (key_locks_ q) idx) as [lk Hlk].
    { by rewrite (lens_locks _ (inv_lens _ _ HI)). }
    rewrite (Enqueue_known tg d q idx s lk Hkey Hs Hlk) in Henq. eauto.
  - rewrite (Enqueue_fresh tg d q Hkey (inv_lens _ _ HI)) in Henq.
    eapply Hstep in Henq; [done|by apply Inv_push_slot|].
    rewrite slot_at_push_slot by apply HI. by rewrite decide_True.
Qed.

(** An iteration always succeeds on a queue that satisfies the invariant,
    and extends the history of the slot under the cursor by what it took. *)
Lemma visit_Inv (q : t) (H : nat -> list MessageKind) :
  0 < num_mem_servers_ q ->
  Inv q H ->
  exists r q',
    visit q = Ok (r, q') /\
    Inv q' (fun i => H i ++ tags_at i (option_list (pair (key_index_ q) <$> r))) /\
    num_mem_servers_ q' = num_mem_servers_ q.
Proof.
  intros HN HI.
  destruct (inv_cursor _ _ HI) as [Hc|[Hc0 Hc1]].
  - destruct (slot_at_lt q _ (inv_lens _ _ HI) Hc) as [s Hs].
    destruct (lookup_lt_is_Some_2 (key_locks_ q) (key_index_ q)) as [lk Hlk].
    { by rewrite (lens_locks _ (inv_lens _ _ HI)). }
    rewrite (visit_drain q s lk Hs Hlk).
    eexists _, _. split; [reflexivity|]. split; [|done].
    apply Inv_set_cursor.
    + eapply Inv_set_slot; [done|done|..].
      * simpl. destruct (drain (num_mem_servers_ q) s).1 as [m|] eqn:Hr; simpl.
        -- rewrite tags_at_one, decide_True by done.
           pose proof (drain_inv _ s (H (key_index_ q)) HN (inv_slots _ _ HI _ _ Hs)) as Hd.
           by rewrite Hr in Hd.
        -- pose proof (drain_inv _ s (H (key_index_ q)) HN (inv_slots _ _ HI _ _ Hs)) as Hd.
           by rewrite Hr in Hd.
      * intros j Hj. simpl. destruct (drain (num_mem_servers_ q) s).1 as [m|]; simpl.
        -- rewrite tags_at_one, decide_False by done. by rewrite app_nil_r.
        -- by rewrite app_nil_r.
    + simpl. rewrite !length_insert. rewrite (lens_get _ (inv_lens _ _ HI)).
      apply Nat.mod_upper_bound. lia.
  - exists None, q. split.
    + apply visit_no_slot; [done|].
      pose proof (lens_locks _ (inv_lens _ _ HI)) as Hl. rewrite Hc0 in Hl.
      by destruct (key_locks_ q).
    + split; [|done]. destruct HI as [Hl Hc Hk Hi Hs Hn].
      split; try done.
      * intros i s Hsi. simpl. rewrite app_nil_r. eauto.
      * intros i Hi'. simpl. rewrite app_nil_r. eauto.
Qed.

Lemma Inv_ext (q : t) (H H' : nat -> list MessageKind) :
  (forall i, H i = H' i) -> Inv q H -> Inv q H'.
Proof.
  intros Heq [Hl Hc Hk Hi Hs Hn]. split; try done.
  - intros i s Hsi. rewrite <- Heq. eauto.
  - intros i Hle. rewrite <- Heq. eauto.
Qed.

(** A schedule that passes the checks of its enqueues keeps the invariant. *)
Lemma run_Inv (evs : list event) :
  forall q H log q',
  0 < num_mem_servers_ q ->
  Inv q H ->
  run evs q = Ok (log, q') ->
  Inv q' (fun i => H i ++ tags_at i log) /\ num_mem_servers_ q' = num_mem_servers_ q.
Proof.
  induction evs as [|[tg d|] evs IH]; intros q H log q' HN HI Hrun; simpl in Hrun.
  - simplify_eq. split; [|done]. eapply Inv_ext; [|done].
    intros i. unfold tags_at. simpl. by rewrite app_nil_r.
  - inv_bind Hrun. destruct (Enqueue_Inv _ _ _ _ _ HI Hbnd) as (HI1 & HN1 & _).
    inv_bind Hrun. destruct bnd0 as [log1 q1]. simpl in Hrun.
    injection Hrun as -> ->.
    destruct (IH bnd H log q') as [HI' HN']; [lia|done|done|].
    split; [done|lia].
  - destruct (visit_Inv q H HN HI) as (r & q1 & Hv & HI1 & HN1).
    rewrite Hv in Hrun. simpl in Hrun.
    inv_bind Hrun. destruct bnd as [log1 q2]. simpl in Hrun.
    injection Hrun as <- ->.
    destruct (IH q1 _ log1 q' ltac:(lia) HI1 Hbnd) as [HI' HN'].
    split; [|lia]. eapply Inv_ext; [|done].
    intros i. simpl. by rewrite tags_at_app, app_assoc.
Qed.

(** The closed form [expected] is the list [lane_pattern]. *)
Lemma lane_pattern_lookup (n rounds j : nat) :
  (j < rounds * (n + n))%nat ->
  lane_pattern n rounds !! j = Some (expected n j).
Proof.
  revert j. induction rounds as [|r IH]; intros j Hj; [lia|].
  unfold lane_pattern in *. simpl.
  destruct (decide (j < n + n)%nat) as [Hlt|Hge].
  - rewrite lookup_app_l by (rewrite length_app, !length_replicate; lia).
    unfold expected. rewrite Nat.mod_small by done.
    destruct (decide (j < n)%nat).
    + rewrite lookup_app_l by (rewrite length_replicate; lia).
      by apply lookup_replicate_2.
    + rewrite lookup_app_r by (rewrite length_replicate; lia).
      rewrite length_replicate. apply lookup_replicate_2. lia.
  - rewrite lookup_app_r by (rewrite length_app, !length_replicate; lia).
    rewrite length_app, !length_replicate. rewrite IH by (simpl in Hj; lia).
    f_equal. unfold expected.
    assert (E : (j `mod` (n + n) = (j - (n + n)) `mod` (n + n))%nat).
    { rewrite <- (Nat.Div0.mod_add (j - (n + n)) 1 (n + n)). f_equal. lia. }
    by rewrite E.
Qed.

Lemma expected_prefix (n : nat) (h : list MessageKind) :
  (0 < n)%nat ->
  (forall j tg, h !! j = Some tg -> tg = expected n j) ->
  h `prefix_of` lane_pattern n (length h).
Proof.
  intros Hn Hh.
  assert (E : h = take (length h) (lane_pattern n (length h))).
  { apply list_eq. intros j. destruct (decide (j < length h)%nat) as [Hlt|Hge].
    - rewrite lookup_take_lt by done. rewrite lane_pattern_lookup by nia.
      destruct (lookup_lt_is_Some_2 h j Hlt) as [tg Htg]. rewrite Htg.
      f_equal. eauto.
    - rewrite lookup_take_ge by lia. apply lookup_ge_None_2. lia. }
  rewrite E at 1. apply prefix_take.
Qed.

(** The history of a slot: nothing, or a PUT followed by the steady-state
    order. *)
Lemma history_shape (N : Z) (evs : list event) (log : list (nat * TaggedMessage))
    (q' : t) (i : nat) :
  0 < N ->
  run evs (init N) = Ok (log, q') ->
  tags_at i log = [] \/
  exists h', tags_at i log = MTYPE_PUT_REQUEST :: h' /\
             forall j tg, h' !! j = Some tg -> tg = expected (Z.to_nat N) j.
Proof.
  intros HN Hrun.
  destruct (run_Inv evs (init N) (fun _ => []) log q' HN (Inv_init N) Hrun) as [HI HN'].
  simpl in HN'.
  destruct (decide (i < length (put_queues_ q'))%nat) as [Hlt|Hge].
  - destruct (slot_at_lt q' i (inv_lens _ _ HI) Hlt) as [s Hs].
    pose proof (inv_slots _ _ HI _ _ Hs) as (_ & _ & Hh). simpl in Hh.
    destruct (tags_at i log) as [|t0 h']; [by left|right].
    destruct Hh as (-> & _ & Hpat & _). rewrite HN' in Hpat. eauto.
  - left. apply (inv_none _ _ HI i). lia.
Qed.

(** A call of [NextRequest] is a schedule of loop iterations, of which
    only the last one dequeues. *)
Lemma NextRequest_iterations (fuel : nat) :
  forall q m q', NextRequest fuel q = Ok (Some m, q') ->
  exists n c, (n < fuel)%nat /\
    run (replicate (S n) EvVisit) q = Ok ([(c, m)], q').
Proof.
  induction fuel as [|fuel IH]; intros q m q' H; simpl in H; [done|].
  inv_bind H. destruct bnd as [[m0|] q1]; simpl in H.
  - simplify_eq. exists 0%nat, (key_index_ q). split; [lia|]. simpl. by rewrite Hbnd.
  - apply IH in H as (n & c & Hn & Hrun). exists (S n), c. split; [lia|].
    change (replicate (S (S n)) EvVisit) with (EvVisit :: replicate (S n) EvVisit).
    simpl in *. rewrite Hbnd. simpl. by rewrite Hrun.
Qed.

(** *** The first-drain scenario *)

Lemma first_drain_scenario (p1 p2 g1 g2 : string) (f1 f2 f3 f4 : nat) :
  ExtractKey MTYPE_PUT_REQUEST p1 = "a"%string ->
  ExtractKey MTYPE_PUT_REQUEST p2 = "a"%string ->
  ExtractKey MTYPE_GET_REQUEST g1 = "a"%string ->
  ExtractKey MTYPE_GET_REQUEST g2 = "a"%string ->
  exists q4 q5 q6 q7 q8,
    (q1 ← Enqueue MTYPE_PUT_REQUEST p1 (init 2);
     q2 ← Enqueue MTYPE_PUT_REQUEST p2 q1;
     q3 ← Enqueue MTYPE_GET_REQUEST g1 q2;
     Enqueue MTYPE_GET_REQUEST g2 q3) = Ok q4 /\
    NextRequest (S f1) q4 = Ok (Some (mkTaggedMessage MTYPE_PUT_REQUEST p1), q5) /\
    NextRequest (S f2) q5 = Ok (Some (mkTaggedMessage MTYPE_GET_REQUEST g1), q6) /\
    NextRequest (S f3) q6 = Ok (Some (mkTaggedMessage MTYPE_GET_REQUEST g2), q7) /\
    NextRequest (S f4) q7 = Ok (Some (mkTaggedMessage MTYPE_PUT_REQUEST p2), q8).
Proof.
  intros Hp1 Hp2 Hg1 Hg2.
  rewrite (Enqueue_fresh _ p1 (init 2)); [|by rewrite Hp1|by split].
  rewrite Hp1. simpl.
  erewrite (Enqueue_known _ p2 _ 0%nat _ Mutex);
    [|rewrite Hp2; apply lookup_insert_eq|reflexivity|reflexivity].
  simpl.
  erewrite (Enqueue_known _ g1 _ 0%nat _ Mutex);
    [|rewrite Hg1; apply lookup_insert_eq|reflexivity|reflexivity].
  simpl.
  erewrite (Enqueue_known _ g2 _ 0%nat _ Mutex);
    [|rewrite Hg2; apply lookup_insert_eq|reflexivity|reflexivity].
  simpl.
  do 5 eexists. split; [vm_compute; reflexivity|].
  do 3 (split; [vm_compute; reflexivity|]).
  vm_compute; reflexivity.
Qed.

(** C1. Async first-drain.  With two memory servers, after two PUTs and
    then two GETs for one key are enqueued, four calls of [NextRequest]
    return PUT, GET, GET, PUT (the first PUT, the two GETs in their order,
    the second PUT).  In general, for any number [N >= 1] of memory
    servers and any schedule that passes the checks of its enqueues, the
    first envelope dequeued at a slot is a PUT and the second one dequeued
    at that slot is a GET. *)
Theorem async_first_drain :
  (forall (p1 p2 g1 g2 : string) (f1 f2 f3 f4 : nat),
     ExtractKey MTYPE_PUT_REQUEST p1 = "a"%string ->
     ExtractKey MTYPE_PUT_REQUEST p2 = "a"%string ->
     ExtractKey MTYPE_GET_REQUEST g1 = "a"%string ->
     ExtractKey MTYPE_GET_REQUEST g2 = "a"%string ->
     exists q4 q5 q6 q7 q8,
       (q1 ← Enqueue MTYPE_PUT_REQUEST p1 (init 2);
        q2 ← Enqueue MTYPE_PUT_REQUEST p2 q1;
        q3 ← Enqueue MTYPE_GET_REQUEST g1 q2;
        Enqueue MTYPE_GET_REQUEST g2 q3) = Ok q4 /\
       NextRequest (S f1) q4 = Ok (Some (mkTaggedMessage MTYPE_PUT_REQUEST p1), q5) /\
       NextRequest (S f2) q5 = Ok (Some (mkTaggedMessage MTYPE_GET_REQUEST g1), q6) /\
       NextRequest (S f3) q6 = Ok (Some (mkTaggedMessage MTYPE_GET_REQUEST g2), q7) /\
       NextRequest (S f4) q7 = Ok (Some (mkTaggedMessage MTYPE_PUT_REQUEST p2), q8)) /\
  (forall (N : Z) (evs : list event) (log : list (nat * TaggedMessage)) (q' : t) (i : nat),
     0 < N ->
     run evs (init N) = Ok (log, q') ->
     (forall tg, tags_at i log !! 0%nat = Some tg -> tg = MTYPE_PUT_REQUEST) /\
     (forall tg, tags_at i log !! 1%nat = Some tg -> tg = MTYPE_GET_REQUEST)).
Proof.
  split; [apply first_drain_scenario|].
  intros N evs log q' i HN Hrun.
  destruct (history_shape N evs log q' i HN Hrun) as [->|(h' & -> & Hpat)].
  - split; intros tg; by rewrite lookup_nil.
  - split; intros tg; simpl.
    + by intros [= <-].
    + intros Htg. apply Hpat in Htg. subst tg. unfold expected.
      rewrite Nat.Div0.mod_0_l. rewrite decide_True by lia. done.
Qed.

(** C2. Async lane alternation.  For [N >= 1] memory servers and any
    schedule that passes the checks of its enqueues, the tags dequeued at
    a slot are, after the PUT that primes the slot, a prefix of
    [N] GETs, [N] PUTs, [N] GETs, [N] PUTs and so on: the slot yields
    exactly [N] envelopes of a lane before it yields one of the other. *)
Theorem async_lane_alternation (N : Z) (evs : list event)
    (log : list (nat * TaggedMessage)) (q' : t) (i : nat) :
  0 < N ->
  run evs (init N) = Ok (log, q') ->
  tags_at i log = [] \/
  exists h', tags_at i log = MTYPE_PUT_REQUEST :: h' /\
             h' `prefix_of` lane_pattern (Z.to_nat N) (length h').
Proof.
  intros HN Hrun.
  destruct (history_shape N evs log q' i HN Hrun) as [->|(h' & -> & Hpat)]; [by left|right].
  exists h'. split; [done|]. apply expected_prefix; [lia|done].
Qed.

(** *** Overflow of a lane *)

Lemma overflow_three_puts (p1 p2 p3 : string) :
  ExtractKey MTYPE_PUT_REQUEST p1 = "a"%string ->
  ExtractKey MTYPE_PUT_REQUEST p2 = "a"%string ->
  ExtractKey MTYPE_PUT_REQUEST p3 = "a"%string ->
  exists q1 q2,
    Enqueue MTYPE_PUT_REQUEST p1 (init 2) = Ok q1 /\
    Enqueue MTYPE_PUT_REQUEST p2 q1 = Ok q2 /\
    Enqueue MTYPE_PUT_REQUEST p3 q2 = Abort (CHECK_LT_failed 0).
Proof.
  intros Hp1 Hp2 Hp3.
  eexists _, _. split; [|split].
  - rewrite (Enqueue_fresh _ p1 (init 2)); [|by rewrite Hp1|by split].
    rewrite Hp1. reflexivity.
  - erewrite (Enqueue_known _ p2 _ 0%nat _ Mutex);
      [|rewrite Hp2; apply lookup_insert_eq|reflexivity|reflexivity].
    reflexivity.
  - erewrite (Enqueue_known _ p3 _ 0%nat _ Mutex);
      [|rewrite Hp3; apply lookup_insert_eq|reflexivity|reflexivity].
    reflexivity.
Qed.

(** C3. Async overflow abort.  In any state the queue reaches, for a PUT
    or GET envelope whose key has slot [idx]: when the lane of the
    envelope already holds [N] messages the enqueue aborts on the failed
    [CHECK_LT] of that slot (the spec's ConfigError for a lane overflow);
    when it holds fewer the enqueue succeeds and appends the envelope to
    the lane.  An enqueue for a key not seen before succeeds too.  With
    [N = 2] the first two PUTs for a key succeed and the third aborts. *)
Theorem async_overflow_abort :
  (forall (N : Z) (evs : list event) (log : list (nat * TaggedMessage)) (q : t)
          (tg : MessageKind) (d : string) (idx : nat) (s : slot),
     0 < N ->
     run evs (init N) = Ok (log, q) ->
     tg = MTYPE_PUT_REQUEST \/ tg = MTYPE_GET_REQUEST ->
     key_map_ q !! ExtractKey tg d = Some idx ->
     slot_at q idx = Some s ->
     (Z.of_nat (length (lane_of tg s)) = N ->
      Enqueue tg d q = Abort (CHECK_LT_failed idx)) /\
     (Z.of_nat (length (lane_of tg s)) < N ->
      exists q', Enqueue tg d q = Ok q' /\
                 slot_at q' idx = Some (append (mkTaggedMessage tg d) s) /\
                 lane_of tg (append (mkTaggedMessage tg d) s) =
                 lane_of tg s ++ [mkTaggedMessage tg d])) /\
  (forall (N : Z) (evs : list event) (log : list (nat * TaggedMessage)) (q : t)
          (tg : MessageKind) (d : string),
     0 < N ->
     run evs (init N) = Ok (log, q) ->
     tg = MTYPE_PUT_REQUEST \/ tg = MTYPE_GET_REQUEST ->
     key_map_ q !! ExtractKey tg d = None ->
     exists q', Enqueue tg d q = Ok q') /\
  (forall p1 p2 p3 : string,
     ExtractKey MTYPE_PUT_REQUEST p1 = "a"%string ->
     ExtractKey MTYPE_PUT_REQUEST p2 = "a"%string ->
     ExtractKey MTYPE_PUT_REQUEST p3 = "a"%string ->
     exists q1 q2,
       Enqueue MTYPE_PUT_REQUEST p1 (init 2) = Ok q1 /\
       Enqueue MTYPE_PUT_REQUEST p2 q1 = Ok q2 /\
       Enqueue MTYPE_PUT_REQUEST p3 q2 = Abort (CHECK_LT_failed 0)).
Proof.
  split; [|split; [|apply overflow_three_puts]].
  - intros N evs log q tg d idx s HN Hrun Htg Hkey Hs.
    destruct (run_Inv evs (init N) (fun _ => []) log q HN (Inv_init N) Hrun) as [HI HN'].
    simpl in HN'.
    destruct (lookup_lt_is_Some_2 (key_locks_ q) idx) as [lk Hlk].
    { rewrite (lens_locks _ (inv_lens _ _ HI)). by eapply slot_at_bound. }
    rewrite (Enqueue_known tg d q idx s lk Hkey Hs Hlk).
    unfold enqueue_slot, lane_of. rewrite HN'.
    destruct Htg as [-> | ->]; simpl.
    + split; intros Hlen.
      * rewrite (proj2 (Z.ltb_ge _ _)) by lia. done.
      * rewrite (proj2 (Z.ltb_lt _ _)) by lia. eexists. split; [done|].
        rewrite slot_at_set_slot; [|apply HI|by eapply slot_at_bound].
        by rewrite decide_True.
    + split; intros Hlen.
      * rewrite (proj2 (Z.ltb_ge _ _)) by lia. done.
      * rewrite (proj2 (Z.ltb_lt _ _)) by lia. eexists. split; [done|].
        rewrite slot_at_set_slot; [|apply HI|by eapply slot_at_bound].
        by rewrite decide_True.
  - intros N evs log q tg d HN Hrun Htg Hkey.
    destruct (run_Inv evs (init N) (fun _ => []) log q HN (Inv_init N) Hrun) as [HI HN'].
    simpl in HN'.
    rewrite (Enqueue_fresh tg d q Hkey (inv_lens _ _ HI)).
    unfold enqueue_slot. simpl. rewrite HN'.
    rewrite (proj2 (Z.ltb_lt _ _)) by lia.
    destruct Htg as [-> | ->]; eauto.
Qed.

(** *** A slot waiting in an empty PUT lane *)

Lemma slot_at_set_cursor (q : t) (c i : nat) : slot_at (set_cursor c q) i = slot_at q i.
Proof. reflexivity. Qed.

Lemma Enqueue_key_map (tg : MessageKind) (d : string) (q q' : t) (H : nat -> list MessageKind)
    (k : string) (idx : nat) :
  Inv q H -> Enqueue tg d q = Ok q' ->
  key_map_ q !! k = Some idx -> key_map_ q' !! k = Some idx.
Proof.
  intros HI Henq Hk.
  destruct (key_map_ q !! ExtractKey tg d) as [idx'|] eqn:Hkey.
  - pose proof (inv_keys _ _ HI _ _ Hkey) as Hlt.
    destruct (slot_at_lt q idx' (inv_lens _ _ HI) Hlt) as [s Hs].
    destruct (lookup_lt_is_Some_2 (key_locks_ q) idx') as [lk Hlk].
    { by rewrite (lens_locks _ (inv_lens _ _ HI)). }
    rewrite (Enqueue_known tg d q idx' s lk Hkey Hs Hlk) in Henq.
    unfold enqueue_slot in Henq.
    destruct tg; try done; case_match; by simplify_eq.
  - rewrite (Enqueue_fresh tg d q Hkey (inv_lens _ _ HI)) in Henq.
    unfold enqueue_slot in Henq.
    assert (k <> ExtractKey tg d) by congruence.
    destruct tg; try done; case_match; simplify_eq; simpl;
      by rewrite lookup_insert_ne.
Qed.

(** What an enqueue does to a slot [idx] whose key is [k]: a GET for [k]
    joins its GET lane, a PUT for [k] its PUT lane, anything else leaves
    the slot alone. *)
Lemma Enqueue_slot_at (tg : MessageKind) (d : string) (q q' : t) (H : nat -> list MessageKind)
    (k : string) (idx : nat) (s : slot) :
  Inv q H -> Enqueue tg d q = Ok q' ->
  key_map_ q !! k = Some idx -> slot_at q idx = Some s ->
  (tg = MTYPE_PUT_REQUEST \/ tg = MTYPE_GET_REQUEST) /\
  slot_at q' idx =
  Some (if decide (ExtractKey tg d = k) then append (mkTaggedMessage tg d) s else s).
Proof.
  intros HI Henq Hk Hs.
  pose proof (slot_at_bound _ _ _ Hs) as Hidx.
  destruct (key_map_ q !! ExtractKey tg d) as [idx'|] eqn:Hkey.
  - pose proof (inv_keys _ _ HI _ _ Hkey) as Hlt.
    destruct (slot_at_lt q idx' (inv_lens _ _ HI) Hlt) as [s0 Hs0].
    destruct (lookup_lt_is_Some_2 (key_locks_ q) idx') as [lk Hlk].
    { by rewrite (lens_locks _ (inv_lens _ _ HI)). }
    rewrite (Enqueue_known tg d q idx' s0 lk Hkey Hs0 Hlk) in Henq.
    unfold enqueue_slot in Henq.
    assert (Hq' : q' = set_slot idx' (append (mkTaggedMessage tg d) s0) q /\
                  (tg = MTYPE_PUT_REQUEST \/ tg = MTYPE_GET_REQUEST)).
    { destruct tg; try done; case_match; simplify_eq; eauto. }
    destruct Hq' as [-> Htg]. split; [done|].
    rewrite slot_at_set_slot; [|apply HI|done].
    destruct (decide (ExtractKey tg d = k)) as [E|E].
    + subst k. simplify_eq. by rewrite decide_True.
    + rewrite decide_False; [done|]. intros ->. apply E.
      exact (inv_inj _ _ HI _ _ _ Hkey Hk).
  - rewrite (Enqueue_fresh tg d q Hkey (inv_lens _ _ HI)) in Henq.
    unfold enqueue_slot in Henq.
    assert (Hq' : q' = set_slot (length (put_queues_ q))
                         (append (mkTaggedMessage tg d) fresh_slot)
                         (push_slot (ExtractKey tg d) q) /\
                  (tg = MTYPE_PUT_REQUEST \/ tg = MTYPE_GET_REQUEST)).
    { destruct tg; try done; case_match; simplify_eq; eauto. }
    destruct Hq' as [-> Htg]. split; [done|].
    rewrite slot_at_set_slot;
      [|by apply lens_push_slot, HI|simpl; rewrite length_app; simpl; lia].
    rewrite decide_False by lia.
    rewrite slot_at_push_slot by apply HI. rewrite decide_False by lia.
    rewrite decide_False by congruence. done.
Qed.

Lemma starved_slot (k : string) (idx : nat) (evs : list event) :
  forall q H s log q',
  0 < num_mem_servers_ q ->
  Inv q H ->
  key_map_ q !! k = Some idx ->
  slot_at q idx = Some s ->
  s_is_put s <> 0 ->
  s_put s = [] ->
  (forall d, EvEnqueue MTYPE_PUT_REQUEST d ∈ evs -> ExtractKey MTYPE_PUT_REQUEST d <> k) ->
  run evs q = Ok (log, q') ->
  (forall c m, (c, m) ∈ log -> c <> idx) /\
  slot_at q' idx =
  Some (mkSlot [] (s_get s ++ enqueued_gets k evs) (s_counter s) (s_is_put s) (s_first s)).
Proof.
  induction evs as [|[tg d|] evs IH]; intros q H s log q' HN HI Hk Hs Hput Hempty Hno Hrun;
    simpl in Hrun.
  - simplify_eq. split; [by intros c m Hin; apply elem_of_nil in Hin|].
    rewrite Hs. unfold enqueued_gets. simpl. rewrite app_nil_r.
    destruct s; simpl in *. by subst.
  - inv_bind Hrun. destruct (Enqueue_Inv _ _ _ _ _ HI Hbnd) as (HI1 & HN1 & _).
    inv_bind Hrun. destruct bnd0 as [log1 q1]. simpl in Hrun.
    injection Hrun as -> ->.
    destruct (Enqueue_slot_at _ _ _ _ _ _ _ _ HI Hbnd Hk Hs) as [Htg Hs1].
    pose proof (Enqueue_key_map _ _ _ _ _ _ _ HI Hbnd Hk) as Hk1.
    assert (Hno1 : forall d0, EvEnqueue MTYPE_PUT_REQUEST d0 ∈ evs ->
                              ExtractKey MTYPE_PUT_REQUEST d0 <> k).
    { intros d0 Hin. apply Hno. by right. }
    destruct (decide (ExtractKey tg d = k)) as [E|E].
    + destruct Htg as [-> | ->]; [exfalso; apply (Hno d); [by left|done]|].
      destruct (IH bnd H _ log q' ltac:(lia) HI1 Hk1 Hs1) as [Hlog Hs']; try done.
      split; [done|]. rewrite Hs'. unfold append, enqueued_gets. simpl.
      rewrite decide_True by done. simpl. by rewrite <- app_assoc.
    + destruct (IH bnd H _ log q' ltac:(lia) HI1 Hk1 Hs1) as [Hlog Hs']; try done.
      split; [done|]. rewrite Hs'. unfold enqueued_gets. simpl.
      destruct tg; try done. by rewrite decide_False.
  - destruct (visit_Inv q H HN HI) as (r & q1 & Hv & HI1 & HN1).
    rewrite Hv in Hrun. simpl in Hrun.
    inv_bind Hrun. destruct bnd as [log1 q2]. simpl in Hrun.
    injection Hrun as <- ->.
    assert (Hno1 : forall d0, EvEnqueue MTYPE_PUT_REQUEST d0 ∈ evs ->
                              ExtractKey MTYPE_PUT_REQUEST d0 <> k).
    { intros d0 Hin. apply Hno. by right. }
    pose proof (slot_at_bound _ _ _ Hs) as Hidx.
    destruct (inv_cursor _ _ HI) as [Hc|[Hc0 _]]; [|rewrite Hc0 in Hidx; simpl in Hidx; lia].
    destruct (slot_at_lt q _ (inv_lens _ _ HI) Hc) as [sc Hsc].
    destruct (lookup_lt_is_Some_2 (key_locks_ q) (key_index_ q)) as [lk Hlk].
    { by rewrite (lens_locks _ (inv_lens _ _ HI)). }
    rewrite (visit_drain q sc lk Hsc Hlk) in Hv. injection Hv as <- <-.
    set (q1 := set_cursor ((key_index_ q + 1) `mod` length (get_queues_ q))
                 (set_slot (key_index_ q) (drain (num_mem_servers_ q) sc).2 q)) in *.
    assert (Hk1 : key_map_ q1 !! k = Some idx) by done.
    assert (Hd : key_index_ q = idx -> drain (num_mem_servers_ q) sc = (None, s)).
    { intros E. rewrite E, Hs in Hsc. injection Hsc as <-.
      unfold drain. rewrite decide_True by done. by rewrite Hempty. }
    assert (Hs1 : slot_at q1 idx = Some s).
    { unfold q1. rewrite slot_at_set_cursor, slot_at_set_slot; [|apply HI|done].
      destruct (decide (key_index_ q = idx)) as [E|E]; [|done].
      by rewrite (Hd E). }
    assert (HN2 : 0 < num_mem_servers_ q1) by (simpl; lia).
    destruct (IH q1 _ s log1 q' HN2 HI1 Hk1 Hs1 Hput Hempty Hno1 Hbnd) as [Hlog Hs'].
    split; [|done]. intros c m Hin. apply elem_of_app in Hin as [Hin|Hin]; [|eauto].
    destruct (decide (key_index_ q = idx)) as [E|E].
    + rewrite (Hd E) in Hin. simpl in Hin. by apply elem_of_nil in Hin.
    + destruct (drain (num_mem_servers_ q) sc).1; simpl in Hin.
      * apply list_elem_of_singleton in Hin. by simplify_eq.
      * by apply elem_of_nil in Hin.
Qed.

(** C10. GET-only keys are never serviced.  Take a state the queue
    reaches, with [N >= 1], and a key [k] whose slot is in the PUT lane
    with an empty PUT FIFO.  Along any schedule that enqueues no PUT for
    [k] and passes its checks, no envelope is dequeued at that slot: the
    slot stays in the PUT lane, and its GET FIFO only grows by the GETs
    enqueued for [k].  A slot created by a GET starts in that state, its
    first update pending. *)
Theorem async_get_only_starves :
  (forall (N : Z) (pre evs : list event) (log0 log : list (nat * TaggedMessage))
          (q q' : t) (k : string) (idx : nat) (s : slot),
     0 < N ->
     run pre (init N) = Ok (log0, q) ->
     key_map_ q !! k = Some idx ->
     slot_at q idx = Some s ->
     s_is_put s <> 0 ->
     s_put s = [] ->
     (forall d, EvEnqueue MTYPE_PUT_REQUEST d ∈ evs ->
                ExtractKey MTYPE_PUT_REQUEST d <> k) ->
     run evs q = Ok (log, q') ->
     (forall c m, (c, m) ∈ log -> c <> idx) /\
     slot_at q' idx =
     Some (mkSlot [] (s_get s ++ enqueued_gets k evs)
                  (s_counter s) (s_is_put s) (s_first s))) /\
  (forall (N : Z) (pre : list event) (log0 : list (nat * TaggedMessage)) (q : t) (d : string),
     0 < N ->
     run pre (init N) = Ok (log0, q) ->
     key_map_ q !! ExtractKey MTYPE_GET_REQUEST d = None ->
     exists q' idx,
       Enqueue MTYPE_GET_REQUEST d q = Ok q' /\
       key_map_ q' !! ExtractKey MTYPE_GET_REQUEST d = Some idx /\
       slot_at q' idx =
       Some (mkSlot [] [mkTaggedMessage MTYPE_GET_REQUEST d] 0 1 true)).
Proof.
  split.
  - intros N pre evs log0 log q q' k idx s HN Hpre Hk Hs Hput Hempty Hno Hrun.
    destruct (run_Inv pre (init N) (fun _ => []) log0 q HN (Inv_init N) Hpre) as [HI HN'].
    simpl in HN'.
    eapply starved_slot; eauto. lia.
  - intros N pre log0 q d HN Hpre Hkey.
    destruct (run_Inv pre (init N) (fun _ => []) log0 q HN (Inv_init N) Hpre) as [HI HN'].
    simpl in HN'.
    rewrite (Enqueue_fresh _ d q Hkey (inv_lens _ _ HI)).
    unfold enqueue_slot. simpl. rewrite HN'.
    rewrite (proj2 (Z.ltb_lt _ _)) by lia.
    eexists _, (length (put_queues_ q)). split; [reflexivity|]. split.
    + simpl. by rewrite lookup_insert_eq.
    + rewrite slot_at_set_slot;
        [|by apply lens_push_slot, HI|simpl; rewrite length_app; simpl; lia].
      by rewrite decide_True.
Qed.

(** *** One envelope per visit *)

(** The amended C8.  In a state the queue reaches, with [N >= 1], an
    iteration of [NextRequest] on the slot under the cursor takes at most
    one envelope, the head of the slot's current lane, leaves every other
    slot alone, and moves the cursor to the next slot; the lane of the
    slot switches exactly when this is the slot's first drain or the
    count of envelopes taken from the lane reaches [N], and the count
    starts again from zero then. *)
Theorem async_visit_drains_one (N : Z) (pre : list event)
    (log0 : list (nat * TaggedMessage)) (q : t) (s : slot) :
  0 < N ->
  run pre (init N) = Ok (log0, q) ->
  slot_at q (key_index_ q) = Some s ->
  exists r q' s',
    visit q = Ok (r, q') /\
    key_index_ q' = ((key_index_ q + 1) `mod` length (put_queues_ q))%nat /\
    (forall i, i <> key_index_ q -> slot_at q' i = slot_at q i) /\
    slot_at q' (key_index_ q) = Some s' /\
    (r = None -> s' = s /\ (if decide (s_is_put s <> 0) then s_put s else s_get s) = []) /\
    (forall m, r = Some m ->
       (if decide (s_is_put s <> 0)
        then s_put s = m :: s_put s' /\ s_get s' = s_get s
        else s_get s = m :: s_get s' /\ s_put s' = s_put s) /\
       (if decide (s_first s = true \/ s_counter s + 1 = N)
        then (s_is_put s' <> 0 <-> s_is_put s = 0) /\ s_counter s' = 0
        else s_is_put s' = s_is_put s /\ s_counter s' = s_counter s + 1)).
Proof.
  intros HN Hpre Hs.
  destruct (run_Inv pre (init N) (fun _ => []) log0 q HN (Inv_init N) Hpre) as [HI HN'].
  simpl in HN'.
  pose proof (slot_at_bound _ _ _ Hs) as Hc.
  destruct (lookup_lt_is_Some_2 (key_locks_ q) (key_index_ q)) as [lk Hlk].
  { by rewrite (lens_locks _ (inv_lens _ _ HI)). }
  rewrite (visit_drain q s lk Hs Hlk). rewrite HN'.
  eexists _, _, _. split; [reflexivity|]. simpl.
  split; [by rewrite (lens_get _ (inv_lens _ _ HI))|].
  split.
  { intros i Hi. rewrite slot_at_set_cursor, slot_at_set_slot; [|apply HI|done].
    by rewrite decide_False. }
  split.
  { rewrite slot_at_set_cursor, slot_at_set_slot; [|apply HI|done].
    by rewrite decide_True. }
  pose proof (inv_slots _ _ HI _ _ Hs) as (_ & _ & Hh). simpl in Hh.
  assert (Hfirst : s_is_put s = 0 -> s_first s = false).
  { intros Hz. destruct (tags_at (key_index_ q) log0) as [|t0 h'].
    - destruct Hh as (_ & ? & _). congruence.
    - by destruct Hh as (_ & ? & _). }
  unfold drain.
  destruct (decide (s_is_put s <> 0)) as [Hput|Hget].
  - destruct (s_put s) as [|m rest] eqn:Eput; simpl; [done|].
    destruct (s_first s) eqn:Ef; simpl.
    + split; [done|]. intros m0 [= <-]. split; [done|].
      repeat (destruct (decide _)); intuition (congruence || lia).
    + destruct (decide (s_counter s + 1 = N)) as [E|E]; simpl;
        (split; [done|]); intros m0 [= <-]; (split; [done|]);
        repeat (destruct (decide _)); intuition (congruence || lia).
  - apply dec_stable in Hget. rewrite (Hfirst Hget).
    destruct (s_get s) as [|m rest] eqn:Eget; simpl; [done|].
    destruct (decide (s_counter s + 1 = N)) as [E|E]; simpl;
      (split; [done|]); intros m0 [= <-]; (split; [done|]);
      repeat (destruct (decide _)); intuition (congruence || lia).
Qed.

(** *** The steps, case by case *)

Lemma visit_cases (q q' : t) (H : nat -> list MessageKind) (r : option TaggedMessage) :
  Inv q H -> visit q = Ok (r, q') ->
  (put_queues_ q = [] /\ r = None /\ q' = q) \/
  (exists s, slot_at q (key_index_ q) = Some s /\
     r = (drain (num_mem_servers_ q) s).1 /\
     q' = set_cursor ((key_index_ q + 1) `mod` length (put_queues_ q))
            (set_slot (key_index_ q) (drain (num_mem_servers_ q) s).2 q)).
Proof.
  intros HI Hv. destruct (inv_cursor _ _ HI) as [Hc|[Hc0 Hc1]].
  - right. destruct (slot_at_lt q _ (inv_lens _ _ HI) Hc) as [s Hs].
    destruct (lookup_lt_is_Some_2 (key_locks_ q) (key_index_ q)) as [lk Hlk].
    { by rewrite (lens_locks _ (inv_lens _ _ HI)). }
    rewrite (visit_drain q s lk Hs Hlk) in Hv. injection Hv as <- <-.
    exists s. by rewrite (lens_get _ (inv_lens _ _ HI)).
  - left. rewrite visit_no_slot in Hv; [by simplify_eq|done|].
    pose proof (lens_locks _ (inv_lens _ _ HI)) as Hl. rewrite Hc0 in Hl.
    by destruct (key_locks_ q).
Qed.

Lemma Enqueue_cases (tg : MessageKind) (d : string) (q q' : t) (H : nat -> list MessageKind) :
  Inv q H -> Enqueue tg d q = Ok q' ->
  (tg = MTYPE_PUT_REQUEST \/ tg = MTYPE_GET_REQUEST) /\
  ((exists idx s,
      key_map_ q !! ExtractKey tg d = Some idx /\ slot_at q idx = Some s /\
      Z.of_nat (length (lane_of tg s)) < num_mem_servers_ q /\
      q' = set_slot idx (append (mkTaggedMessage tg d) s) q) \/
   (key_map_ q !! ExtractKey tg d = None /\ 0 < num_mem_servers_ q /\
    q' = set_slot (length (put_queues_ q)) (append (mkTaggedMessage tg d) fresh_slot)
           (push_slot (ExtractKey tg d) q))).
Proof.
  intros HI Henq. destruct (key_map_ q !! ExtractKey tg d) as [idx|] eqn:Hkey.
  - pose proof (inv_keys _ _ HI _ _ Hkey) as Hlt.
    destruct (slot_at_lt q idx (inv_lens _ _ HI) Hlt) as [s Hs].
    destruct (lookup_lt_is_Some_2 (key_locks_ q) idx) as [lk Hlk].
    { by rewrite (lens_locks _ (inv_lens _ _ HI)). }
    rewrite (Enqueue_known tg d q idx s lk Hkey Hs Hlk) in Henq.
    unfold enqueue_slot in Henq.
    destruct tg; try done.
    + destruct (Z.ltb_spec (Z.of_nat (length (s_put s))) (num_mem_servers_ q)); [|done].
      simplify_eq. split; [by left|]. left. by exists idx, s.
    + destruct (Z.ltb_spec (Z.of_nat (length (s_get s))) (num_mem_servers_ q)); [|done].
      simplify_eq. split; [by right|]. left. by exists idx, s.
  - rewrite (Enqueue_fresh tg d q Hkey (inv_lens _ _ HI)) in Henq.
    unfold enqueue_slot in Henq. simpl in Henq.
    destruct tg; try done;
      (destruct (Z.ltb_spec (Z.of_nat 0) (num_mem_servers_ q)); [|done]);
      simplify_eq; (split; [by eauto|]); right; (split; [done|split; [lia|done]]).
Qed.

Lemma set_slot_id (q : t) (i : nat) (s : slot) :
  slot_at q i = Some s -> set_slot i s q = q.
Proof.
  intros Hs. apply slot_at_Some in Hs as (Hp & Hg & Hc & Hi & Hf).
  destruct q; unfold set_slot; simpl in *. f_equal; by apply list_insert_id.
Qed.

Lemma drain_lanes (N : Z) (s : slot) :
  (length (s_put (drain N s).2) <= length (s_put s))%nat /\
  (length (s_get (drain N s).2) <= length (s_get s))%nat.
Proof.
  destruct s as [p g c ip f]. unfold drain. simpl. case_decide.
  - destruct p as [|m rest]; [simpl; lia|].
    destruct f; [simpl; lia|]. case_decide; simpl; lia.
  - destruct g as [|m rest]; [simpl; lia|]. case_decide; simpl; lia.
Qed.

Lemma drain_current (N : Z) (s : slot) :
  match current_lane s with
  | [] => drain N s = (None, s)
  | m :: _ => (drain N s).1 = Some m
  end.
Proof.
  unfold current_lane, drain. repeat (case_decide || case_match); by simplify_eq.
Qed.

(** *** Lanes never exceed their capacity *)

Lemma bounded_init (N : Z) : bounded (init N).
Proof. intros i s Hs. by rewrite slot_at_ge in Hs by (simpl; lia). Qed.

Lemma Enqueue_bounded (tg : MessageKind) (d : string) (q q' : t) (H : nat -> list MessageKind) :
  Inv q H -> bounded q -> Enqueue tg d q = Ok q' -> bounded q'.
Proof.
  intros HI Hb Henq.
  destruct (Enqueue_cases tg d q q' H HI Henq) as [Htg [(idx & s & Hkey & Hs & Hlt & ->)|(Hkey & HN & ->)]].
  - intros i s' Hs'. rewrite slot_at_set_slot in Hs'; [|apply HI|by eapply slot_at_bound].
    simpl. destruct (decide (idx = i)) as [->|Hne]; [|by apply (Hb i)].
    injection Hs' as <-. destruct (Hb i s Hs) as [Hp Hg].
    unfold append, lane_of in *. simpl.
    destruct Htg as [-> | ->]; simpl in *; rewrite ?length_app; simpl; lia.
  - intros i s' Hs'.
    rewrite slot_at_set_slot in Hs';
      [|by apply lens_push_slot, HI|simpl; rewrite length_app; simpl; lia].
    simpl. destruct (decide (length (put_queues_ q) = i)) as [<-|Hne].
    + injection Hs' as <-. unfold append. destruct Htg as [-> | ->]; simpl; lia.
    + rewrite slot_at_push_slot in Hs' by apply HI.
      rewrite decide_False in Hs' by done. by apply (Hb i).
Qed.

Lemma visit_bounded (q q' : t) (H : nat -> list MessageKind) (r : option TaggedMessage) :
  Inv q H -> bounded q -> visit q = Ok (r, q') -> bounded q'.
Proof.
  intros HI Hb Hv.
  destruct (visit_cases q q' H r HI Hv) as [(_ & _ & ->)|(s & Hs & _ & ->)]; [done|].
  intros i s' Hs'. rewrite slot_at_set_cursor in Hs'.
  rewrite slot_at_set_slot in Hs'; [|apply HI|by eapply slot_at_bound].
  simpl. destruct (decide (key_index_ q = i)) as [<-|Hne]; [|by apply (Hb i)].
  injection Hs' as <-. destruct (Hb _ s Hs) as [Hp Hg].
  pose proof (drain_lanes (num_mem_servers_ q) s). lia.
Qed.

Lemma run_bounded (evs : list event) :
  forall q H log q',
  0 < num_mem_servers_ q -> Inv q H -> bounded q ->
  run evs q = Ok (log, q') -> bounded q'.
Proof.
  induction evs as [|[tg d|] evs IH]; intros q H log q' HN HI Hb Hrun; simpl in Hrun.
  - by simplify_eq.
  - inv_bind Hrun. destruct (Enqueue_Inv _ _ _ _ _ HI Hbnd) as (HI1 & HN1 & _).
    pose proof (Enqueue_bounded _ _ _ _ _ HI Hb Hbnd) as Hb1.
    inv_bind Hrun. destruct bnd0 as [log1 q1]. simpl in Hrun.
    injection Hrun as -> ->.
    eapply (IH bnd H log q'); [lia|done|done|done].
  - destruct (visit_Inv q H HN HI) as (r & q1 & Hv & HI1 & HN1).
    pose proof (visit_bounded _ _ _ _ HI Hb Hv) as Hb1.
    rewrite Hv in Hrun. simpl in Hrun.
    inv_bind Hrun. destruct bnd as [log1 q2]. simpl in Hrun.
    injection Hrun as <- ->.
    eapply (IH q1 _ log1 q'); [lia|done|done|done].
Qed.

(** X5.  Lane capacity.  In every state the queue reaches with [N >= 1]
    memory servers, no PUT lane and no GET lane holds more than [N]
    envelopes. *)
Theorem async_lanes_bounded (N : Z) (evs : list event)
    (log : list (nat * TaggedMessage)) (q : t) (i : nat) (s : slot) :
  0 < N ->
  run evs (init N) = Ok (log, q) ->
  slot_at q i = Some s ->
  Z.of_nat (length (s_put s)) <= N /\ Z.of_nat (length (s_get s)) <= N.
Proof.
  intros HN Hrun Hs.
  destruct (run_Inv evs (init N) _ log q HN (Inv_init N) Hrun) as [_ HNq].
  pose proof (run_bounded evs (init N) _ log q HN (Inv_init N) (bounded_init N) Hrun i s Hs)
    as Hb.
  by rewrite HNq in Hb.
Qed.

(** *** The only ways a call ends *)



(** *** Slots and keys *)

Lemma run_key_map (evs : list event) :
  forall q H log q' k idx,
  0 < num_mem_servers_ q -> Inv q H ->
  run evs q = Ok (log, q') ->
  key_map_ q !! k = Some idx -> key_map_ q' !! k = Some idx.
Proof.
  induction evs as [|[tg d|] evs IH]; intros q H log q' k idx HN HI Hrun Hk; simpl in Hrun.
  - by simplify_eq.
  - inv_bind Hrun. destruct (Enqueue_Inv _ _ _ _ _ HI Hbnd) as (HI1 & HN1 & _).
    pose proof (Enqueue_key_map _ _ _ _ _ _ _ HI Hbnd Hk) as Hk1.
    inv_bind Hrun. destruct bnd0 as [log1 q1]. simpl in Hrun.
    injection Hrun as -> ->.
    eapply (IH bnd H log q'); [lia|done|done|done].
  - destruct (visit_Inv q H HN HI) as (r & q1 & Hv & HI1 & HN1).
    rewrite Hv in Hrun. simpl in Hrun.
    inv_bind Hrun. destruct bnd as [log1 q2]. simpl in Hrun.
    injection Hrun as <- ->.
    eapply (IH q1 _ log1 q'); [lia|done|done|].
    by destruct (visit_cases q q1 H r HI Hv) as [(_ & _ & ->)|(s & _ & _ & ->)].
Qed.

Lemma run_dom (evs : list event) :
  forall q H log q',
  0 < num_mem_servers_ q -> Inv q H ->
  size (key_map_ q) = length (put_queues_ q) ->
  run evs q = Ok (log, q') ->
  dom (key_map_ q') = dom (key_map_ q) ∪ list_to_set (enqueued_keys evs) /\
  size (key_map_ q') = length (put_queues_ q').
Proof.
  induction evs as [|[tg d|] evs IH]; intros q H log q' HN HI Hsize Hrun; simpl in Hrun.
  - simplify_eq. split; [|done]. unfold enqueued_keys. simpl. set_solver.
  - inv_bind Hrun. destruct (Enqueue_Inv _ _ _ _ _ HI Hbnd) as (HI1 & HN1 & _).
    inv_bind Hrun. destruct bnd0 as [log1 q1]. simpl in Hrun.
    injection Hrun as -> ->.
    assert (Hdom : dom (key_map_ bnd) = dom (key_map_ q) ∪ {[ExtractKey tg d]} /\
                   size (key_map_ bnd) = length (put_queues_ bnd)).
    { destruct (Enqueue_cases tg d q bnd H HI Hbnd)
        as [_ [(idx & s & Hkey & Hs & _ & ->)|(Hkey & _ & ->)]]; simpl.
      - rewrite length_insert. split; [|done].
        assert (ExtractKey tg d ∈ dom (key_map_ q)) by (apply elem_of_dom; eauto).
        set_solver.
      - rewrite length_insert, length_app, dom_insert_L. simpl.
        rewrite map_size_insert_None by done. split; [set_solver|lia]. }
    destruct Hdom as [Hdom Hsize1].
    destruct (IH bnd H log q' ltac:(lia) HI1 Hsize1 Hbnd0) as [Hd Hs'].
    split; [|done]. rewrite Hd, Hdom. unfold enqueued_keys. simpl. set_solver.
  - destruct (visit_Inv q H HN HI) as (r & q1 & Hv & HI1 & HN1).
    rewrite Hv in Hrun. simpl in Hrun.
    inv_bind Hrun. destruct bnd as [log1 q2]. simpl in Hrun.
    injection Hrun as <- ->.
    assert (Hsame : key_map_ q1 = key_map_ q /\
                    length (put_queues_ q1) = length (put_queues_ q)).
    { destruct (visit_cases q q1 H r HI Hv) as [(_ & _ & ->)|(s & _ & _ & ->)]; [done|].
      simpl. by rewrite length_insert. }
    destruct Hsame as [Hmap Hlen].
    destruct (IH q1 _ log1 q' ltac:(lia) HI1 ltac:(by rewrite Hmap, Hlen) Hbnd) as [Hd Hs'].
    split; [|done]. by rewrite Hd, Hmap.
Qed.

(** X7.  One slot per key, for good.  After any schedule that passes its
    checks, the keys with a slot are exactly the keys of the envelopes
    enqueued, the six vectors of the queue have one entry per such key,
    and a key keeps the slot it has along any further schedule. *)
Theorem async_slots_are_keys (N : Z) (evs more : list event)
    (log log' : list (nat * TaggedMessage)) (q q' : t) :
  0 < N ->
  run evs (init N) = Ok (log, q) ->
  run more q = Ok (log', q') ->
  dom (key_map_ q) = list_to_set (enqueued_keys evs) /\
  (length (put_queues_ q) = size (dom (key_map_ q)) /\ lens q) /\
  (forall k i, key_map_ q !! k = Some i ->
     key_map_ q' !! k = Some i /\ (i < length (put_queues_ q))%nat).
Proof.
  intros HN Hrun Hmore.
  destruct (run_Inv evs (init N) _ log q HN (Inv_init N) Hrun) as [HI HNq].
  simpl in HNq.
  destruct (run_dom evs (init N) _ log q HN (Inv_init N) eq_refl Hrun) as [Hd Hs].
  split; [rewrite Hd; simpl; set_solver|].
  split; [rewrite size_dom; split; [done|apply HI]|].
  intros k i Hk. split; [|by eapply inv_keys].
  eapply (run_key_map more q _ log' q'); [lia|done|done|done].
Qed.

(** *** Each lane is a FIFO *)

Lemma taken_app (tg : MessageKind) (i : nat) (l1 l2 : list (nat * TaggedMessage)) :
  taken tg i (l1 ++ l2) = taken tg i l1 ++ taken tg i l2.
Proof. unfold taken. by rewrite filter_app, fmap_app, filter_app. Qed.

Lemma taken_visit (tg : MessageKind) (i c : nat) (r : option TaggedMessage) :
  taken tg i (option_list (pair c <$> r)) =
  if decide (c = i) then filter (fun m => tag m = tg) (option_list r) else [].
Proof.
  destruct r as [m|]; simpl; [|by case_decide].
  unfold taken. rewrite filter_cons. simpl. by case_decide.
Qed.

Lemma enqueued_for_cons (tg : MessageKind) (k : string) (tg' : MessageKind) (d : string)
    (evs : list event) :
  enqueued_for tg k (EvEnqueue tg' d :: evs) =
  (if decide (tg' = tg /\ ExtractKey tg' d = k) then [mkTaggedMessage tg' d] else [])
    ++ enqueued_for tg k evs.
Proof. unfold enqueued_for. simpl. by case_decide. Qed.

Lemma lane_of_append (tg : MessageKind) (m : TaggedMessage) (s : slot) :
  tg = MTYPE_PUT_REQUEST \/ tg = MTYPE_GET_REQUEST ->
  tag m = MTYPE_PUT_REQUEST \/ tag m = MTYPE_GET_REQUEST ->
  lane_of tg (append m s) = lane_of tg s ++ (if decide (tag m = tg) then [m] else []).
Proof.
  intros [-> | ->] [Hm | Hm]; unfold lane_of, append; rewrite Hm; simpl;
    by rewrite ?app_nil_r.
Qed.

Lemma lane_of_drain (N : Z) (tg : MessageKind) (s : slot) :
  tg = MTYPE_PUT_REQUEST \/ tg = MTYPE_GET_REQUEST ->
  Forall (fun m => tag m = MTYPE_PUT_REQUEST) (s_put s) ->
  Forall (fun m => tag m = MTYPE_GET_REQUEST) (s_get s) ->
  lane_of tg s =
  filter (fun m => tag m = tg) (option_list (drain N s).1) ++ lane_of tg (drain N s).2.
Proof.
  intros Htg Hp Hg. unfold drain.
  destruct (decide (s_is_put s <> 0)).
  - destruct (s_put s) as [|m rest] eqn:Ep; [done|].
    apply Forall_cons in Hp as [Hm _].
    assert (Hl : lane_of tg s =
                 filter (fun m => tag m = tg) [m] ++
                 (if decide (tg = MTYPE_GET_REQUEST) then s_get s else rest)).
    { unfold lane_of. rewrite filter_cons, filter_nil, Hm, Ep.
      by destruct Htg as [-> | ->]. }
    rewrite Hl. unfold lane_of.
    destruct (s_first s); [|destruct (decide (s_counter s + 1 = N))]; simpl;
      by destruct (decide (tg = MTYPE_GET_REQUEST)).
  - destruct (s_get s) as [|m rest] eqn:Eg; [done|].
    apply Forall_cons in Hg as [Hm _].
    assert (Hl : lane_of tg s =
                 filter (fun m => tag m = tg) [m] ++
                 (if decide (tg = MTYPE_GET_REQUEST) then rest else s_put s)).
    { unfold lane_of. rewrite filter_cons, filter_nil, Hm, Eg.
      by destruct Htg as [-> | ->]. }
    rewrite Hl. unfold lane_of.
    destruct (decide (s_counter s + 1 = N)); simpl;
      by destruct (decide (tg = MTYPE_GET_REQUEST)).
Qed.

Lemma run_lane (tg : MessageKind) (k : string) (evs : list event) :
  tg = MTYPE_PUT_REQUEST \/ tg = MTYPE_GET_REQUEST ->
  forall q H log q' i,
  0 < num_mem_servers_ q -> Inv q H ->
  run evs q = Ok (log, q') ->
  key_map_ q' !! k = Some i ->
  (key_map_ q !! k = Some i \/
   (key_map_ q !! k = None /\ (length (put_queues_ q) <= i)%nat)) /\
  lane_at tg q i ++ enqueued_for tg k evs = taken tg i log ++ lane_at tg q' i.
Proof.
  intros Htg.
  induction evs as [|[tg' d|] evs IH]; intros q H log q' i HN HI Hrun Hk; simpl in Hrun.
  - simplify_eq. split; [by left|]. unfold enqueued_for, taken. simpl.
    by rewrite app_nil_r.
  - inv_bind Hrun. destruct (Enqueue_Inv _ _ _ _ _ HI Hbnd) as (HI1 & HN1 & _).
    inv_bind Hrun. destruct bnd0 as [log1 q1]. simpl in Hrun.
    injection Hrun as -> ->.
    destruct (IH bnd H log q' i ltac:(lia) HI1 Hbnd0 Hk) as [Horigin Hlane].
    rewrite enqueued_for_cons, app_assoc.
    destruct (Enqueue_cases tg' d q bnd H HI Hbnd)
      as [Htg' [(idx & s & Hkey & Hs & _ & ->)|(Hkey & _ & ->)]].
    + simpl in Horigin. rewrite length_insert in Horigin.
      split; [done|]. rewrite <- Hlane. f_equal.
      unfold lane_at. rewrite slot_at_set_slot; [|apply HI|by eapply slot_at_bound].
      pose proof (slot_at_bound _ _ _ Hs) as Hidx.
      destruct (decide (idx = i)) as [->|Hne].
      * rewrite Hs. simpl. rewrite lane_of_append by done. simpl. f_equal.
        assert (ExtractKey tg' d = k).
        { destruct Horigin as [Hki|[_ Hle]]; [|lia].
          exact (inv_inj _ _ HI _ _ _ Hkey Hki). }
        repeat case_decide; intuition congruence.
      * rewrite decide_False; [by rewrite app_nil_r|].
        intros [_ <-]. destruct Horigin as [Hki|[Hki _]]; congruence.
    + simpl in Horigin. rewrite length_insert, length_app in Horigin. simpl in Horigin.
      assert (Hslot : forall j,
                slot_at (set_slot (length (put_queues_ q))
                           (append (mkTaggedMessage tg' d) fresh_slot)
                           (push_slot (ExtractKey tg' d) q)) j =
                if decide (j = length (put_queues_ q))
                then Some (append (mkTaggedMessage tg' d) fresh_slot) else slot_at q j).
      { intros j. rewrite slot_at_set_slot;
          [|by apply lens_push_slot, HI|simpl; rewrite length_app; simpl; lia].
        rewrite slot_at_push_slot by apply HI.
        repeat case_decide; (done || lia). }
      destruct (decide (ExtractKey tg' d = k)) as [<-|Hne].
      * rewrite lookup_insert_eq in Horigin.
        destruct Horigin as [Hi|[? _]]; [|done]. injection Hi as <-.
        split; [right; split; [done|lia]|].
        rewrite <- Hlane. unfold lane_at. rewrite Hslot.
        destruct (decide (length (put_queues_ q) = length (put_queues_ q))); [|done].
        rewrite slot_at_ge by lia. simpl. rewrite lane_of_append by done. simpl.
        assert (lane_of tg fresh_slot = []) as -> by (by destruct Htg as [-> | ->]).
        simpl. repeat case_decide; intuition congruence.
      * rewrite lookup_insert_ne in Horigin by done.
        assert (i <> length (put_queues_ q)).
        { destruct Horigin as [Hki|[_ Hle]]; [|lia].
          pose proof (inv_keys _ _ HI _ _ Hki). lia. }
        split; [destruct Horigin as [?|[? ?]]; [by left|right; split; [done|lia]]|].
        rewrite <- Hlane. unfold lane_at. rewrite Hslot.
        destruct (decide (i = length (put_queues_ q))); [done|].
        rewrite decide_False; [by rewrite app_nil_r|]. by intros [_ ?].
  - destruct (visit_Inv q H HN HI) as (r & q1 & Hv & HI1 & HN1).
    rewrite Hv in Hrun. simpl in Hrun.
    inv_bind Hrun. destruct bnd as [log1 q2]. simpl in Hrun.
    injection Hrun as <- ->.
    destruct (IH q1 _ log1 q' i ltac:(lia) HI1 Hbnd Hk) as [Horigin Hlane].
    assert (enqueued_for tg k (EvVisit :: evs) = enqueued_for tg k evs) as -> by done.
    rewrite taken_app, taken_visit, <- app_assoc, <- Hlane.
    destruct (visit_cases q q1 H r HI Hv) as [(_ & -> & ->)|(s & Hs & -> & ->)].
    + split; [done|]. simpl. by case_decide.
    + simpl in Horigin. rewrite length_insert in Horigin. split; [done|].
      rewrite app_assoc. f_equal. unfold lane_at.
      rewrite slot_at_set_cursor, slot_at_set_slot; [|apply HI|by eapply slot_at_bound].
      destruct (decide (key_index_ q = i)) as [<-|Hne]; [|done].
      rewrite Hs. simpl.
      destruct (inv_slots _ _ HI _ _ Hs) as (Hp & Hg & _).
      by apply lane_of_drain.
Qed.

(** X8.  Each lane is a FIFO.  After any schedule that passes its checks,
    for a key [k] with slot [i]: the PUT envelopes enqueued for [k], in
    the order of their enqueues, are the PUT envelopes dequeued at slot
    [i], in the order of their dequeues, followed by what waits in the
    PUT lane; and the same for GET.  Nothing is lost, duplicated or
    reordered within a lane. *)
Theorem async_lane_fifo (N : Z) (evs : list event) (log : list (nat * TaggedMessage))
    (q : t) (tg : MessageKind) (k : string) (i : nat) (s : slot) :
  0 < N ->
  tg = MTYPE_PUT_REQUEST \/ tg = MTYPE_GET_REQUEST ->
  run evs (init N) = Ok (log, q) ->
  key_map_ q !! k = Some i ->
  slot_at q i = Some s ->
  enqueued_for tg k evs = taken tg i log ++ lane_of tg s.
Proof.
  intros HN Htg Hrun Hk Hs.
  destruct (run_lane tg k evs Htg (init N) _ log q i HN (Inv_init N) Hrun Hk) as [_ Hl].
  unfold lane_at in Hl. rewrite Hs in Hl. by rewrite slot_at_ge in Hl by (simpl; lia).
Qed.

(** *** Which envelope a call returns *)

Lemma NextRequest_first_ready (d : nat) :
  forall fuel q H m rest s,
  0 < num_mem_servers_ q -> Inv q H -> (d < fuel)%nat ->
  (forall j, (j < d)%nat ->
     exists sj, slot_at q ((key_index_ q + j) `mod` length (put_queues_ q))%nat = Some sj /\
                current_lane sj = []) ->
  slot_at q ((key_index_ q + d) `mod` length (put_queues_ q))%nat = Some s ->
  current_lane s = m :: rest ->
  NextRequest fuel q =
  Ok (Some m,
      set_cursor ((key_index_ q + d + 1) `mod` length (put_queues_ q))%nat
        (set_slot ((key_index_ q + d) `mod` length (put_queues_ q))%nat
           (drain (num_mem_servers_ q) s).2 q)).
Proof.
  induction d as [|d IH]; intros fuel q H m rest s HN HI Hfuel Hempty Hs Hcur;
    (destruct fuel as [|fuel]; [lia|]); simpl;
    pose proof (slot_at_bound _ _ _ Hs) as Hlt;
    (destruct (inv_cursor _ _ HI) as [Hc|[Hc _]];
       [|rewrite Hc in Hlt; simpl in Hlt; lia]);
    (destruct (lookup_lt_is_Some_2 (key_locks_ q) (key_index_ q)) as [lk Hlk];
       [by rewrite (lens_locks _ (inv_lens _ _ HI))|]).
  - rewrite Nat.add_0_r in *. rewrite (Nat.mod_small (key_index_ q)) in Hs |- * by done.
    rewrite (visit_drain q s lk Hs Hlk). simpl.
    pose proof (drain_current (num_mem_servers_ q) s) as Hd. rewrite Hcur in Hd.
    rewrite Hd. simpl. by rewrite (lens_get _ (inv_lens _ _ HI)).
  - destruct (Hempty 0%nat ltac:(lia)) as (s0 & Hs0 & Hcur0).
    rewrite Nat.add_0_r, Nat.mod_small in Hs0 by done.
    rewrite (visit_drain q s0 lk Hs0 Hlk). simpl.
    pose proof (drain_current (num_mem_servers_ q) s0) as Hd. rewrite Hcur0 in Hd.
    rewrite Hd. simpl. rewrite (set_slot_id q _ s0 Hs0).
    rewrite (lens_get _ (inv_lens _ _ HI)).
    set (c1 := ((key_index_ q + 1) `mod` length (put_queues_ q))%nat).
    assert (Hc1 : (c1 < length (put_queues_ q))%nat)
      by (apply Nat.mod_upper_bound; lia).
    assert (Hidx : forall j, ((c1 + j) `mod` length (put_queues_ q)
                              = (key_index_ q + S j) `mod` length (put_queues_ q))%nat).
    { intros j. unfold c1. rewrite Nat.Div0.add_mod_idemp_l. f_equal. lia. }
    rewrite (IH fuel (set_cursor c1 q) H m rest s); simpl.
    + rewrite <- (Nat.add_assoc c1 d 1), !Hidx.
      replace (key_index_ q + S (d + 1))%nat with (key_index_ q + S d + 1)%nat by lia.
      done.
    + done.
    + by apply Inv_set_cursor.
    + lia.
    + intros j Hj. rewrite Hidx. apply Hempty. lia.
    + by rewrite Hidx.
    + done.
Qed.

(** X9.  The scan of [NextRequest].  In a state the queue reaches with
    [N >= 1], let the slot [d] places after the cursor (cyclically) be
    the first whose current lane has an envelope waiting.  A call with
    more fuel than [d] returns the head of that lane; the slots passed
    over are left as they were, the slot served loses that head and
    updates its counter and lane, and the cursor ends on the slot after
    it. *)
Theorem async_next_is_first_ready (N : Z) (pre : list event)
    (log : list (nat * TaggedMessage)) (q : t) (fuel d : nat)
    (m : TaggedMessage) (rest : Queue) (s : slot) :
  0 < N ->
  run pre (init N) = Ok (log, q) ->
  (d < fuel)%nat ->
  (forall j, (j < d)%nat ->
     exists sj, slot_at q ((key_index_ q + j) `mod` length (put_queues_ q))%nat = Some sj /\
                current_lane sj = []) ->
  slot_at q ((key_index_ q + d) `mod` length (put_queues_ q))%nat = Some s ->
  current_lane s = m :: rest ->
  NextRequest fuel q =
  Ok (Some m,
      set_cursor ((key_index_ q + d + 1) `mod` length (put_queues_ q))%nat
        (set_slot ((key_index_ q + d) `mod` length (put_queues_ q))%nat
           (drain N s).2 q)).
Proof.
  intros HN Hrun Hfuel Hempty Hs Hcur.
  destruct (run_Inv pre (init N) _ log q HN (Inv_init N) Hrun) as [HI HNq].
  simpl in HNq. rewrite <- HNq.
  eapply NextRequest_first_ready; [lia|done|done|done|done|done].
Qed.

(** *** Schedules, keys and lanes *)











End Queue.

End AsyncRequestQueue.

(** ** The network thread: sends, the response pool, the processor *)

Module NetworkThread.

(** [struct RPCRequest].  The message is taken in its serialized form:
    [payload] is what [AppendToString] leaves in it.  The transport handle
    [mpi_req], [status] and [start_time] are the transport's and the
    clock's; they are not read by the code modelled here. *)
Record RPCRequest := mkRPCRequest {
  target : Z;
  rpc_type : MessageKind;
  failures : Z;
  payload : string
}.

(** [RPCRequest::RPCRequest]. *)
Definition new_RPCRequest (tgt : Z) (method : MessageKind) (ureq : string) : RPCRequest :=
  {| target := tgt; rpc_type := method; failures := 0; payload := ureq |}.

(** A line of the INFO log: "Send (id, target) of size n succeeded after
    f failures." *)
Record retry_entry := mkRetry { re_target : Z; re_size : nat; re_failures : Z }.

(** The response pool [response_queue_[type][source]]; a queue not yet
    touched is empty. *)
Definition Pool := MessageKind -> Z -> list string.

Definition set_queue (pool : Pool) (type : MessageKind) (src : Z) (kq : list string) : Pool :=
  fun type' src' => if decide (type' = type /\ src' = src) then kq else pool type' src'.

(** The part of [class NetworkThread] the sends and reads work on.
    [isend_log] records the calls of [world_->Isend], [info_log] the lines
    written with [LOG(INFO)] by [CollectActive]. *)
Record t := mk {
  size_ : Z;
  pending_sends_ : list RPCRequest;
  active_sends_ : list RPCRequest;
  response_queue_ : Pool;
  isend_log : list RPCRequest;
  info_log : list retry_entry
}.

Definition init (size : Z) : t :=
  {| size_ := size; pending_sends_ := []; active_sends_ := [];
     response_queue_ := fun _ _ => []; isend_log := []; info_log := [] |}.

(** [NetworkThread::Send(int dst, int method, const Message &msg)]. *)
Definition Send (dst : Z) (method : MessageKind) (msg : string) (n : t) : t :=
  {| size_ := size_ n;
     pending_sends_ := pending_sends_ n ++ [new_RPCRequest dst method msg];
     active_sends_ := active_sends_ n;
     response_queue_ := response_queue_ n;
     isend_log := isend_log n;
     info_log := info_log n |}.

(** [NetworkThread::Broadcast]: [for (int i = 0; i < size() - 1; ++i)]. *)
Definition Broadcast (method : MessageKind) (msg : string) (n : t) : t :=
  foldl (fun n i => Send (Z.of_nat i) method msg n) n (seq 0 (Z.to_nat (size_ n - 1))).

(** [MPI::ANY_SOURCE] or a rank. *)
Inductive Source := ANY_SOURCE | Rank (r : Z).

(** [NetworkThread::check_queue], with the payload it hands to [data]. *)
Definition check_queue (src : Z) (type : MessageKind) (pool : Pool) : option string * Pool :=
  match pool type src with
  | [] => (None, pool)
  | s0 :: rest => (Some s0, set_queue pool type src rest)
  end.

(** The loop of [TryRead] over the ranks, for [MPI::ANY_SOURCE]. *)
Fixpoint TryRead_ranks (ranks : list nat) (type : MessageKind) (pool : Pool)
  : option (Z * string) * Pool :=
  match ranks with
  | [] => (None, pool)
  | i :: ranks' =>
      match check_queue (Z.of_nat i) type pool with
      | (Some s0, pool') => (Some (Z.of_nat i, s0), pool')
      | (None, _) => TryRead_ranks ranks' type pool
      end
  end.

(** [NetworkThread::TryRead]: the source read from and the payload. *)
Definition TryRead (size : Z) (src : Source) (type : MessageKind) (pool : Pool)
  : option (Z * string) * Pool :=
  match src with
  | ANY_SOURCE => TryRead_ranks (seq 0 (Z.to_nat size)) type pool
  | Rank r =>
      match check_queue r type pool with
      | (Some s0, pool') => (Some (r, s0), pool')
      | (None, _) => (None, pool)
      end
  end.

(** What the network loop puts in the pool while a reader sleeps:
    [response_queue_[tag][source].push_back(data)]. *)
Record delivery := mkDelivery { d_tag : MessageKind; d_source : Z; d_data : string }.

Definition deliver (pool : Pool) (dl : delivery) : Pool :=
  set_queue pool (d_tag dl) (d_source dl) (pool (d_tag dl) (d_source dl) ++ [d_data dl]).

(** [NetworkThread::Read]: [while (!TryRead(...)) Sleep(...)].  [sched]
    lists, sleep after sleep, what arrives during it; [None] is a reader
    still waiting when nothing more arrives. *)
Fixpoint Read (size : Z) (src : Source) (type : MessageKind)
    (sched : list (list delivery)) (pool : Pool)
  : option ((Z * string) * Pool * list (list delivery)) :=
  match TryRead size src type pool with
  | (Some r, pool') => Some (r, pool', sched)
  | (None, _) =>
      match sched with
      | [] => None
      | arrived :: sched' => Read size src type sched' (foldl deliver pool arrived)
      end
  end.

(** [NetworkThread::WaitForSync]: [count] reads from any source; yields
    what was read, in order. *)
Fixpoint WaitForSync_loop (size : Z) (reply : MessageKind) (count : nat)
    (sched : list (list delivery)) (pool : Pool)
  : option (list (Z * string) * Pool * list (list delivery)) :=
  match count with
  | O => Some ([], pool, sched)
  | S count' =>
      match Read size ANY_SOURCE reply sched pool with
      | None => None
      | Some (r, pool', sched') =>
          match WaitForSync_loop size reply count' sched' pool' with
          | None => None
          | Some (rs, pool'', sched'') => Some (r :: rs, pool'', sched'')
          end
      end
  end.

Definition WaitForSync (reply : MessageKind) (count : Z)
    (sched : list (list delivery)) (n : t)
  : option (list (Z * string) * t * list (list delivery)) :=
  match WaitForSync_loop (size_ n) reply (Z.to_nat count) sched (response_queue_ n) with
  | None => None
  | Some (rs, pool, sched') =>
      Some (rs,
            {| size_ := size_ n;
               pending_sends_ := pending_sends_ n;
               active_sends_ := active_sends_ n;
               response_queue_ := pool;
               isend_log := isend_log n;
               info_log := info_log n |},
            sched')
  end.

(** [NetworkThread::SyncBroadcast]. *)
Definition SyncBroadcast (method reply : MessageKind) (msg : string)
    (sched : list (list delivery)) (n : t)
  : option (list (Z * string) * t * list (list delivery)) :=
  let n1 := Broadcast method msg n in
  WaitForSync reply (size_ n1 - 1) sched n1.

(** The payloads read from source [src], in order. *)
Definition from_source (src : Z) (rs : list (Z * string)) : list string :=
  snd <$> filter (fun r => r.1 = src) rs.

(** The payloads delivered for kind [type] from source [src], in order. *)
Definition delivered (type : MessageKind) (src : Z) (dls : list delivery) : list string :=
  d_data <$> filter (fun dl => d_tag dl = type /\ d_source dl = src) dls.

(** *** The send half of the network loop *)

(** What the transport answers to [mpi_req.Test(status)] for a record: the
    completion flag, and the error class it leaves in [status]
    (0 is MPI_SUCCESS).  [RPCRequest::finished] returns the flag; nothing
    reads [status]. *)
Definition Transport := RPCRequest -> bool * Z.

(** [RPCRequest::finished]. *)
Definition finished (test : Transport) (r : RPCRequest) : bool := (test r).1.

(** "push the send queue through": every pending record is handed to
    [Isend] and becomes active. *)
Definition push_sends (n : t) : t :=
  {| size_ := size_ n;
     pending_sends_ := [];
     active_sends_ := active_sends_ n ++ pending_sends_ n;
     response_queue_ := response_queue_ n;
     isend_log := isend_log n ++ pending_sends_ n;
     info_log := info_log n |}.

(** The loop of [CollectActive] over the active records (an unordered set
    in the source, listed here in the order of insertion): the records
    kept, and the lines logged. *)
Fixpoint collect (test : Transport) (rs : list RPCRequest)
  : list RPCRequest * list retry_entry :=
  match rs with
  | [] => ([], [])
  | r :: rs' =>
      let '(kept, lines) := collect test rs' in
      if finished test r then
        ((kept : list RPCRequest),
         (if 0 <? failures r
          then [mkRetry (target r) (String.length (payload r)) (failures r)]
          else []) ++ lines)
      else (r :: kept, lines)
  end.

(** [NetworkThread::CollectActive]. *)
Definition CollectActive (test : Transport) (n : t) : t :=
  match active_sends_ n with
  | [] => n
  | _ =>
      let '(kept, lines) := collect test (active_sends_ n) in
      {| size_ := size_ n;
         pending_sends_ := pending_sends_ n;
         active_sends_ := kept;
         response_queue_ := response_queue_ n;
         isend_log := isend_log n;
         info_log := info_log n ++ lines |}
  end.

(** The send half of one iteration of [NetworkThread::NetworkLoop]. *)
Definition NetworkLoop_sends (test : Transport) (n : t) : t :=
  CollectActive test (push_sends n).

(** Callers send while the loop runs; each iteration meets the transport
    in some state. *)
Inductive net_event :=
  | EvSend (dst : Z) (method : MessageKind) (msg : string)
  | EvLoop (test : Transport).

(** One event, and a list of them from left to right. *)
Definition net_step (n : t) (e : net_event) : t :=
  match e with
  | EvSend dst method msg => Send dst method msg n
  | EvLoop test => NetworkLoop_sends test n
  end.

Definition net_run (evs : list net_event) (n : t) : t := foldl net_step n evs.

(** The records the callers created, in order. *)
Definition created (evs : list net_event) : list RPCRequest :=
  omap (fun e => match e with
                 | EvSend dst method msg => Some (new_RPCRequest dst method msg)
                 | EvLoop _ => None
                 end) evs.

(** *** The request processor *)

Section Processor.

Variables HashGet TableData : Type.
Variable HashGet_ParseFromArray : string -> HashGet * bool.
Variable TableData_ParseFromArray : string -> TableData * bool.

(** The registered handlers return into [R]. *)
Variable R : Type.

(** [Message]: the two classes the processor instantiates. *)
Inductive Message :=
  | MsgHashGet (m : HashGet)
  | MsgTableData (m : TableData).

(** [NetworkThread::ProcessRequest].  [handles_[tag]] is [None] while no
    handler is registered.  The boolean that [ParseFromArray] returns is
    computed and dropped, as in the source. *)
Definition ProcessRequest (handles_ : MessageKind -> option (Message -> R))
    (t_msg : TaggedMessage) : outcome R :=
  parse ← (if decide (tag t_msg = MTYPE_GET_REQUEST) then
             Ok (fun d => let r := HashGet_ParseFromArray d in (MsgHashGet r.1, r.2))
           else
             _ ← CHECK_EQ_put (tag t_msg);
             Ok (fun d => let r := TableData_ParseFromArray d in (MsgTableData r.1, r.2)));
  let '(message, _) := (parse : string -> Message * bool) (data t_msg) in
  match handles_ (tag t_msg) with
  | Some handle => Ok (handle message)
  | None => Abort BadFunctionCall
  end.

End Processor.

(** What holds while the network thread runs: [c] is the list of the
    records created so far. *)
Record net_inv (n : t) (c : list RPCRequest) : Prop := {
  ni_failures : forall r, r ∈ pending_sends_ n ++ active_sends_ n -> failures r = 0;
  ni_log : info_log n = [];
  ni_once : isend_log n ++ pending_sends_ n = c
}.

(** *** Broadcast *)

Lemma Broadcast_fold (method : MessageKind) (msg : string) (ranks : list nat) :
  forall n,
  let n' := foldl (fun n i => Send (Z.of_nat i) method msg n) n ranks in
  pending_sends_ n' =
    pending_sends_ n ++ ((fun i => new_RPCRequest (Z.of_nat i) method msg) <$> ranks) /\
  size_ n' = size_ n /\ active_sends_ n' = active_sends_ n /\
  response_queue_ n' = response_queue_ n /\
  isend_log n' = isend_log n /\ info_log n' = info_log n.
Proof.
  induction ranks as [|i ranks IH]; intros n; simpl.
  - by rewrite app_nil_r.
  - destruct (IH (Send (Z.of_nat i) method msg n)) as (-> & -> & -> & -> & -> & ->).
    simpl. by rewrite <- app_assoc.
Qed.

(** The sends a broadcast adds, by target. *)
Lemma Broadcast_targets (method : MessageKind) (msg : string) (k : nat) (i : Z) :
  filter (fun r => target r = i)
         ((fun j => new_RPCRequest (Z.of_nat j) method msg) <$> seq 0 k) =
  if decide (0 <= i < Z.of_nat k) then [new_RPCRequest i method msg] else [].
Proof.
  induction k as [|k IH].
  - simpl. rewrite decide_False by lia. done.
  - rewrite seq_S, fmap_app, filter_app, IH. simpl.
    rewrite filter_cons, filter_nil. simpl.
    destruct (decide (Z.of_nat k = i)) as [<-|Hne].
    + rewrite decide_False by lia. rewrite decide_True by lia. done.
    + destruct (decide (0 <= i < Z.of_nat k)).
      * rewrite decide_True by lia. done.
      * rewrite decide_False by lia. done.
Qed.

(** *** The response pool *)

Lemma delivered_app (type : MessageKind) (src : Z) (l1 l2 : list delivery) :
  delivered type src (l1 ++ l2) = delivered type src l1 ++ delivered type src l2.
Proof. unfold delivered. by rewrite filter_app, fmap_app. Qed.

Lemma foldl_deliver (dls : list delivery) :
  forall pool type src,
  foldl deliver pool dls type src = pool type src ++ delivered type src dls.
Proof.
  induction dls as [|dl dls IH]; intros pool type src; simpl.
  - unfold delivered. simpl. by rewrite app_nil_r.
  - rewrite IH. change (dl :: dls) with ([dl] ++ dls). rewrite delivered_app, app_assoc.
    f_equal. unfold deliver, set_queue, delivered. rewrite filter_cons, filter_nil.
    destruct (decide (type = d_tag dl /\ src = d_source dl)) as [[-> ->]|Hne].
    + rewrite decide_True by done. done.
    + rewrite decide_False by (intros [? ?]; apply Hne; done). simpl.
      by rewrite app_nil_r.
Qed.

Lemma check_queue_Some (src : Z) (type : MessageKind) (pool pool' : Pool) (s0 : string) :
  check_queue src type pool = (Some s0, pool') ->
  forall type' src',
    (if decide (type' = type /\ src' = src) then [s0] else []) ++ pool' type' src' =
    pool type' src'.
Proof.
  unfold check_queue. destruct (pool type src) as [|x rest] eqn:E; [done|].
  intros [= <- <-] type' src'. unfold set_queue.
  destruct (decide (type' = type /\ src' = src)) as [[-> ->]|Hne]; simpl; [|done].
  by rewrite E.
Qed.

Lemma check_queue_None (src : Z) (type : MessageKind) (pool pool' : Pool) :
  check_queue src type pool = (None, pool') -> pool' = pool /\ pool type src = [].
Proof.
  unfold check_queue. destruct (pool type src) as [|x rest] eqn:E; [|done].
  by intros [= <-].
Qed.

Lemma TryRead_ranks_Some (ranks : list nat) (type : MessageKind) (pool pool' : Pool)
    (src : Z) (s0 : string) :
  TryRead_ranks ranks type pool = (Some (src, s0), pool') ->
  (exists i, i ∈ ranks /\ src = Z.of_nat i) /\
  forall type' src',
    (if decide (type' = type /\ src' = src) then [s0] else []) ++ pool' type' src' =
    pool type' src'.
Proof.
  induction ranks as [|i ranks IH]; simpl; [done|].
  destruct (check_queue (Z.of_nat i) type pool) as [[x|] p] eqn:E.
  - intros [= <- <- <-]. split; [exists i; split; [by left|done]|].
    by apply check_queue_Some.
  - intros Hr. destruct (IH Hr) as [(j & Hj & ->) Hacc]. split; [|done].
    exists j. split; [by right|done].
Qed.

Lemma TryRead_ranks_None (ranks : list nat) (type : MessageKind) (pool pool' : Pool) :
  TryRead_ranks ranks type pool = (None, pool') ->
  pool' = pool /\ forall i, i ∈ ranks -> pool type (Z.of_nat i) = [].
Proof.
  induction ranks as [|i ranks IH]; simpl.
  - intros [= <-]. split; [done|]. intros i Hi. by apply elem_of_nil in Hi.
  - destruct (check_queue (Z.of_nat i) type pool) as [[x|] p] eqn:E; [done|].
    intros Hr. destruct (IH Hr) as [-> Hall]. split; [done|].
    intros j Hj. apply elem_of_cons in Hj as [->|Hj]; [|eauto].
    by apply check_queue_None in E as [_ E].
Qed.

(** A read from any source takes one payload of the kind asked for, from
    the head of the queue of a rank below [size]; everything else in the
    pool is what was there and what arrived meanwhile. *)
Lemma Read_any (sched : list (list delivery)) :
  forall size type pool src s0 pool' sched',
  Read size ANY_SOURCE type sched pool = Some ((src, s0), pool', sched') ->
  0 <= src < size /\
  exists used, sched = used ++ sched' /\
    forall type' src',
      (if decide (type' = type /\ src' = src) then [s0] else []) ++ pool' type' src' =
      pool type' src' ++ delivered type' src' (concat used).
Proof.
  induction sched as [|arrived sched IH]; intros size type pool src s0 pool' sched' Hr;
    simpl in Hr.
  - destruct (TryRead_ranks (seq 0 (Z.to_nat size)) type pool) as [[[src1 s1]|] p] eqn:E;
      [|done].
    injection Hr as -> -> -> <-.
    apply TryRead_ranks_Some in E as [(i & Hi & ->) Hacc].
    apply elem_of_seq in Hi. split; [lia|].
    exists []. split; [done|]. intros type' src'. rewrite Hacc.
    unfold delivered. simpl. by rewrite app_nil_r.
  - destruct (TryRead_ranks (seq 0 (Z.to_nat size)) type pool) as [[[src1 s1]|] p] eqn:E.
    + injection Hr as -> -> -> <-.
      apply TryRead_ranks_Some in E as [(i & Hi & ->) Hacc].
      apply elem_of_seq in Hi. split; [lia|].
      exists []. split; [done|]. intros type' src'. rewrite Hacc.
      unfold delivered. simpl. by rewrite app_nil_r.
    + apply IH in Hr as [Hsrc (used & -> & Hacc)]. split; [done|].
      exists (arrived :: used). split; [done|]. intros type' src'.
      rewrite Hacc, foldl_deliver. simpl. by rewrite delivered_app, app_assoc.
Qed.

Lemma from_source_cons (src src' : Z) (s0 : string) (rs : list (Z * string)) :
  from_source src' ((src, s0) :: rs) =
  (if decide (src = src') then [s0] else []) ++ from_source src' rs.
Proof.
  unfold from_source. rewrite filter_cons. simpl. by destruct (decide (src = src')).
Qed.

(** [count] reads from any source: exactly [count] payloads of the reply
    kind leave the pool, each from the head of the queue of its source. *)
Lemma WaitForSync_loop_spec (count : nat) :
  forall size reply sched pool rs pool' sched',
  WaitForSync_loop size reply count sched pool = Some (rs, pool', sched') ->
  length rs = count /\
  (forall r, r ∈ rs -> 0 <= r.1 < size) /\
  exists used, sched = used ++ sched' /\
    forall type src,
      (if decide (type = reply) then from_source src rs else []) ++ pool' type src =
      pool type src ++ delivered type src (concat used).
Proof.
  induction count as [|count IH]; intros size reply sched pool rs pool' sched' Hw;
    simpl in Hw.
  - injection Hw as <- <- <-. split; [done|]. split; [by intros r Hr; apply elem_of_nil in Hr|].
    exists []. split; [done|]. intros type src. unfold delivered, from_source. simpl.
    rewrite app_nil_r. by destruct (decide (type = reply)).
  - destruct (Read size ANY_SOURCE reply sched pool) as [[[[src1 s1] pool1] sched1]|] eqn:Hr;
      [|done].
    destruct (WaitForSync_loop size reply count sched1 pool1) as [[[rs1 pool2] sched2]|] eqn:Hw1;
      [|done].
    injection Hw as <- <- <-.
    apply Read_any in Hr as [Hsrc (used1 & -> & Hacc1)].
    apply IH in Hw1 as (Hlen & Hranks & used2 & -> & Hacc2).
    split; [simpl; lia|]. split.
    { intros r Hin. apply elem_of_cons in Hin as [->|Hin]; [done|eauto]. }
    exists (used1 ++ used2). split; [by rewrite app_assoc|].
    intros type src. rewrite concat_app, delivered_app, app_assoc, <- Hacc1.
    rewrite <- app_assoc, <- Hacc2.
    destruct (decide (type = reply)) as [->|Hne].
    + rewrite from_source_cons. rewrite <- !app_assoc. f_equal.
      destruct (decide (src1 = src)) as [->|Hs].
      * by rewrite decide_True.
      * rewrite decide_False; [done|]. intros [_ ->]. done.
    + rewrite decide_False; [done|]. intros [-> _]. done.
Qed.

(** A read from any source succeeds at once when some rank below [size]
    has a payload waiting; it takes from the lowest such rank. *)
Lemma TryRead_ranks_lowest (ranks : list nat) (type : MessageKind) (pool : Pool) (j : nat) :
  j ∈ ranks -> pool type (Z.of_nat j) <> [] ->
  exists i s0 pool',
    TryRead_ranks ranks type pool = (Some (Z.of_nat i, s0), pool') /\
    i ∈ ranks /\
    (forall type' src', src' <> Z.of_nat i -> pool' type' src' = pool type' src').
Proof.
  induction ranks as [|i ranks IH]; intros Hj Hne; [by apply elem_of_nil in Hj|].
  simpl. unfold check_queue.
  destruct (pool type (Z.of_nat i)) as [|x rest] eqn:E.
  - apply elem_of_cons in Hj as [->|Hj]; [done|].
    destruct (IH Hj Hne) as (i' & s0 & pool' & -> & Hi' & Hsame).
    exists i', s0, pool'. split; [done|]. split; [by right|done].
  - exists i, x, (set_queue pool type (Z.of_nat i) rest).
    split; [done|]. split; [by left|].
    intros type' src' Hsrc. unfold set_queue. rewrite decide_False; [done|].
    intros [_ ?]. done.
Qed.

Lemma WaitForSync_loop_returns (count : nat) :
  forall k size reply sched pool,
  (Z.of_nat (k + count) <= size) ->
  (forall i, (k <= i < k + count)%nat -> pool reply (Z.of_nat i) <> []) ->
  is_Some (WaitForSync_loop size reply count sched pool).
Proof.
  induction count as [|count IH]; intros k size reply sched pool Hsize Hall; simpl; [eauto|].
  destruct (TryRead_ranks_lowest (seq 0 (Z.to_nat size)) reply pool k)
    as (i & s0 & pool' & Htry & Hi & Hsame).
  { apply elem_of_seq. lia. }
  { apply Hall. lia. }
  assert (Hi' : (i <= k)%nat).
  { destruct (decide (i <= k)%nat) as [|Hgt]; [done|exfalso].
    assert (Hsplit : exists l1 l2, seq 0 (Z.to_nat size) = l1 ++ i :: l2 /\ k ∈ l1).
    { exists (seq 0 i), (seq (S i) (Z.to_nat size - S i)). split.
      - apply elem_of_seq in Hi.
        replace (Z.to_nat size) with (i + S (Z.to_nat size - S i))%nat at 1 by lia.
        by rewrite seq_app.
      - apply elem_of_seq. lia. }
    destruct Hsplit as (l1 & l2 & Hseq & Hk).
    rewrite Hseq in Htry.
    assert (Hpre : forall l, k ∈ l ->
              exists i' s1 p1, TryRead_ranks (l ++ i :: l2) reply pool = (Some (Z.of_nat i', s1), p1)
                               /\ i' ∈ l).
    { induction l as [|a l IHl]; intros Hin; [by apply elem_of_nil in Hin|].
      simpl. unfold check_queue.
      destruct (pool reply (Z.of_nat a)) as [|x rest] eqn:Ea.
      - apply elem_of_cons in Hin as [->|Hin]; [exfalso; apply (Hall a); [lia|done]|].
        destruct (IHl Hin) as (i' & s1 & p1 & -> & Hi'').
        exists i', s1, p1. split; [done|by right].
      - exists a, x, (set_queue pool reply (Z.of_nat a) rest). split; [done|by left]. }
    destruct (Hpre l1 Hk) as (i' & s1 & p1 & Htry' & Hin').
    rewrite Htry in Htry'. injection Htry' as Heq _ _.
    assert (i = i') by lia. subst i'.
    assert (Hnd : NoDup (l1 ++ i :: l2)) by (rewrite <- Hseq; apply NoDup_seq).
    apply NoDup_app in Hnd as (_ & Hdis & _). apply (Hdis i Hin'). by left. }
  destruct sched as [|arrived sched]; simpl; rewrite Htry.
  - destruct (IH (S k) size reply [] pool') as [[[rs p] sc] ->]; [lia| |eauto].
    intros j Hj. rewrite Hsame by lia. apply Hall. lia.
  - destruct (IH (S k) size reply (arrived :: sched) pool') as [[[rs p] sc] ->]; [lia| |eauto].
    intros j Hj. rewrite Hsame by lia. apply Hall. lia.
Qed.

(** C7. Broadcast and sync-broadcast.  [Broadcast] appends to the pending
    sends exactly one send record for every peer [0 .. size-2], of the
    given kind and payload, and none for any other target, so none for
    the coordinator [size-1].  When [SyncBroadcast] returns it has made
    that broadcast and has read exactly [size-1] payloads of the reply
    kind out of the response pool, each from the head of the queue of a
    peer, with everything else in the pool left as it was or as it arrived
    meanwhile.  It does return when every peer [0 .. size-2] has a reply
    in the pool. *)
Theorem broadcast_and_sync (method reply : MessageKind) (msg : string) (n : t) :
  (exists sends,
     pending_sends_ (Broadcast method msg n) = pending_sends_ n ++ sends /\
     response_queue_ (Broadcast method msg n) = response_queue_ n /\
     forall i, filter (fun r => target r = i) sends =
               if decide (0 <= i <= size_ n - 2) then [new_RPCRequest i method msg] else []) /\
  (forall sched rs n' sched',
     SyncBroadcast method reply msg sched n = Some (rs, n', sched') ->
     pending_sends_ n' = pending_sends_ (Broadcast method msg n) /\
     Z.of_nat (length rs) = Z.max 0 (size_ n - 1) /\
     (forall r, r ∈ rs -> 0 <= r.1 < size_ n) /\
     exists used, sched = used ++ sched' /\
       forall type src,
         (if decide (type = reply) then from_source src rs else [])
           ++ response_queue_ n' type src =
         response_queue_ n type src ++ delivered type src (concat used)) /\
  (forall sched,
     (forall i, 0 <= i < size_ n - 1 -> response_queue_ n reply i <> []) ->
     is_Some (SyncBroadcast method reply msg sched n)).
Proof.
  pose proof (Broadcast_fold method msg (seq 0 (Z.to_nat (size_ n - 1))) n) as Hb.
  simpl in Hb. fold (Broadcast method msg n) in Hb.
  destruct Hb as (Hpend & Hsize & _ & Hpool & _ & _).
  split; [|split].
  - eexists. split; [exact Hpend|]. split; [exact Hpool|].
    intros i. rewrite Broadcast_targets.
    destruct (decide (0 <= i <= size_ n - 2)).
    + rewrite decide_True by lia. done.
    + rewrite decide_False by lia. done.
  - intros sched rs n' sched' Hs. unfold SyncBroadcast, WaitForSync in Hs.
    rewrite Hsize, Hpool in Hs.
    destruct (WaitForSync_loop (size_ n) reply (Z.to_nat (size_ n - 1)) sched (response_queue_ n))
      as [[[rs1 pool1] sched1]|] eqn:Hw; [|done].
    injection Hs as <- <- <-. simpl.
    apply WaitForSync_loop_spec in Hw as (Hlen & Hranks & Hacc).
    split; [done|]. split; [lia|]. split; done.
  - intros sched Hall. unfold SyncBroadcast, WaitForSync. rewrite Hsize, Hpool.
    destruct (decide (size_ n - 1 <= 0)) as [Hle|Hgt].
    { rewrite Z2Nat.nonpos by done. simpl. eauto. }
    destruct (WaitForSync_loop_returns (Z.to_nat (size_ n - 1)) 0 (size_ n) reply sched
                (response_queue_ n)) as [[[rs p] sc] ->]; [lia| |eauto].
    intros i Hi. apply Hall. lia.
Qed.

(** *** No retry, no count of failures *)

Lemma collect_kept (test : Transport) (rs : list RPCRequest) :
  (collect test rs).1 = filter (fun r => finished test r = false) rs.
Proof.
  induction rs as [|r rs IH]; [done|]. simpl.
  destruct (collect test rs) as [kept lines]. simpl in IH. rewrite filter_cons.
  destruct (finished test r); simpl; by rewrite IH.
Qed.

Lemma collect_silent (test : Transport) (rs : list RPCRequest) :
  (forall r, r ∈ rs -> failures r = 0) -> (collect test rs).2 = [].
Proof.
  induction rs as [|r rs IH]; intros Hall; [done|]. simpl.
  destruct (collect test rs) as [kept lines]. simpl in IH.
  rewrite IH by (intros r' Hr'; apply Hall; by right).
  destruct (finished test r); simpl; [|done].
  rewrite (Hall r) by (by left). done.
Qed.

Lemma net_step_inv (n : t) (c : list RPCRequest) (e : net_event) :
  net_inv n c -> net_inv (net_step n e) (c ++ created [e]).
Proof.
  intros [Hf Hl Ho]. destruct e as [dst method msg|test]; simpl.
  - split; simpl; [|done|by rewrite app_assoc, Ho].
    intros r Hr. rewrite <- app_assoc in Hr.
    apply elem_of_app in Hr as [Hr|Hr]; [apply Hf, elem_of_app; by left|].
    apply elem_of_app in Hr as [Hr|Hr]; [|apply Hf, elem_of_app; by right].
    apply list_elem_of_singleton in Hr. by subst r.
  - unfold created. simpl. rewrite app_nil_r.
    unfold NetworkLoop_sends, CollectActive. simpl.
    destruct (active_sends_ n ++ pending_sends_ n) as [|r0 rs0] eqn:E.
    { apply app_eq_nil in E as [E1 E2]. split; simpl.
      - rewrite E1, E2. intros r Hr. by apply elem_of_nil in Hr.
      - done.
      - rewrite app_nil_r. done. }
    rewrite <- E.
    pose proof (collect_kept test (active_sends_ n ++ pending_sends_ n)) as Hk.
    pose proof (collect_silent test (active_sends_ n ++ pending_sends_ n)) as Hs.
    destruct (collect test (active_sends_ n ++ pending_sends_ n)) as [kept lines].
    simpl in Hk, Hs. split; simpl.
    + intros r Hr. rewrite Hk in Hr. apply list_elem_of_filter in Hr as [_ Hr].
      apply Hf. apply elem_of_app in Hr as [Hr|Hr]; apply elem_of_app; eauto.
    + rewrite Hl, Hs; [done|]. intros r Hr. apply Hf.
      apply elem_of_app in Hr as [Hr|Hr]; apply elem_of_app; eauto.
    + by rewrite app_nil_r.
Qed.

Lemma created_cons (e : net_event) (evs : list net_event) :
  created (e :: evs) = created [e] ++ created evs.
Proof. by destruct e. Qed.

Lemma net_run_inv (evs : list net_event) :
  forall n c, net_inv n c -> net_inv (net_run evs n) (c ++ created evs).
Proof.
  induction evs as [|e evs IH]; intros n c Hinv.
  - unfold created. simpl. by rewrite app_nil_r.
  - rewrite created_cons, app_assoc. simpl. by apply IH, net_step_inv.
Qed.

(** The amended C6.  Whatever the transport answers, errors included: a
    send record is created with [failures = 0] and nothing changes it, so
    every record pending or in flight has a zero count and no line about
    retries is ever logged; and every record created is handed to the
    transport once, in the order of creation, never again. *)
Theorem transport_errors_not_counted (size : Z) (evs : list net_event) :
  (forall r, r ∈ pending_sends_ (net_run evs (init size))
                 ++ active_sends_ (net_run evs (init size)) -> failures r = 0) /\
  info_log (net_run evs (init size)) = [] /\
  isend_log (net_run evs (init size)) ++ pending_sends_ (net_run evs (init size))
    = created evs.
Proof.
  assert (H0 : net_inv (init size) []).
  { split; simpl; [|done|done]. intros r Hr. by apply elem_of_nil in Hr. }
  destruct (net_run_inv evs _ _ H0) as [Hf Hl Ho]. done.
Qed.

(** *** Parsing in the processor *)

(** The amended C9.  The processor drops the result of the parse: for a
    GET_REQUEST or PUT_REQUEST envelope with a registered handler, the
    handler is invoked on the message object as the parser left it,
    whether the parse succeeded or not.  The processor aborts only on a
    tag that is neither (the CHECK_EQ on the tag), or on a missing
    handler. *)
Theorem process_request_ignores_parse (HashGet TableData R : Type)
    (HashGet_ParseFromArray : string -> HashGet * bool)
    (TableData_ParseFromArray : string -> TableData * bool)
    (handles_ : MessageKind -> option (Message HashGet TableData -> R))
    (t_msg : TaggedMessage) :
  ProcessRequest HashGet TableData HashGet_ParseFromArray TableData_ParseFromArray R
    handles_ t_msg =
  match tag t_msg with
  | MTYPE_GET_REQUEST =>
      match handles_ MTYPE_GET_REQUEST with
      | Some handle =>
          Ok (handle (MsgHashGet HashGet TableData (HashGet_ParseFromArray (data t_msg)).1))
      | None => Abort BadFunctionCall
      end
  | MTYPE_PUT_REQUEST =>
      match handles_ MTYPE_PUT_REQUEST with
      | Some handle =>
          Ok (handle (MsgTableData HashGet TableData (TableData_ParseFromArray (data t_msg)).1))
      | None => Abort BadFunctionCall
      end
  | other => Abort (CHECK_EQ_failed other)
  end.
Proof.
  unfold ProcessRequest. destruct t_msg as [tg d]. simpl.
  destruct tg; simpl; reflexivity.
Qed.

(** *** The send pump *)

Lemma NetworkLoop_sends_fields (test : Transport) (n : t) :
  pending_sends_ (NetworkLoop_sends test n) = [] /\
  active_sends_ (NetworkLoop_sends test n) =
    filter (fun r => finished test r = false) (active_sends_ n ++ pending_sends_ n) /\
  isend_log (NetworkLoop_sends test n) = isend_log n ++ pending_sends_ n.
Proof.
  unfold NetworkLoop_sends, CollectActive, push_sends. simpl.
  pose proof (collect_kept test (active_sends_ n ++ pending_sends_ n)) as Hk.
  destruct (active_sends_ n ++ pending_sends_ n) as [|x xs]; [done|].
  destruct (collect test (x :: xs)) as [kept lines]. simpl in *. by subst.
Qed.

Lemma net_run_active (evs : list net_event) :
  forall n,
  (forall r, r ∈ active_sends_ n -> r ∈ isend_log n) ->
  forall r, r ∈ active_sends_ (net_run evs n) -> r ∈ isend_log (net_run evs n).
Proof.
  induction evs as [|e evs IH]; intros n Hin; [done|].
  simpl. apply IH. destruct e as [dst method msg|test]; simpl; [done|].
  destruct (NetworkLoop_sends_fields test n) as (_ & -> & ->).
  intros r Hr. apply list_elem_of_filter in Hr as [_ Hr].
  apply elem_of_app in Hr as [Hr|Hr]; apply elem_of_app; [left; by apply Hin|by right].
Qed.

(** X15.  The send pump.  After any schedule of sends and loop
    iterations, one more iteration leaves nothing pending: every pending
    record is handed to [Isend], in order, and the records in flight
    afterwards are exactly those in flight or pending before that the
    transport does not report finished, in order.  At all times a record
    in flight is one that was handed to [Isend]. *)
Theorem send_pump (size : Z) (evs : list net_event) (test : Transport) :
  pending_sends_ (net_run (evs ++ [EvLoop test]) (init size)) = [] /\
  active_sends_ (net_run (evs ++ [EvLoop test]) (init size)) =
    filter (fun r => finished test r = false)
      (active_sends_ (net_run evs (init size)) ++ pending_sends_ (net_run evs (init size))) /\
  isend_log (net_run (evs ++ [EvLoop test]) (init size)) =
    isend_log (net_run evs (init size)) ++ pending_sends_ (net_run evs (init size)) /\
  (forall r, r ∈ active_sends_ (net_run evs (init size)) ->
             r ∈ isend_log (net_run evs (init size))).
Proof.
  assert (Hs : net_run (evs ++ [EvLoop test]) (init size) =
               NetworkLoop_sends test (net_run evs (init size))).
  { unfold net_run. by rewrite foldl_app. }
  rewrite Hs.
  destruct (NetworkLoop_sends_fields test (net_run evs (init size))) as (-> & -> & ->).
  do 3 (split; [done|]).
  apply net_run_active. intros r Hr. by apply elem_of_nil in Hr.
Qed.

(** *** Reads *)

Lemma TryRead_ranks_seq (n : nat) :
  forall k type pool,
  match TryRead_ranks (seq k n) type pool with
  | (Some (src, s0), pool') =>
      exists i rest, src = Z.of_nat i /\ (k <= i < k + n)%nat /\
        pool type src = s0 :: rest /\ pool' = set_queue pool type src rest /\
        forall j, (k <= j < i)%nat -> pool type (Z.of_nat j) = []
  | (None, pool') =>
      pool' = pool /\ forall j, (k <= j < k + n)%nat -> pool type (Z.of_nat j) = []
  end.
Proof.
  induction n as [|n IH]; intros k type pool; simpl.
  - split; [done|]. intros j Hj. lia.
  - unfold check_queue. destruct (pool type (Z.of_nat k)) as [|s0 rest] eqn:Ek.
    + specialize (IH (S k) type pool).
      destruct (TryRead_ranks (seq (S k) n) type pool) as [[[src s1]|] pool'].
      * destruct IH as (i & rest & -> & Hi & Hp & -> & Hlow).
        exists i, rest. repeat (split; [done || lia|]).
        intros j Hj. destruct (decide (j = k)) as [->|Hne]; [done|]. apply Hlow. lia.
      * destruct IH as [-> Hall]. split; [done|].
        intros j Hj. destruct (decide (j = k)) as [->|Hne]; [done|]. apply Hall. lia.
    + exists k, rest. repeat (split; [done || lia|]). intros j Hj. lia.
Qed.

(** X10.  A non-blocking read from any source.  [TryRead] with
    [MPI::ANY_SOURCE] takes the oldest payload of the kind asked for from
    the lowest rank below [size] that has one, reports that rank, and
    touches no other queue; it fails, leaving the pool as it is, exactly
    when no rank below [size] has such a payload. *)
Theorem tryread_any_lowest_rank (size : Z) (type : MessageKind) (pool : Pool) :
  match TryRead size ANY_SOURCE type pool with
  | (Some (src, s0), pool') =>
      0 <= src < size /\
      (exists rest, pool type src = s0 :: rest /\ pool' = set_queue pool type src rest) /\
      forall i, 0 <= i < src -> pool type i = []
  | (None, pool') =>
      pool' = pool /\ forall i, 0 <= i < size -> pool type i = []
  end.
Proof.
  unfold TryRead. pose proof (TryRead_ranks_seq (Z.to_nat size) 0 type pool) as H.
  destruct (TryRead_ranks (seq 0 (Z.to_nat size)) type pool) as [[[src s0]|] pool'].
  - destruct H as (i & rest & -> & Hi & Hp & -> & Hlow).
    split; [lia|]. split; [by exists rest|].
    intros j Hj. rewrite <- (Z2Nat.id j) by lia. apply Hlow. lia.
  - destruct H as [-> Hall]. split; [done|].
    intros j Hj. rewrite <- (Z2Nat.id j) by lia. apply Hall. lia.
Qed.

Lemma Read_rank (sched : list (list delivery)) :
  forall size r type pool,
  match pool type r ++ delivered type r (concat sched) with
  | [] => Read size (Rank r) type sched pool = None
  | s0 :: _ =>
      exists pool' used sched',
        Read size (Rank r) type sched pool = Some ((r, s0), pool', sched') /\
        sched = used ++ sched' /\
        (pool type r <> [] -> used = []) /\
        forall type' src',
          (if decide (type' = type /\ src' = r) then [s0] else []) ++ pool' type' src' =
          pool type' src' ++ delivered type' src' (concat used)
  end.
Proof.
  induction sched as [|arrived sched IH]; intros size r type pool.
  - simpl. unfold delivered. simpl. rewrite app_nil_r.
    unfold check_queue. destruct (pool type r) as [|s0 rest] eqn:Ep; [done|].
    exists (set_queue pool type r rest), [], []. repeat (split; [done|]).
    intros type' src'. unfold set_queue. simpl. rewrite app_nil_r.
    case_decide as Hd; [|done]. destruct Hd as [-> ->]. by rewrite Ep.
  - simpl. unfold check_queue. destruct (pool type r) as [|s0 rest] eqn:Ep.
    + specialize (IH size r type (foldl deliver pool arrived)).
      rewrite foldl_deliver, Ep in IH. rewrite delivered_app. simpl in *.
      destruct (delivered type r arrived ++ delivered type r (concat sched)) as [|s0 l];
        [done|].
      destruct IH as (pool' & used & sched' & HR & -> & _ & Hacc).
      exists pool', (arrived :: used), sched'. split; [done|]. split; [done|].
      split; [done|]. intros type' src'.
      rewrite Hacc, foldl_deliver. simpl. by rewrite delivered_app, app_assoc.
    + simpl. exists (set_queue pool type r rest), [], (arrived :: sched).
      repeat (split; [done|]).
      intros type' src'. unfold set_queue, delivered. simpl.
      rewrite app_nil_r.
      case_decide as Hd; [|done]. destruct Hd as [-> ->]. by rewrite Ep.
Qed.

(** X11.  A blocking read from one rank.  [Read] from rank [r] returns
    exactly when a payload of the kind asked for from [r] is in the pool
    or arrives while it sleeps; it returns the oldest one and reports
    [r], at once if one was already there, and every other payload stays
    in the pool in its order.  When none ever arrives the reader keeps
    waiting. *)
Theorem read_from_rank (size r : Z) (type : MessageKind)
    (sched : list (list delivery)) (pool : Pool) :
  (pool type r ++ delivered type r (concat sched) = [] ->
   Read size (Rank r) type sched pool = None) /\
  (forall s0 rest,
     pool type r ++ delivered type r (concat sched) = s0 :: rest ->
     exists pool' used sched',
       Read size (Rank r) type sched pool = Some ((r, s0), pool', sched') /\
       sched = used ++ sched' /\
       (pool type r <> [] -> used = []) /\
       forall type' src',
         (if decide (type' = type /\ src' = r) then [s0] else []) ++ pool' type' src' =
         pool type' src' ++ delivered type' src' (concat used)).
Proof.
  pose proof (Read_rank sched size r type pool) as H. split.
  - intros E. by rewrite E in H.
  - intros s0 rest E. by rewrite E in H.
Qed.

End NetworkThread.

(** ** The two loops of the network thread *)

Module Engine.

Section Loops.

Variables HashGet TableData : Type.
Variable HashGet_ParseFromArray : string -> HashGet * bool.
Variable HashGet_key : HashGet -> string.
Variable TableData_ParseFromArray : string -> TableData * bool.
Variable TableData_key : TableData -> string.

(** The registered handlers return into [R]. *)
Variable R : Type.

Local Abbreviation Message := (NetworkThread.Message HashGet TableData).
Local Abbreviation ProcessRequest :=
  (NetworkThread.ProcessRequest HashGet TableData HashGet_ParseFromArray
     TableData_ParseFromArray R).
Local Abbreviation key_of :=
  (key_of HashGet TableData HashGet_ParseFromArray HashGet_key
     TableData_ParseFromArray TableData_key).
Local Abbreviation with_key :=
  (SyncRequestQueue.with_key HashGet TableData HashGet_ParseFromArray HashGet_key
     TableData_ParseFromArray TableData_key).
Local Abbreviation is_request tg :=
  (tg = MTYPE_PUT_REQUEST \/ tg = MTYPE_GET_REQUEST).

(** The tables [callbacks_] and [handles_], as the registrations have left
    them while the loops run; [None] is the [NULL] the constructor
    writes.  A callback is a [void()] closure of the caller's: it can
    reach the thread through its public interface only, so it acts on the
    sends and on the response pool, and it is taken to return. *)
Variable callbacks_ : MessageKind -> option (NetworkThread.t -> NetworkThread.t).
Variable handles_ : MessageKind -> option (Message -> R).

(** [request_queue_]: a [SyncRequestQueue] or an [AsyncRequestQueue]
    behind the interface [RequestQueue]. *)
Inductive RequestQueue :=
  | Sync (q : SyncRequestQueue.t)
  | Async (q : AsyncRequestQueue.t).

(** The end of [NetworkThread::NetworkThread]: the queue is chosen by
    [gc->is_sync_update()]. *)
Definition new_RequestQueue (is_sync_update : bool) (num_memory_servers : Z) : RequestQueue :=
  if is_sync_update then Sync SyncRequestQueue.init
  else Async (AsyncRequestQueue.init num_memory_servers).

(** The virtual call [request_queue_->Enqueue]. *)
Definition Enqueue (tg : MessageKind) (d : string) (rq : RequestQueue) : outcome RequestQueue :=
  match rq with
  | Sync q =>
      q' ← SyncRequestQueue.Enqueue HashGet TableData HashGet_ParseFromArray HashGet_key
             TableData_ParseFromArray TableData_key tg d q;
      Ok (Sync q')
  | Async q =>
      q' ← AsyncRequestQueue.Enqueue HashGet TableData HashGet_ParseFromArray HashGet_key
             TableData_ParseFromArray TableData_key tg d q;
      Ok (Async q')
  end.

(** The virtual call [request_queue_->NextRequest]. *)
Definition NextRequest (fuel : nat) (rq : RequestQueue)
  : outcome (option TaggedMessage * RequestQueue) :=
  match rq with
  | Sync q => r ← SyncRequestQueue.NextRequest fuel q; Ok (r.1, Sync r.2)
  | Async q => r ← AsyncRequestQueue.NextRequest fuel q; Ok (r.1, Async r.2)
  end.

(** The lines the receive half writes with [LOG(INFO)]. *)
Inductive info_line :=
  | RECEIVED_SHARD_ASSIGNMENT
  | RECEIVED_WORKER_SHUTDOWN.

(** The part of [class NetworkThread] the two loops work on: the request
    queue, and in [net] the sends and the response pool.  [info] is the
    INFO log of the receive half, [fired] the tags whose callback was
    invoked, [handled] what the handlers returned, each in order. *)
Record t := mk {
  request_queue_ : RequestQueue;
  net : NetworkThread.t;
  info : list info_line;
  fired : list MessageKind;
  handled : list R
}.

Definition with_pool (pool : NetworkThread.Pool) (n : NetworkThread.t) : NetworkThread.t :=
  {| NetworkThread.size_ := NetworkThread.size_ n;
     NetworkThread.pending_sends_ := NetworkThread.pending_sends_ n;
     NetworkThread.active_sends_ := NetworkThread.active_sends_ n;
     NetworkThread.response_queue_ := pool;
     NetworkThread.isend_log := NetworkThread.isend_log n;
     NetworkThread.info_log := NetworkThread.info_log n |}.

Definition line_of (tg : MessageKind) : list info_line :=
  if decide (tg = MTYPE_SHARD_ASSIGNMENT) then [RECEIVED_SHARD_ASSIGNMENT]
  else if decide (tg = MTYPE_WORKER_SHUTDOWN) then [RECEIVED_WORKER_SHUTDOWN]
  else [].

(** The receive half of one iteration of [NetworkThread::NetworkLoop],
    for the message [dl] that [Iprobe] found and [Recv] read. *)
Definition receive (dl : NetworkThread.delivery) (e : t) : outcome t :=
  let tg := NetworkThread.d_tag dl in
  '(rq, n) ← (if decide (is_request tg) then
                rq ← Enqueue tg (NetworkThread.d_data dl) (request_queue_ e);
                Ok (rq, net e)
              else
                Ok (request_queue_ e,
                    with_pool (NetworkThread.deliver (NetworkThread.response_queue_ (net e)) dl)
                      (net e)));
  Ok {| request_queue_ := rq;
        net := match callbacks_ tg with
               | Some callback => callback n
               | None => n
               end;
        info := info e ++ line_of tg;
        fired := fired e ++ match callbacks_ tg with
                            | Some _ => [tg]
                            | None => []
                            end;
        handled := handled e |}.

(** One iteration of [NetworkThread::NetworkLoop]: [probe] is what
    [Iprobe] finds, [None] when it finds nothing and the loop sleeps. *)
Definition NetworkLoop (probe : option NetworkThread.delivery)
    (test : NetworkThread.Transport) (e : t) : outcome t :=
  e1 ← match probe with
       | Some dl => receive dl e
       | None => Ok e
       end;
  Ok {| request_queue_ := request_queue_ e1;
        net := NetworkThread.NetworkLoop_sends test (net e1);
        info := info e1;
        fired := fired e1;
        handled := handled e1 |}.

(** One iteration of [NetworkThread::ProcessLoop].  With its fuel spent
    the call of [NextRequest] is still scanning: nothing is handled yet. *)
Definition ProcessLoop (fuel : nat) (e : t) : outcome t :=
  r ← NextRequest fuel (request_queue_ e);
  match r.1 with
  | None =>
      Ok {| request_queue_ := r.2; net := net e; info := info e; fired := fired e;
            handled := handled e |}
  | Some msg =>
      res ← ProcessRequest handles_ msg;
      Ok {| request_queue_ := r.2; net := net e; info := info e; fired := fired e;
            handled := handled e ++ [res] |}
  end.

(** The two loops and the callers' sends interleave: a schedule lists
    iterations of either loop and calls of [Send]. *)
Inductive event :=
  | EvNetworkLoop (probe : option NetworkThread.delivery) (test : NetworkThread.Transport)
  | EvProcessLoop (fuel : nat)
  | EvSend (dst : Z) (method : MessageKind) (msg : string).

Definition step (e : t) (ev : event) : outcome t :=
  match ev with
  | EvNetworkLoop probe test => NetworkLoop probe test e
  | EvProcessLoop fuel => ProcessLoop fuel e
  | EvSend dst method msg =>
      Ok {| request_queue_ := request_queue_ e;
            net := NetworkThread.Send dst method msg (net e);
            info := info e; fired := fired e; handled := handled e |}
  end.

Definition run (evs : list event) (e : t) : outcome t :=
  foldl (fun acc ev => e' ← acc; step e' ev) (Ok e) evs.

(** The messages a schedule receives, in order. *)
Definition probes (evs : list event) : list NetworkThread.delivery :=
  omap (fun ev => match ev with
                  | EvNetworkLoop probe _ => probe
                  | _ => None
                  end) evs.

(** Those that are not requests, and the requests as envelopes. *)
Definition responses (evs : list event) : list NetworkThread.delivery :=
  filter (fun dl => ~ is_request (NetworkThread.d_tag dl)) (probes evs).


(** What a schedule does to the send half. *)
Definition sends_of (evs : list event) : list NetworkThread.net_event :=
  omap (fun ev => match ev with
                  | EvNetworkLoop _ test => Some (NetworkThread.EvLoop test)
                  | EvSend dst method msg => Some (NetworkThread.EvSend dst method msg)
                  | EvProcessLoop _ => None
                  end) evs.

(** Two states of the thread with the same sends. *)
Definition same_sends (n1 n2 : NetworkThread.t) : Prop :=
  NetworkThread.size_ n1 = NetworkThread.size_ n2 /\
  NetworkThread.pending_sends_ n1 = NetworkThread.pending_sends_ n2 /\
  NetworkThread.active_sends_ n1 = NetworkThread.active_sends_ n2 /\
  NetworkThread.isend_log n1 = NetworkThread.isend_log n2 /\
  NetworkThread.info_log n1 = NetworkThread.info_log n2.

(** The calls that start and stop the MPI library. *)
Inductive mpi_call := Init_thread | Finalize.

(** The part of [class NetworkThread] the constructor and [Shutdown]
    work on.  [mpi_calls] records the calls of [MPI::Init_thread] and
    [MPI_Finalize], [shutdown_log] the ranks written by the line
    "Process id is shutting down". *)
Record lifecycle := mkLifecycle {
  running_ : bool;
  id_ : Z;
  mpi_calls : list mpi_call;
  shutdown_log : list Z
}.

(** [NetworkThread::NetworkThread]: the value of the environment variable
    [OMPI_COMM_WORLD_RANK], and what [Get_rank], [Get_size] and the
    global context answer.  Without the variable nothing is started and
    no queue is made. *)
Definition new_NetworkThread (OMPI_COMM_WORLD_RANK : option string) (rank size : Z)
    (is_sync_update : bool) (num_memory_servers : Z) : lifecycle * option t :=
  match OMPI_COMM_WORLD_RANK with
  | None =>
      ({| running_ := false; id_ := -1; mpi_calls := []; shutdown_log := [] |}, None)
  | Some _ =>
      ({| running_ := true; id_ := rank; mpi_calls := [Init_thread]; shutdown_log := [] |},
       Some {| request_queue_ := new_RequestQueue is_sync_update num_memory_servers;
               net := NetworkThread.init size;
               info := []; fired := []; handled := [] |})
  end.

(** [NetworkThread::Shutdown]. *)
Definition Shutdown (l : lifecycle) : lifecycle :=
  {| running_ := false;
     id_ := id_ l;
     mpi_calls := mpi_calls l ++ (if running_ l then [Finalize] else []);
     shutdown_log := shutdown_log l ++ [id_ l] |}.

(** *** Schedules *)

Lemma run_snoc (evs : list event) (ev : event) (e : t) :
  run (evs ++ [ev]) e = (e' ← run evs e; step e' ev).
Proof. unfold run. by rewrite foldl_app. Qed.

Lemma probes_snoc (evs : list event) (ev : event) :
  probes (evs ++ [ev]) =
  probes evs ++ match ev with
                | EvNetworkLoop (Some dl) _ => [dl]
                | _ => []
                end.
Proof.
  unfold probes. rewrite omap_app. f_equal. by destruct ev as [[dl|] test|fuel|dst method msg].
Qed.

Lemma sends_of_snoc (evs : list event) (ev : event) :
  sends_of (evs ++ [ev]) =
  sends_of evs ++ match ev with
                  | EvNetworkLoop _ test => [NetworkThread.EvLoop test]
                  | EvSend dst method msg => [NetworkThread.EvSend dst method msg]
                  | EvProcessLoop _ => []
                  end.
Proof. unfold sends_of. rewrite omap_app. f_equal. by destruct ev. Qed.

(** *** The receive half and the send half *)

Lemma net_step_same (n1 n2 : NetworkThread.t) (ev : NetworkThread.net_event) :
  same_sends n1 n2 ->
  same_sends (NetworkThread.net_step n1 ev) (NetworkThread.net_step n2 ev).
Proof.
  destruct n1 as [s1 p1 a1 r1 i1 l1], n2 as [s2 p2 a2 r2 i2 l2].
  unfold same_sends. simpl. intros (-> & -> & -> & -> & ->).
  destruct ev as [dst method msg|test]; simpl; [done|].
  unfold NetworkThread.NetworkLoop_sends, NetworkThread.CollectActive,
    NetworkThread.push_sends. simpl.
  destruct (a2 ++ p2) as [|x xs]; [done|].
  by destruct (NetworkThread.collect test (x :: xs)).
Qed.

Lemma NetworkLoop_sends_pool (test : NetworkThread.Transport) (n : NetworkThread.t) :
  NetworkThread.response_queue_ (NetworkThread.NetworkLoop_sends test n) =
  NetworkThread.response_queue_ n.
Proof.
  unfold NetworkThread.NetworkLoop_sends, NetworkThread.CollectActive,
    NetworkThread.push_sends. simpl.
  destruct (NetworkThread.active_sends_ n ++ NetworkThread.pending_sends_ n) as [|x xs];
    [done|].
  by destruct (NetworkThread.collect test (x :: xs)).
Qed.

Lemma same_sends_trans (n1 n2 n3 : NetworkThread.t) :
  same_sends n1 n2 -> same_sends n2 n3 -> same_sends n1 n3.
Proof.
  unfold same_sends. intros (-> & -> & -> & -> & ->) (-> & -> & -> & -> & ->). done.
Qed.

Lemma receive_quiet (dl : NetworkThread.delivery) (e e1 : t) :
  (forall tg, callbacks_ tg = None) ->
  receive dl e = Ok e1 ->
  same_sends (net e1) (net e) /\
  (forall type src,
     NetworkThread.response_queue_ (net e1) type src =
     NetworkThread.response_queue_ (net e) type src ++
     NetworkThread.delivered type src
       (filter (fun dl => ~ is_request (NetworkThread.d_tag dl)) [dl])) /\
  info e1 = info e ++ line_of (NetworkThread.d_tag dl) /\
  fired e1 = fired e.
Proof.
  intros Hcb Hr. unfold receive in Hr. rewrite Hcb in Hr.
  rewrite filter_cons, filter_nil.
  destruct (decide (is_request (NetworkThread.d_tag dl))) as [Hreq|Hreq].
  - inv_bind Hr. destruct bnd as [rq n]. inv_bind Hbnd. injection Hbnd as <- <-.
    simplify_eq. simpl. rewrite decide_False by tauto.
    unfold NetworkThread.delivered. simpl. split; [done|].
    split; [by intros; rewrite app_nil_r|]. by rewrite app_nil_r.
  - simpl in Hr. simplify_eq. simpl. rewrite decide_True by done.
    split; [done|]. split; [|by rewrite app_nil_r].
    intros type src.
    by rewrite <- (NetworkThread.foldl_deliver [dl] (NetworkThread.response_queue_ (net e))).
Qed.

(** X12.  Routing in the network loop.  With no callback registered, as
    the constructor leaves the table, take any schedule of loop
    iterations and sends that runs without a failed check.  Every
    message received that is not a PUT or GET request is in the response
    pool, in the queue of its tag and source, behind what was there and
    in the order of arrival; the requests leave no trace in the pool;
    the send half is what it would be had nothing been received; and
    the INFO log has one line for each shard assignment and each worker
    shutdown received. *)
Theorem engine_routing (evs : list event) (e0 e : t) :
  (forall tg, callbacks_ tg = None) ->
  run evs e0 = Ok e ->
  (forall type src,
     NetworkThread.response_queue_ (net e) type src =
     NetworkThread.response_queue_ (net e0) type src ++
     NetworkThread.delivered type src (responses evs)) /\
  (forall type src, is_request type ->
     NetworkThread.response_queue_ (net e) type src =
     NetworkThread.response_queue_ (net e0) type src) /\
  same_sends (net e) (NetworkThread.net_run (sends_of evs) (net e0)) /\
  info e = info e0 ++ mjoin (line_of ∘ NetworkThread.d_tag <$> probes evs) /\
  fired e = fired e0.
Proof.
  intros Hcb. revert e.
  assert (Hmain : forall e, run evs e0 = Ok e ->
    (forall type src,
       NetworkThread.response_queue_ (net e) type src =
       NetworkThread.response_queue_ (net e0) type src ++
       NetworkThread.delivered type src (responses evs)) /\
    same_sends (net e) (NetworkThread.net_run (sends_of evs) (net e0)) /\
    info e = info e0 ++ mjoin (line_of ∘ NetworkThread.d_tag <$> probes evs) /\
    fired e = fired e0).
  { induction evs as [|ev evs IH] using rev_ind; intros e Hrun.
    - unfold run in Hrun. simpl in Hrun. simplify_eq.
      unfold responses, NetworkThread.delivered. simpl.
      split; [by intros; rewrite app_nil_r|]. split; [done|]. by rewrite app_nil_r.
    - rewrite run_snoc in Hrun. inv_bind Hrun.
      destruct (IH bnd Hbnd) as (Hpool & Hsends & Hinfo & Hfired).
      unfold responses in *. rewrite probes_snoc, sends_of_snoc.
      unfold NetworkThread.net_run in *. rewrite foldl_app.
      rewrite filter_app, fmap_app, join_app.
      destruct ev as [[dl|] test|fuel|dst method msg]; simpl in Hrun.
      + unfold NetworkLoop in Hrun. inv_bind Hrun. simplify_eq. simpl.
        destruct (receive_quiet dl bnd bnd0 Hcb Hbnd0) as (Hs1 & Hp1 & Hi1 & Hf1).
        split; [|split; [|split]].
        * intros type src. rewrite NetworkLoop_sends_pool, Hp1, Hpool.
          by rewrite NetworkThread.delivered_app, app_assoc.
        * apply (net_step_same _ _ (NetworkThread.EvLoop test)).
          by eapply same_sends_trans.
        * rewrite Hi1, Hinfo. by rewrite app_nil_r, app_assoc.
        * by rewrite Hf1.
      + unfold NetworkLoop in Hrun. simpl in Hrun. simplify_eq. simpl.
        rewrite filter_nil. split; [|split; [|split]].
        * intros type src. rewrite NetworkLoop_sends_pool, Hpool.
          unfold NetworkThread.delivered at 2. simpl. by rewrite app_nil_r.
        * by apply (net_step_same _ _ (NetworkThread.EvLoop test)).
        * by rewrite Hinfo, !app_nil_r.
        * done.
      + unfold ProcessLoop in Hrun. inv_bind Hrun.
        assert (net e = net bnd /\ info e = info bnd /\ fired e = fired bnd)
          as (-> & -> & ->).
        { destruct bnd0.1; [inv_bind Hrun|]; by simplify_eq. }
        rewrite filter_nil. simpl. rewrite !app_nil_r.
        split; [|done]. intros type src. by rewrite Hpool.
      + simplify_eq. simpl. rewrite filter_nil. simpl. rewrite !app_nil_r.
        split; [|split; [|done]].
        * intros type src. by rewrite Hpool.
        * by apply (net_step_same _ _ (NetworkThread.EvSend dst method msg)). }
  intros e Hrun. destruct (Hmain e Hrun) as (Hpool & Hsends & Hinfo & Hfired).
  split; [done|]. split; [|done].
  intros type src Hreq. rewrite Hpool.
  assert (NetworkThread.delivered type src (responses evs) = []) as ->;
    [|by rewrite app_nil_r].
  unfold NetworkThread.delivered, responses.
  rewrite list_filter_filter.
  generalize (probes evs). intros dls.
  induction dls as [|dl dls IHd]; [done|].
  rewrite filter_cons. case_decide as Hd; [|done].
  destruct Hd as [[<- _] Hn]. done.
Qed.

(** *** From the network loop to the handlers, synchronous updates *)





(** *** From the network loop to the handlers, asynchronous updates *)



(** *** Start and stop *)

(** X14.  Shutdown is idempotent.  However many times [Shutdown] is
    called on a thread as constructed, the MPI library is finalized at
    most once, and only if it was initialized: never when the process was
    started outside MPI.  The thread runs exactly until the first call,
    and every call writes its line. *)
Theorem shutdown_finalizes_once (OMPI_COMM_WORLD_RANK : option string) (rank size : Z)
    (is_sync_update : bool) (num_memory_servers : Z) (calls : nat) :
  let l := Nat.iter calls Shutdown
             (new_NetworkThread OMPI_COMM_WORLD_RANK rank size is_sync_update
                num_memory_servers).1 in
  mpi_calls l =
    match OMPI_COMM_WORLD_RANK, calls with
    | None, _ => []
    | Some _, O => [Init_thread]
    | Some _, S _ => [Init_thread; Finalize]
    end /\
  running_ l = match OMPI_COMM_WORLD_RANK with
               | Some _ => Nat.eqb calls 0
               | None => false
               end /\
  length (shutdown_log l) = calls.
Proof.
  induction calls as [|calls IH]; simpl.
  - by destruct OMPI_COMM_WORLD_RANK.
  - destruct IH as (Hm & Hr & Hl). rewrite Hm, Hr, length_app, Hl. simpl.
    split; [|split; [by destruct OMPI_COMM_WORLD_RANK|lia]].
    destruct OMPI_COMM_WORLD_RANK; [|done]. by destruct calls.
Qed.

End Loops.

Arguments mk {R}.
Arguments request_queue_ {R}.
Arguments net {R}.
Arguments info {R}.
Arguments fired {R}.
Arguments handled {R}.

End Engine.

(** ** The scenarios on a concrete schema

    A schema in which a payload is its own key, and parsing succeeds. *)

Definition payload_is_key (d : string) : string * bool := (d, true).

Definition the_key (m : string) : string := m.

Abbreviation PUT := MTYPE_PUT_REQUEST.
Abbreviation GET := MTYPE_GET_REQUEST.

Module SyncScenarios.

Import SyncRequestQueue.

Abbreviation Enqueue := (Enqueue string string payload_is_key the_key payload_is_key the_key).
Abbreviation run := (run string string payload_is_key the_key payload_is_key the_key).
Abbreviation key_of := (key_of string string payload_is_key the_key payload_is_key the_key).

(** A key that gets its slot after the cursor has wrapped waits for the
    next round: the second "a" is returned before "b". *)
Example late_key_waits :
  exists q,
    run [EvEnqueue PUT "a"; EvEnqueue PUT "a"; EvVisit; EvEnqueue PUT "b"; EvVisit; EvVisit]
        init
    = Ok ([mkTaggedMessage PUT "a"; mkTaggedMessage PUT "a"; mkTaggedMessage PUT "b"], q).
Proof. eexists. vm_compute. reflexivity. Qed.

Lemma sync_round_robin_witness :
  (exists q3 q4 q5 q6,
     (q1 ← Enqueue PUT "a" init; q2 ← Enqueue PUT "a" q1; Enqueue PUT "b" q2) = Ok q3 /\
     NextRequest 1 q3 = Ok (Some (mkTaggedMessage PUT "a"), q4) /\
     NextRequest 1 q4 = Ok (Some (mkTaggedMessage PUT "b"), q5) /\
     NextRequest 1 q5 = Ok (Some (mkTaggedMessage PUT "a"), q6)) /\
  (exists m, m ∈ [mkTaggedMessage PUT "b"] /\ key_of m = "b"%string).
Proof.
  destruct (sync_round_robin string string payload_is_key the_key payload_is_key the_key)
    as [Hscenario Hfair].
  split.
  - apply (Hscenario "a" "a" "b" 0 0 0)%string%nat; reflexivity.
  - eapply (Hfair [EvEnqueue PUT "a"; EvEnqueue PUT "a"; EvEnqueue PUT "b"] [EvVisit]
              _ _ _ _ _ _ (mkTaggedMessage PUT "a") (mkTaggedMessage PUT "a") "b"%string).
    + vm_compute. reflexivity.
    + vm_compute. reflexivity.
    + vm_compute. reflexivity.
    + vm_compute. reflexivity.
    + reflexivity.
    + discriminate.
    + vm_compute. discriminate.
Defined.

Lemma sync_slot_stable_witness :
  exists o q o' q',
    run [EvEnqueue PUT "a"; EvEnqueue GET "b"] init = Ok (o, q) /\
    key_map_ q !! "b"%string = Some 1%nat /\
    run [EvVisit; EvEnqueue PUT "c"; EvVisit; EvEnqueue GET "b"] q = Ok (o', q') /\
    key_map_ q' !! "b"%string = Some 1%nat /\ (1 < length (request_queues_ q'))%nat.
Proof.
  eexists _, _, _, _.
  split; [vm_compute; reflexivity|]. split; [vm_compute; reflexivity|].
  split; [vm_compute; reflexivity|].
  eapply (sync_slot_stable string string payload_is_key the_key payload_is_key the_key
            [EvEnqueue PUT "a"; EvEnqueue GET "b"]
            [EvVisit; EvEnqueue PUT "c"; EvVisit; EvEnqueue GET "b"]);
    vm_compute; reflexivity.
Defined.

Lemma sync_slots_are_keys_witness :
  exists o q,
    run [EvEnqueue PUT "a"; EvEnqueue GET "b"; EvVisit; EvEnqueue PUT "a"] init = Ok (o, q) /\
    dom (key_map_ q) =
      list_to_set (key_of <$> enqueued [EvEnqueue PUT "a"; EvEnqueue GET "b"; EvVisit;
                                        EvEnqueue PUT "a"]) /\
    length (request_queues_ q) = size (dom (key_map_ q)) /\
    length (key_locks_ q) = size (dom (key_map_ q)).
Proof.
  eexists _, _. split; [vm_compute; reflexivity|].
  eapply (sync_slots_are_keys string string payload_is_key the_key payload_is_key the_key
            [EvEnqueue PUT "a"; EvEnqueue GET "b"; EvVisit; EvEnqueue PUT "a"]).
  vm_compute. reflexivity.
Defined.

(** Three keys served once each, two idle iterations, then a PUT for
    "b": the cursor is on slot 2 and the scan passes slots 2 and 0. *)
Definition b_after_idle : list event :=
  [EvEnqueue PUT "a"; EvEnqueue PUT "b"; EvEnqueue PUT "c";
   EvVisit; EvVisit; EvVisit; EvVisit; EvVisit; EvEnqueue PUT "b"].

Lemma sync_next_is_first_waiting_witness :
  exists o q,
    run b_after_idle init = Ok (o, q) /\
    NextRequest 3 q =
    Ok (Some (mkTaggedMessage PUT "b"),
        {| key_map_ := key_map_ q;
           request_queues_ :=
             <[((key_index_ q + 2) `mod` length (request_queues_ q))%nat := []]>
               (request_queues_ q);
           key_locks_ := key_locks_ q;
           key_index_ := ((key_index_ q + 2 + 1) `mod` length (request_queues_ q))%nat |}).
Proof.
  eexists _, _. split; [vm_compute; reflexivity|].
  eapply (sync_next_is_first_waiting string string payload_is_key the_key payload_is_key
            the_key b_after_idle _ _ 3 2 (mkTaggedMessage PUT "b") []).
  - vm_compute. reflexivity.
  - lia.
  - intros j Hj. destruct j as [|[|j]]; [vm_compute; reflexivity|vm_compute; reflexivity|lia].
  - vm_compute. reflexivity.
Defined.

Lemma sync_next_spins_when_empty_witness :
  exists o q,
    run [EvEnqueue PUT "a"; EvEnqueue PUT "b"; EvVisit; EvVisit] init = Ok (o, q) /\
    (exists q', NextRequest 5 q = Ok (None, q') /\
                key_map_ q' = key_map_ q /\ request_queues_ q' = request_queues_ q /\
                key_locks_ q' = key_locks_ q) /\
    NextRequest (length (request_queues_ q)) q = Ok (None, q).
Proof.
  eexists _, _. split; [vm_compute; reflexivity|].
  eapply (sync_next_spins_when_empty string string payload_is_key the_key payload_is_key
            the_key [EvEnqueue PUT "a"; EvEnqueue PUT "b"; EvVisit; EvVisit]).
  - vm_compute. reflexivity.
  - intros i kq Hi. destruct i as [|[|i]]; vm_compute in Hi; congruence.
Defined.

End SyncScenarios.

Module AsyncScenarios.

Import AsyncRequestQueue.

Abbreviation Enqueue := (Enqueue string string payload_is_key the_key payload_is_key the_key).
Abbreviation run := (run string string payload_is_key the_key payload_is_key the_key).
Abbreviation enqueued_gets :=
  (enqueued_gets string string payload_is_key the_key payload_is_key the_key).

Definition put_a : TaggedMessage := mkTaggedMessage PUT "a".
Definition get_a : TaggedMessage := mkTaggedMessage GET "a".
Definition put_b : TaggedMessage := mkTaggedMessage PUT "b".
Definition get_b : TaggedMessage := mkTaggedMessage GET "b".

(** Two primed keys, two GETs waiting for "a" and one for "b", [N = 2]. *)
Definition two_keys : list event :=
  [EvEnqueue PUT "a"; EvEnqueue PUT "b"; EvVisit; EvVisit;
   EvEnqueue GET "a"; EvEnqueue GET "a"; EvEnqueue GET "b"].

(** The state [two_keys] leads to. *)
Definition two_keys_state : t :=
  set_slot 1 (mkSlot [] [get_b] 0 0 false)
    (set_slot 0 (mkSlot [] [get_a; get_a] 0 0 false)
       (push_slot "b" (push_slot "a" (init 2)))).

(** The third scenario of the spec, steady state: a primed key, two GETs
    then two PUTs. *)
Example steady_state :
  exists q,
    run [EvEnqueue PUT "a"; EvVisit;
         EvEnqueue GET "a"; EvEnqueue GET "a"; EvEnqueue PUT "a"; EvEnqueue PUT "a";
         EvVisit; EvVisit; EvVisit; EvVisit] (init 2)
    = Ok ([(0%nat, put_a); (0%nat, get_a); (0%nat, get_a); (0%nat, put_a); (0%nat, put_a)], q).
Proof. eexists. vm_compute. reflexivity. Qed.

Lemma async_first_drain_witness :
  (exists q4 q5 q6 q7 q8,
     (q1 ← Enqueue PUT "a" (init 2); q2 ← Enqueue PUT "a" q1;
      q3 ← Enqueue GET "a" q2; Enqueue GET "a" q3) = Ok q4 /\
     NextRequest 1 q4 = Ok (Some put_a, q5) /\
     NextRequest 1 q5 = Ok (Some get_a, q6) /\
     NextRequest 1 q6 = Ok (Some get_a, q7) /\
     NextRequest 1 q7 = Ok (Some put_a, q8)) /\
  (exists log q',
     run [EvEnqueue PUT "a"; EvEnqueue GET "a"; EvVisit; EvVisit] (init 2) = Ok (log, q') /\
     (forall tg, tags_at 0 log !! 0%nat = Some tg -> tg = PUT) /\
     (forall tg, tags_at 0 log !! 1%nat = Some tg -> tg = GET)).
Proof.
  destruct (async_first_drain string string payload_is_key the_key payload_is_key the_key)
    as [Hscenario Hfirst].
  split.
  - apply (Hscenario "a" "a" "a" "a" 0 0 0 0)%string%nat; reflexivity.
  - eexists _, _. split; [vm_compute; reflexivity|].
    eapply (Hfirst 2 [EvEnqueue PUT "a"; EvEnqueue GET "a"; EvVisit; EvVisit] _ _ 0%nat);
      [lia|vm_compute; reflexivity].
Defined.

Lemma async_lane_alternation_witness :
  0 < 2 /\
  exists log q',
    run [EvEnqueue PUT "a"; EvVisit; EvEnqueue GET "a"; EvEnqueue GET "a";
         EvEnqueue PUT "a"; EvVisit; EvVisit; EvVisit] (init 2) = Ok (log, q') /\
    (tags_at 0 log = [] \/
     exists h', tags_at 0 log = PUT :: h' /\ h' `prefix_of` lane_pattern 2 (length h')).
Proof.
  split; [lia|]. eexists _, _. split; [vm_compute; reflexivity|].
  eapply (async_lane_alternation string string payload_is_key the_key payload_is_key the_key 2
           [EvEnqueue PUT "a"; EvVisit; EvEnqueue GET "a"; EvEnqueue GET "a";
            EvEnqueue PUT "a"; EvVisit; EvVisit; EvVisit] _ _ 0%nat);
    [lia|vm_compute; reflexivity].
Defined.

Lemma async_overflow_abort_witness :
  (exists q, run [EvEnqueue PUT "a"; EvEnqueue PUT "a"] (init 2) = Ok ([], q) /\
             Enqueue PUT "a" q = Abort (CHECK_LT_failed 0)) /\
  (exists q q', run [EvEnqueue PUT "a"] (init 2) = Ok ([], q) /\ Enqueue PUT "a" q = Ok q') /\
  (exists q', Enqueue GET "b" (init 2) = Ok q') /\
  (exists q1 q2, Enqueue PUT "a" (init 2) = Ok q1 /\ Enqueue PUT "a" q1 = Ok q2 /\
                 Enqueue PUT "a" q2 = Abort (CHECK_LT_failed 0)).
Proof.
  destruct (async_overflow_abort string string payload_is_key the_key payload_is_key the_key)
    as (Hknown & Hfresh & Hscenario).
  split; [|split; [|split]].
  - eexists. split; [vm_compute; reflexivity|].
    eapply (Hknown 2 [EvEnqueue PUT "a"; EvEnqueue PUT "a"] [] _ PUT "a"%string 0%nat
              (mkSlot [put_a; put_a] [] 0 1 true));
      [lia|vm_compute; reflexivity|by left|vm_compute; reflexivity|vm_compute; reflexivity|
       vm_compute; reflexivity].
  - eexists. 
    destruct (Hknown 2 [EvEnqueue PUT "a"] [] 
                (set_slot 0 (append put_a fresh_slot) (push_slot "a" (init 2)))
                PUT "a"%string 0%nat (mkSlot [put_a] [] 0 1 true))
      as [_ Hok];
      [lia|vm_compute; reflexivity|by left|vm_compute; reflexivity|vm_compute; reflexivity|].
    destruct Hok as (q' & Hq' & _); [vm_compute; reflexivity|].
    exists q'. split; [vm_compute; reflexivity|exact Hq'].
  - apply (Hfresh 2 [] [] (init 2) GET "b"%string); [lia|reflexivity|by right|reflexivity].
  - apply (Hscenario "a" "a" "a")%string; reflexivity.
Defined.

(** Against C8 as stated.  The slot of "a" is under the cursor, in its GET
    lane with two GETs waiting and none yet drained, and [N = 2]: the
    visit takes one GET only, leaves the other in the lane, and moves on to
    the slot of "b"; three calls return the GET of "a", the GET of "b" and
    only then the second GET of "a". *)
Lemma async_visit_is_not_a_burst :
  exists q q1 q2 q3,
    run two_keys (init 2) = Ok ([(0%nat, put_a); (1%nat, put_b)], q) /\
    num_mem_servers_ q = 2 /\ key_index_ q = 0%nat /\
    slot_at q 0 = Some (mkSlot [] [get_a; get_a] 0 0 false) /\
    visit q = Ok (Some get_a, q1) /\
    slot_at q1 0 = Some (mkSlot [] [get_a] 1 0 false) /\
    key_index_ q1 = 1%nat /\
    NextRequest 1 q1 = Ok (Some get_b, q2) /\
    NextRequest 1 q2 = Ok (Some get_a, q3).
Proof.
  eexists _, _, _, _.
  split; [vm_compute; reflexivity|].
  split; [reflexivity|]. split; [reflexivity|]. split; [reflexivity|].
  split; [vm_compute; reflexivity|].
  split; [reflexivity|]. split; [reflexivity|].
  split; vm_compute; reflexivity.
Qed.

Lemma async_visit_drains_one_witness :
  0 < 2 /\
  run two_keys (init 2) = Ok ([(0%nat, put_a); (1%nat, put_b)], two_keys_state) /\
  exists r q' s',
    visit two_keys_state = Ok (r, q') /\
    key_index_ q' =
      ((key_index_ two_keys_state + 1) `mod` length (put_queues_ two_keys_state))%nat /\
    slot_at q' (key_index_ two_keys_state) = Some s'.
Proof.
  split; [lia|].
  assert (Hrun : run two_keys (init 2)
                 = Ok ([(0%nat, put_a); (1%nat, put_b)], two_keys_state)).
  { vm_compute. reflexivity. }
  split; [exact Hrun|].
  destruct (async_visit_drains_one string string payload_is_key the_key payload_is_key the_key
              2 two_keys [(0%nat, put_a); (1%nat, put_b)] two_keys_state
              (mkSlot [] [get_a; get_a] 0 0 false))
    as (r & q' & s' & Hv & Hc & _ & Hs & _);
    [lia|exact Hrun|reflexivity|].
  exists r, q', s'. split; [exact Hv|]. split; [exact Hc|exact Hs].
Defined.

Lemma async_get_only_starves_witness :
  0 < 2 /\
  (exists q q' log,
     run [EvEnqueue GET "a"] (init 2) = Ok ([], q) /\
     run [EvVisit; EvEnqueue GET "a"; EvVisit; EvVisit] q = Ok (log, q') /\
     (forall c m, (c, m) ∈ log -> c <> 0%nat) /\
     slot_at q' 0 = Some (mkSlot [] [get_a; get_a] 0 1 true)) /\
  (exists q' idx,
     Enqueue GET "a" (init 2) = Ok q' /\
     key_map_ q' !! "a"%string = Some idx /\
     slot_at q' idx = Some (mkSlot [] [get_a] 0 1 true)).
Proof.
  destruct (async_get_only_starves string string payload_is_key the_key payload_is_key the_key)
    as [Hstarve Hfresh].
  split; [lia|]. split.
  - eexists _, _, _. split; [vm_compute; reflexivity|].
    assert (Hrun : run [EvVisit; EvEnqueue GET "a"; EvVisit; EvVisit]
                     (set_slot 0 (append get_a fresh_slot) (push_slot "a" (init 2)))
                   = Ok ([], set_slot 0 (mkSlot [] [get_a; get_a] 0 1 true)
                                (push_slot "a" (init 2)))).
    { vm_compute. reflexivity. }
    split; [exact Hrun|].
    eapply (Hstarve 2 [EvEnqueue GET "a"] [EvVisit; EvEnqueue GET "a"; EvVisit; EvVisit]
             [] [] _ _ "a"%string 0%nat (mkSlot [] [get_a] 0 1 true));
      [lia|vm_compute; reflexivity|vm_compute; reflexivity|vm_compute; reflexivity|
       discriminate|reflexivity| |exact Hrun].
    intros d Hd. repeat (apply elem_of_cons in Hd as [Hd|Hd]; [discriminate|]).
    by apply elem_of_nil in Hd.
  - apply (Hfresh 2 [] [] (init 2) "a"%string); [lia|reflexivity|reflexivity].
Defined.

Abbreviation enqueued_for :=
  (enqueued_for string string payload_is_key the_key payload_is_key the_key).
Abbreviation enqueued_keys :=
  (enqueued_keys string string payload_is_key the_key payload_is_key the_key).

Lemma async_lanes_bounded_witness :
  0 < 2 /\
  exists log q s,
    run [EvEnqueue PUT "a"; EvEnqueue PUT "a"; EvEnqueue GET "a"] (init 2) = Ok (log, q) /\
    slot_at q 0 = Some s /\
    Z.of_nat (length (s_put s)) <= 2 /\ Z.of_nat (length (s_get s)) <= 2.
Proof.
  split; [lia|]. eexists _, _, _.
  split; [vm_compute; reflexivity|]. split; [vm_compute; reflexivity|].
  eapply (async_lanes_bounded string string payload_is_key the_key payload_is_key the_key 2
            [EvEnqueue PUT "a"; EvEnqueue PUT "a"; EvEnqueue GET "a"] _ _ 0%nat);
    [lia|vm_compute; reflexivity|vm_compute; reflexivity].
Defined.


Lemma async_slots_are_keys_witness :
  0 < 2 /\
  exists log' q',
    run two_keys (init 2) = Ok ([(0%nat, put_a); (1%nat, put_b)], two_keys_state) /\
    run [EvVisit; EvEnqueue PUT "c"; EvEnqueue PUT "a"] two_keys_state = Ok (log', q') /\
    dom (key_map_ two_keys_state) = list_to_set (enqueued_keys two_keys) /\
    (length (put_queues_ two_keys_state) = size (dom (key_map_ two_keys_state)) /\
     lens two_keys_state) /\
    (forall k i, key_map_ two_keys_state !! k = Some i ->
       key_map_ q' !! k = Some i /\ (i < length (put_queues_ two_keys_state))%nat).
Proof.
  split; [lia|]. eexists _, _.
  split; [vm_compute; reflexivity|]. split; [vm_compute; reflexivity|].
  eapply (async_slots_are_keys string string payload_is_key the_key payload_is_key the_key 2
            two_keys [EvVisit; EvEnqueue PUT "c"; EvEnqueue PUT "a"]);
    [lia|vm_compute; reflexivity|vm_compute; reflexivity].
Defined.

Lemma async_lane_fifo_witness :
  0 < 2 /\
  run two_keys (init 2) = Ok ([(0%nat, put_a); (1%nat, put_b)], two_keys_state) /\
  enqueued_for GET "a" two_keys =
  taken GET 0 [(0%nat, put_a); (1%nat, put_b)]
    ++ lane_of GET (mkSlot [] [get_a; get_a] 0 0 false).
Proof.
  split; [lia|]. split; [vm_compute; reflexivity|].
  eapply (async_lane_fifo string string payload_is_key the_key payload_is_key the_key 2
            two_keys [(0%nat, put_a); (1%nat, put_b)] two_keys_state GET "a"%string 0%nat
            (mkSlot [] [get_a; get_a] 0 0 false));
    [lia|by right|vm_compute; reflexivity|vm_compute; reflexivity|vm_compute; reflexivity].
Defined.

Lemma async_next_is_first_ready_witness :
  0 < 2 /\
  exists log q,
    run [EvEnqueue GET "a"; EvEnqueue PUT "b"] (init 2) = Ok (log, q) /\
    NextRequest 2 q =
    Ok (Some put_b,
        set_cursor ((key_index_ q + 1 + 1) `mod` length (put_queues_ q))%nat
          (set_slot ((key_index_ q + 1) `mod` length (put_queues_ q))%nat
             (drain 2 (mkSlot [put_b] [] 0 1 true)).2 q)).
Proof.
  split; [lia|]. eexists _, _. split; [vm_compute; reflexivity|].
  eapply (async_next_is_first_ready string string payload_is_key the_key payload_is_key
            the_key 2 [EvEnqueue GET "a"; EvEnqueue PUT "b"] _ _ 2 1 put_b []
            (mkSlot [put_b] [] 0 1 true)).
  - lia.
  - vm_compute. reflexivity.
  - lia.
  - intros j Hj. destruct j as [|j]; [|lia].
    eexists. split; [vm_compute; reflexivity|vm_compute; reflexivity].
  - vm_compute. reflexivity.
  - vm_compute. reflexivity.
Defined.

End AsyncScenarios.

Module NetworkScenarios.

Import NetworkThread.

(** The fourth scenario of the spec: four peers, the replies of peers 0,
    2 and 1 arrive while the caller sleeps. *)
Definition replies : list (list delivery) :=
  [[mkDelivery MTYPE_REPLY 0 "ack0"];
   [mkDelivery MTYPE_REPLY 2 "ack2"; mkDelivery MTYPE_PUT_RESPONSE 1 "other"];
   [mkDelivery MTYPE_REPLY 1 "ack1"];
   [mkDelivery MTYPE_REPLY 0 "late"]].

(** A transport that reports an error (class 1) on every record and
    completes none, and one that completes every record without error. *)
Definition failing : Transport := fun _ => (false, 1).
Definition succeeding : Transport := fun _ => (true, 0).

Definition sent_record : RPCRequest := new_RPCRequest 1 MTYPE_PUT_RESPONSE "x".

(** One send, then two iterations of the loop against the failing
    transport. *)
Definition after_errors : t :=
  net_run [EvSend 1 MTYPE_PUT_RESPONSE "x"; EvLoop failing; EvLoop failing] (init 2).

(** A parser that fails on every payload and leaves an empty message, and
    a table of handlers that return the message they are given. *)
Definition failing_parse : string -> string * bool := fun _ => (""%string, false).

Definition echo_handles : MessageKind -> option (Message string string -> Message string string) :=
  fun _ => Some (fun m => m).

Example broadcast_four_peers :
  pending_sends_ (Broadcast PUT "m" (init 4)) =
  [new_RPCRequest 0 PUT "m"; new_RPCRequest 1 PUT "m"; new_RPCRequest 2 PUT "m"].
Proof. reflexivity. Qed.

Example sync_broadcast_four_peers :
  exists n',
    SyncBroadcast PUT MTYPE_REPLY "m" replies (init 4) =
    Some ([(0, "ack0"); (2, "ack2"); (1, "ack1")]%string, n',
          [[mkDelivery MTYPE_REPLY 0 "late"]]).
Proof. eexists. vm_compute. reflexivity. Qed.

Example sync_broadcast_blocks_on_two_replies :
  SyncBroadcast PUT MTYPE_REPLY "m"
    [[mkDelivery MTYPE_REPLY 0 "ack0"]; [mkDelivery MTYPE_REPLY 2 "ack2"]] (init 4) = None.
Proof. vm_compute. reflexivity. Qed.

Lemma broadcast_and_sync_witness :
  (exists n' used,
     SyncBroadcast PUT MTYPE_REPLY "m" replies (init 4) =
       Some ([(0, "ack0"); (2, "ack2"); (1, "ack1")]%string, n',
             [[mkDelivery MTYPE_REPLY 0 "late"]]) /\
     pending_sends_ n' = pending_sends_ (Broadcast PUT "m" (init 4)) /\
     Z.of_nat (length [(0, "ack0"); (2, "ack2"); (1, "ack1")]%string) = Z.max 0 (4 - 1) /\
     replies = used ++ [[mkDelivery MTYPE_REPLY 0 "late"]]) /\
  is_Some (SyncBroadcast PUT MTYPE_REPLY "m" []
             (mk 2 [] [] (fun _ _ => ["ack"%string]) [] [])).
Proof.
  split.
  - destruct sync_broadcast_four_peers as [n' Hs].
    destruct (broadcast_and_sync PUT MTYPE_REPLY "m" (init 4)) as (_ & Hsync & _).
    destruct (Hsync _ _ _ _ Hs) as (Hp & Hlen & _ & used & Hused & _).
    exists n', used. split; [exact Hs|]. split; [exact Hp|]. split; [exact Hlen|exact Hused].
  - destruct (broadcast_and_sync PUT MTYPE_REPLY "m"
                (mk 2 [] [] (fun _ _ => ["ack"%string]) [] [])) as (_ & _ & Hret).
    apply Hret. intros i _. simpl. discriminate.
Defined.

(** Against C6 as stated.  A record is sent; for two iterations the
    transport reports an error on it, then it completes.  The record in
    flight keeps [failures = 0], [Isend] is called for it once in the
    whole run, and its completion logs nothing. *)
Lemma transport_error_is_not_retried :
  (failing sent_record).2 <> 0 /\
  active_sends_ after_errors = [sent_record] /\
  failures sent_record = 0 /\
  pending_sends_ after_errors = [] /\
  isend_log after_errors = [sent_record] /\
  active_sends_ (net_run [EvLoop succeeding] after_errors) = [] /\
  pending_sends_ (net_run [EvLoop succeeding] after_errors) = [] /\
  isend_log (net_run [EvLoop succeeding] after_errors) = [sent_record] /\
  info_log (net_run [EvLoop succeeding] after_errors) = [].
Proof. vm_compute. repeat split; try reflexivity. discriminate. Qed.

Lemma transport_errors_not_counted_witness :
  failures sent_record = 0 /\
  info_log (net_run [EvSend 1 MTYPE_PUT_RESPONSE "x"; EvLoop failing] (init 2)) = [].
Proof.
  destruct (transport_errors_not_counted 2
              [EvSend 1 MTYPE_PUT_RESPONSE "x"; EvLoop failing])
    as (Hf & Hl & _).
  split; [|exact Hl].
  apply Hf. vm_compute. by left.
Defined.

(** Against C9 as stated.  The processor does not abort on a GET_REQUEST
    whose payload does not parse: the handler is invoked on the unparsed
    message. *)
Lemma parse_failure_is_not_fatal :
  (failing_parse "garbage").2 = false /\
  ProcessRequest string string failing_parse failing_parse (Message string string) echo_handles
    (mkTaggedMessage GET "garbage")
  = Ok (MsgHashGet string string ""%string).
Proof. split; reflexivity. Qed.

Lemma read_from_rank_witness :
  Read 3 (Rank 1) MTYPE_REPLY [[mkDelivery MTYPE_REPLY 0 "ack0"]] (fun _ _ => []) = None /\
  exists pool' used sched',
    Read 3 (Rank 1) MTYPE_REPLY replies (fun _ _ => [])
      = Some ((1, "ack1"%string), pool', sched') /\
    replies = used ++ sched'.
Proof.
  split.
  - apply (proj1 (read_from_rank 3 1 MTYPE_REPLY [[mkDelivery MTYPE_REPLY 0 "ack0"]]
                    (fun _ _ => []))).
    vm_compute. reflexivity.
  - destruct (proj2 (read_from_rank 3 1 MTYPE_REPLY replies (fun _ _ => []))
                "ack1"%string [])
      as (pool' & used & sched' & HR & Hs & _); [vm_compute; reflexivity|].
    exists pool', used, sched'. split; [exact HR|exact Hs].
Defined.

End NetworkScenarios.

Module EngineScenarios.

Import Engine.

(** No callback is registered; the two handlers answer with the kind of
    message they are given. *)
Definition no_callbacks : MessageKind -> option (NetworkThread.t -> NetworkThread.t) :=
  fun _ => None.

Definition answering : MessageKind -> option (NetworkThread.Message string string -> string) :=
  fun _ => Some (fun m => match m with
                          | NetworkThread.MsgHashGet _ _ k => String.append "get " k
                          | NetworkThread.MsgTableData _ _ k => String.append "put " k
                          end).

Abbreviation run :=
  (run string string payload_is_key the_key payload_is_key the_key string
     no_callbacks answering).
Abbreviation with_key :=
  (SyncRequestQueue.with_key string string payload_is_key the_key payload_is_key the_key).

(** The engine as constructed for synchronous updates, three processes. *)
Definition sync_engine : t string :=
  {| request_queue_ := Sync SyncRequestQueue.init;
     net := NetworkThread.init 3;
     info := []; fired := []; handled := [] |}.

(** Two requests for "a" and one for "b", a shard assignment and a
    response in between, a send, and three iterations of the processor. *)
Definition traffic : list (event) :=
  [EvNetworkLoop (Some (NetworkThread.mkDelivery PUT 0 "a")) NetworkScenarios.succeeding;
   EvNetworkLoop (Some (NetworkThread.mkDelivery MTYPE_SHARD_ASSIGNMENT 2 "s"))
     NetworkScenarios.succeeding;
   EvNetworkLoop (Some (NetworkThread.mkDelivery GET 1 "b")) NetworkScenarios.succeeding;
   EvSend 1 MTYPE_PUT_RESPONSE "x";
   EvProcessLoop 2;
   EvNetworkLoop None NetworkScenarios.failing;
   EvNetworkLoop (Some (NetworkThread.mkDelivery GET 0 "a")) NetworkScenarios.succeeding;
   EvNetworkLoop (Some (NetworkThread.mkDelivery MTYPE_PUT_RESPONSE 2 "r"))
     NetworkScenarios.succeeding;
   EvProcessLoop 2;
   EvProcessLoop 2].

Example traffic_handled :
  exists e, run traffic sync_engine = Ok e /\
            handled e = ["put a"; "get b"; "get a"]%string /\
            info e = [RECEIVED_SHARD_ASSIGNMENT].
Proof. eexists. split; [vm_compute; reflexivity|]. split; reflexivity. Qed.

Lemma engine_routing_witness :
  exists e,
    run traffic sync_engine = Ok e /\
    (forall type src,
       NetworkThread.response_queue_ (net e) type src =
       NetworkThread.response_queue_ (net sync_engine) type src ++
       NetworkThread.delivered type src (responses traffic)) /\
    NetworkThread.isend_log (net e) = [NetworkThread.new_RPCRequest 1 MTYPE_PUT_RESPONSE "x"].
Proof.
  eexists. split; [vm_compute; reflexivity|].
  destruct (engine_routing string string payload_is_key the_key payload_is_key the_key string
              no_callbacks answering traffic sync_engine _
              ltac:(reflexivity) ltac:(vm_compute; reflexivity))
    as (Hpool & _ & (_ & _ & _ & Hlog & _) & _).
  split; [exact Hpool|exact Hlog].
Defined.


(** The engine as constructed for asynchronous updates, two memory
    servers. *)
Definition async_engine : t string :=
  {| request_queue_ := Async (AsyncRequestQueue.init 2);
     net := NetworkThread.init 3;
     info := []; fired := []; handled := [] |}.

Example traffic_handled_async :
  exists e, run traffic async_engine = Ok e /\ handled e = ["put a"; "get a"]%string.
Proof. eexists. split; [vm_compute; reflexivity|]. reflexivity. Qed.

(** A third PUT for "a" before the processor has taken any. *)
Example overflow_stops_the_engine :
  run [EvNetworkLoop (Some (NetworkThread.mkDelivery PUT 0 "a")) NetworkScenarios.succeeding;
       EvNetworkLoop (Some (NetworkThread.mkDelivery PUT 1 "a")) NetworkScenarios.succeeding;
       EvNetworkLoop (Some (NetworkThread.mkDelivery PUT 2 "a")) NetworkScenarios.succeeding]
    async_engine
  = Abort (CHECK_LT_failed 0).
Proof. vm_compute. reflexivity. Qed.


End EngineScenarios.
